(** * ShellExecUnit: a shallow embedding of [src/shell-exec-unit.ts]

    The unit spawns child processes, buffers or streams their output, runs a
    timeout watchdog and keeps a history of results.  The embedding follows the
    TypeScript source: JavaScript strings are sequences of UTF-16 code units,
    the [Map] of running processes is a finite map keyed by process id, arrays
    and result objects live in a heap so that sharing is visible, and every
    callback the source installs ([data], [close], [error], the two timers) is
    one event of an executable step function. *)

From Stdlib Require Import ZArith NArith List Bool Ascii String Lia QArith.
From Stdlib Require Import DecimalString.
From stdpp Require Import base option list gmap.
From stdpp Require Import sorting.

#[local] Open Scope Z_scope.
#[local] Open Scope list_scope.

(** ** JavaScript strings *)

Module JsString.

(** A string value is its sequence of UTF-16 code units. *)
Abbreviation t := (list N).

(** An ASCII literal of the source, as code units. *)
Definition lit (s : string) : t :=
  List.map N_of_ascii (list_ascii_of_string s).

Definition space : N := 32%N.
Definition newline : N := 10%N.

(** [s.startsWith(p)] *)
Fixpoint startsWith (s p : t) {struct p} : bool :=
  match p with
  | [] => true
  | c :: p' =>
      match s with
      | [] => false
      | d :: s' => N.eqb d c && startsWith s' p'
      end
  end.

(** [s.includes(p)]: [p] occurs at some position of [s]. *)
Fixpoint includes (s p : t) : bool :=
  startsWith s p ||
  match s with
  | [] => false
  | _ :: s' => includes s' p
  end.

(** [s === p] on strings *)
Fixpoint eqb (s p : t) : bool :=
  match s, p with
  | [], [] => true
  | c :: s', d :: p' => N.eqb c d && eqb s' p'
  | _, _ => false
  end.

(** [s.split(' ')]: the maximal runs between single spaces; never empty. *)
Fixpoint split_space (s : t) : list t :=
  match s with
  | [] => [[]]
  | c :: s' =>
      if N.eqb c space then [] :: split_space s'
      else match split_space s' with
           | [] => [[c]]
           | w :: ws => (c :: w) :: ws
           end
  end.

(** ECMAScript WhiteSpace and LineTerminator code units, the set that
    [String.prototype.trim] strips. *)
Definition is_whitespace (c : N) : bool :=
  (N.leb 9 c && N.leb c 13)
  || N.eqb c 32 || N.eqb c 160 || N.eqb c 5760
  || (N.leb 8192 c && N.leb c 8202)
  || N.eqb c 8232 || N.eqb c 8233 || N.eqb c 8239
  || N.eqb c 8287 || N.eqb c 12288 || N.eqb c 65279.

Fixpoint trimStart (s : t) : t :=
  match s with
  | [] => []
  | c :: s' => if is_whitespace c then trimStart s' else s
  end.

Fixpoint trimEnd (s : t) : t :=
  match s with
  | [] => []
  | c :: s' =>
      match trimEnd s' with
      | [] => if is_whitespace c then [] else [c]
      | r => c :: r
      end
  end.

(** [s.trim()] *)
Definition trim (s : t) : t := trimEnd (trimStart s).

(** [String(n)] for an integral number: its decimal digits.  (From 1e21 on
    JavaScript prints an exponent instead, where the model goes on printing
    digits.) *)
Definition of_Z (n : Z) : t := lit (NilZero.string_of_int (Z.to_int n)).

End JsString.

Abbreviation jsstring := (list N).

(** ** Objects of the program *)

Inductive Signal := SIGTERM | SIGKILL.

(** Node's [ChildProcess], reduced to what the unit reads and calls.
    [exited] says that the operating-system handle is closed (the process has
    terminated or was never started); [signals] is the log of signals that
    were delivered.  [kill] follows Node's documented behaviour: with an open
    handle the signal is delivered and [killed] becomes true, otherwise
    nothing happens. *)
Module ChildProcess.
Record t := mk {
  pid : option Z;
  killed : bool;
  exited : bool;
  signals : list Signal;
  spawnfile : jsstring;
  spawnargs : list jsstring;
  cwd : jsstring;
  shell : bool
}.

Definition kill (sig : Signal) (c : t) : t :=
  if exited c then c
  else mk (pid c) true (exited c) (signals c ++ [sig])
          (spawnfile c) (spawnargs c) (cwd c) (shell c).

Definition exit (c : t) : t :=
  mk (pid c) (killed c) true (signals c)
     (spawnfile c) (spawnargs c) (cwd c) (shell c).

(** [if (child.pid)]: a process id that is defined and not 0. *)
Definition truthy_pid (c : t) : option Z :=
  match pid c with
  | Some p => if p =? 0 then None else Some p
  | None => None
  end.
End ChildProcess.

Module ExecResult.
Record t := mk {
  exitCode : Z;
  stdout : jsstring;
  stderr : jsstring;
  duration : Z;
  killed : bool;
  command : jsstring;
  pid : option Z
}.

(** [result.stdout = s] *)
Definition with_stdout (s : jsstring) (r : t) : t :=
  mk (exitCode r) s (stderr r) (duration r) (killed r) (command r) (pid r).
End ExecResult.

(** [Omit<ExecResult, 'stdout' | 'stderr'>], what [stream] resolves with. *)
Module StreamResult.
Record t := mk {
  exitCode : Z;
  duration : Z;
  killed : bool;
  command : jsstring;
  pid : option Z
}.
End StreamResult.

Module ValidationResult.
Record t := mk {
  valid : bool;
  reason : jsstring;
  suggestions : list jsstring
}.
End ValidationResult.

(** [ExecOptions] and [StreamOptions]; an absent field is [None].  The three
    callbacks of [StreamOptions] are opaque to the unit: the model records
    whether each is supplied and logs every call made to it. *)
Module ExecOptions.
Record t := mk {
  cwd : option jsstring;
  timeout : option Z;
  shell : option bool;
  onStdout : bool;
  onStderr : bool;
  onExit : bool
}.
Definition empty : t := mk None None None false false false.
End ExecOptions.

Module ShellExecConfig.
Record t := mk {
  defaultTimeout : option Z;
  defaultCwd : option jsstring;
  allowedCommands : option (list jsstring);
  blockedCommands : option (list jsstring);
  maxConcurrent : option Z
}.
Definition empty : t := mk None None None None None.
End ShellExecConfig.

(** [a || b] on an optional number: 0 and [undefined] are falsy. *)
Definition or_number (a : option Z) (b : Z) : Z :=
  match a with
  | Some n => if n =? 0 then b else n
  | None => b
  end.

(** [a || b] on an optional string: the empty string and [undefined] are
    falsy. *)
Definition or_string (a : option jsstring) (b : jsstring) : jsstring :=
  match a with
  | Some [] => b
  | Some s => s
  | None => b
  end.

(** [a || b] on an optional array: every array is truthy. *)
Definition or_array {A} (a : option (list A)) (b : list A) : list A :=
  match a with
  | Some l => l
  | None => b
  end.

(** [ShellExecProps]: [executionHistory] is a reference to the history array
    in the heap, [runningProcesses] maps a process id to a reference to its
    [ChildProcess] object. *)
Module Props.
Record t := mk {
  defaultTimeout : Z;
  defaultCwd : jsstring;
  allowedCommands : list jsstring;
  blockedCommands : list jsstring;
  maxConcurrent : Z;
  executionHistory : nat;
  runningProcesses : gmap Z nat
}.

Definition with_running (m : gmap Z nat) (p : t) : t :=
  mk (defaultTimeout p) (defaultCwd p) (allowedCommands p)
     (blockedCommands p) (maxConcurrent p) (executionHistory p) m.
End Props.

Inductive Kind := Exec | Stream.
Inductive Channel := Stdout | Stderr.

(** A [setTimeout] handle: not yet created, waiting, run, or cancelled by
    [clearTimeout]. *)
Inductive Timer := Unset | Pending | Fired | Cleared.

(** The promise an invocation returned. *)
Inductive Promise :=
| Waiting
| Resolved (result : nat)
| ResolvedStream (result : StreamResult.t)
| Rejected (message : jsstring).

(** A promise settles once; later [resolve] and [reject] calls are ignored. *)
Definition settle (p new : Promise) : Promise :=
  match p with
  | Waiting => new
  | _ => p
  end.

(** [clearTimeout(h)] only affects a timer that is still waiting. *)
Definition clearTimeout (h : Timer) : Timer :=
  match h with
  | Pending => Cleared
  | _ => h
  end.

(** One invocation of [exec] or [stream]: the local variables its callbacks
    close over. *)
Module Flow.
Record t := mk {
  kind : Kind;
  command : jsstring;
  startTime : Z;
  options : ExecOptions.t;
  timeout : Z;
  validation : option ValidationResult.t;
  child : option nat;
  stdout : jsstring;
  stderr : jsstring;
  killed : bool;
  timeoutHandle : Timer;
  forceTimer : Timer;
  promise : Promise;
  chunks : list (Channel * jsstring);
  exits : list Z
}.

Definition with_child (x : option nat) (f : t) : t :=
  mk (kind f) (command f) (startTime f) (options f) (timeout f)
     (validation f) x (stdout f) (stderr f) (killed f) (timeoutHandle f)
     (forceTimer f) (promise f) (chunks f) (exits f).

Definition with_stdout (x : jsstring) (f : t) : t :=
  mk (kind f) (command f) (startTime f) (options f) (timeout f)
     (validation f) (child f) x (stderr f) (killed f) (timeoutHandle f)
     (forceTimer f) (promise f) (chunks f) (exits f).

Definition with_stderr (x : jsstring) (f : t) : t :=
  mk (kind f) (command f) (startTime f) (options f) (timeout f)
     (validation f) (child f) (stdout f) x (killed f) (timeoutHandle f)
     (forceTimer f) (promise f) (chunks f) (exits f).

Definition with_killed (x : bool) (f : t) : t :=
  mk (kind f) (command f) (startTime f) (options f) (timeout f)
     (validation f) (child f) (stdout f) (stderr f) x (timeoutHandle f)
     (forceTimer f) (promise f) (chunks f) (exits f).

Definition with_timeoutHandle (x : Timer) (f : t) : t :=
  mk (kind f) (command f) (startTime f) (options f) (timeout f)
     (validation f) (child f) (stdout f) (stderr f) (killed f) x
     (forceTimer f) (promise f) (chunks f) (exits f).

Definition with_forceTimer (x : Timer) (f : t) : t :=
  mk (kind f) (command f) (startTime f) (options f) (timeout f)
     (validation f) (child f) (stdout f) (stderr f) (killed f)
     (timeoutHandle f) x (promise f) (chunks f) (exits f).

Definition with_promise (x : Promise) (f : t) : t :=
  mk (kind f) (command f) (startTime f) (options f) (timeout f)
     (validation f) (child f) (stdout f) (stderr f) (killed f)
     (timeoutHandle f) (forceTimer f) x (chunks f) (exits f).

Definition with_chunks (x : list (Channel * jsstring)) (f : t) : t :=
  mk (kind f) (command f) (startTime f) (options f) (timeout f)
     (validation f) (child f) (stdout f) (stderr f) (killed f)
     (timeoutHandle f) (forceTimer f) (promise f) x (exits f).

Definition with_exits (x : list Z) (f : t) : t :=
  mk (kind f) (command f) (startTime f) (options f) (timeout f)
     (validation f) (child f) (stdout f) (stderr f) (killed f)
     (timeoutHandle f) (forceTimer f) (promise f) (chunks f) x.
End Flow.

(** The heap ([arrays] of references to [results], [children]) and the
    invocations in flight. *)
Record World := mkWorld {
  props : Props.t;
  arrays : list (list nat);
  results : list ExecResult.t;
  children : list ChildProcess.t;
  flows : list Flow.t
}.

(** ** Construction and validation *)

Definition unit_id : jsstring := JsString.lit "shell-exec".

Definition default_allowed : list jsstring :=
  List.map JsString.lit
    ["npm"; "tsc"; "node"; "git"; "echo"; "ls"; "pwd"; "cat"; "grep"]%string.

Definition default_blocked : list jsstring :=
  List.map JsString.lit ["rm -rf"; "sudo"; "su"; "dd"; "mkfs"; "fdisk"]%string.

(** [ShellExecUnit.create(config)]; [process_cwd] is [process.cwd()]. *)
Definition create (config : ShellExecConfig.t) (process_cwd : jsstring) : World :=
  mkWorld
    (Props.mk
       (or_number (ShellExecConfig.defaultTimeout config) 30000)
       (or_string (ShellExecConfig.defaultCwd config) process_cwd)
       (or_array (ShellExecConfig.allowedCommands config) default_allowed)
       (or_array (ShellExecConfig.blockedCommands config) default_blocked)
       (or_number (ShellExecConfig.maxConcurrent config) 5)
       0%nat ∅)
    [[]] [] [] [].

(** The contents of the history array: references to result objects. *)
Definition history (w : World) : list nat :=
  default [] (arrays w !! Props.executionHistory (props w)).

(** The history as a reader sees it: the referenced objects. *)
Definition history_values (w : World) : list (option ExecResult.t) :=
  (λ r, results w !! r) <$> history w.

Definition running (w : World) : gmap Z nat := Props.runningProcesses (props w).

(** [this.props.runningProcesses.size] *)
Definition running_size (w : World) : Z := Z.of_nat (size (running w)).

(** [command.split(' ')[0]] *)
Definition commandBase (command : jsstring) : jsstring :=
  hd [] (JsString.split_space command).

(** The [for ... of blockedCommands] loop with its early return: the first
    configured pattern that [command] includes. *)
Fixpoint first_blocked (command : jsstring) (blocked : list jsstring)
  : option jsstring :=
  match blocked with
  | [] => None
  | b :: rest =>
      if JsString.includes command b then Some b
      else first_blocked command rest
  end.

Definition isAllowed (command : jsstring) (allowed : list jsstring) : bool :=
  existsb
    (fun a =>
       JsString.eqb (commandBase command) a
       || JsString.startsWith command (a ++ [JsString.space]))
    allowed.

Definition validate (w : World) (command : jsstring) : ValidationResult.t :=
  let p := props w in
  match first_blocked command (Props.blockedCommands p) with
  | Some blocked =>
      ValidationResult.mk false
        (JsString.lit "Command contains blocked pattern: " ++ blocked)
        [JsString.lit "Use safer alternatives to " ++ blocked]
  | None =>
      if (0 <? length (Props.allowedCommands p))%nat
         && negb (isAllowed command (Props.allowedCommands p))
      then
        ValidationResult.mk false
          (JsString.lit "Command not in allowed list: " ++ commandBase command)
          (firstn 3 (Props.allowedCommands p))
      else if Props.maxConcurrent p <=? running_size w then
        ValidationResult.mk false
          (JsString.lit "Maximum concurrent processes reached: "
             ++ JsString.of_Z (Props.maxConcurrent p))
          [JsString.lit "Wait for running processes to complete";
           JsString.lit "Use killAll() to terminate running processes"]
      else
        ValidationResult.mk true
          (JsString.lit "Command passed all safety checks") []
  end.

(** ** World updates *)

Definition set_flow (fid : nat) (f : Flow.t) (w : World) : World :=
  mkWorld (props w) (arrays w) (results w) (children w) (<[fid := f]> (flows w)).

Definition add_flow (f : Flow.t) (w : World) : World :=
  mkWorld (props w) (arrays w) (results w) (children w) (flows w ++ [f]).

Definition set_child (cref : nat) (c : ChildProcess.t) (w : World) : World :=
  mkWorld (props w) (arrays w) (results w) (<[cref := c]> (children w)) (flows w).

Definition add_child (c : ChildProcess.t) (w : World) : World :=
  mkWorld (props w) (arrays w) (results w) (children w ++ [c]) (flows w).

Definition set_running (m : gmap Z nat) (w : World) : World :=
  mkWorld (Props.with_running m (props w)) (arrays w) (results w)
          (children w) (flows w).

(** [if (child.pid) runningProcesses.set(child.pid, child)] *)
Definition register (cref : nat) (c : ChildProcess.t) (w : World) : World :=
  match ChildProcess.truthy_pid c with
  | Some p => set_running (<[p := cref]> (running w)) w
  | None => w
  end.

(** [if (child.pid) runningProcesses.delete(child.pid)] *)
Definition unregister (c : ChildProcess.t) (w : World) : World :=
  match ChildProcess.truthy_pid c with
  | Some p => set_running (delete p (running w)) w
  | None => w
  end.

(** Apply [f] to the child object behind [cref]. *)
Definition on_child (cref : nat) (f : ChildProcess.t → ChildProcess.t)
    (w : World) : World :=
  match children w !! cref with
  | Some c => set_child cref (f c) w
  | None => w
  end.

(** [this.props.executionHistory.push(result)] for a freshly built result
    object; returns the reference to the new object. *)
Definition push_result (r : ExecResult.t) (w : World) : nat * World :=
  let loc := length (results w) in
  let h := Props.executionHistory (props w) in
  (loc,
   mkWorld (props w) (<[h := history w ++ [loc]]> (arrays w))
           (results w ++ [r]) (children w) (flows w)).

(** ** The operations and the callbacks they install *)

(** [{ ...options, cwd: options.cwd || defaultCwd,
       timeout: options.timeout || defaultTimeout }] *)
Definition execOptions (w : World) (options : ExecOptions.t) : ExecOptions.t :=
  ExecOptions.mk
    (Some (or_string (ExecOptions.cwd options) (Props.defaultCwd (props w))))
    (Some (or_number (ExecOptions.timeout options)
             (Props.defaultTimeout (props w))))
    (ExecOptions.shell options)
    (ExecOptions.onStdout options)
    (ExecOptions.onStderr options)
    (ExecOptions.onExit options).

(** [shell: options.shell !== false] *)
Definition shell_flag (options : ExecOptions.t) : bool :=
  match ExecOptions.shell options with
  | Some false => false
  | _ => true
  end.

(** [const [cmd, ...args] = command.split(' '); spawn(cmd, args, {...})].
    The operating system decides the process id; [None] is a failed spawn,
    which leaves the object without a handle.  The environment variables
    handed to the process play no role in what follows and are left out. *)
Definition spawn (command cwd : jsstring) (shell : bool) (pid : option Z)
  : ChildProcess.t :=
  let parts := JsString.split_space command in
  ChildProcess.mk pid false (match pid with Some _ => false | None => true end)
                  [] (hd [] parts) (tl parts) cwd shell.

(** [exec], up to its [await this.validate(command)]: the options are
    resolved and the validator has run; the invocation is suspended. *)
Definition exec_call (command : jsstring) (options : ExecOptions.t) (now : Z)
    (w : World) : World :=
  let o := execOptions w options in
  add_flow
    (Flow.mk Exec command now o (default 0 (ExecOptions.timeout o))
       (Some (validate w command)) None [] [] false Unset Unset Waiting [] [])
    w.

(** The body of the [new Promise] executor, common to [exec] and [stream]:
    spawn, register the process id, start the watchdog. *)
Definition start (fid : nat) (f : Flow.t) (cwd : jsstring) (pid : option Z)
    (w : World) : World :=
  let c := spawn (Flow.command f) cwd (shell_flag (Flow.options f)) pid in
  let cref := length (children w) in
  set_flow fid
    (Flow.with_timeoutHandle Pending (Flow.with_child (Some cref) f))
    (register cref c (add_child c w)).

(** [`[${this.dna.id}] Command blocked: ${validation.reason}`], the message
    [exec] throws for an invalid command. *)
Definition blocked_message (v : ValidationResult.t) : jsstring :=
  JsString.lit "[" ++ unit_id ++ JsString.lit "] Command blocked: "
    ++ ValidationResult.reason v.

(** [exec], resumed after the [await]: throw on an invalid command, otherwise
    run the executor. *)
Definition exec_resume (fid : nat) (pid : option Z) (w : World) : World :=
  match flows w !! fid with
  | Some f =>
      match Flow.kind f, Flow.child f, Flow.promise f, Flow.validation f with
      | Exec, None, Waiting, Some v =>
          if negb (ValidationResult.valid v) then
            set_flow fid
              (Flow.with_promise (Rejected (blocked_message v)) f) w
          else
            start fid f (default [] (ExecOptions.cwd (Flow.options f))) pid w
      | _, _, _, _ => w
      end
  | None => w
  end.

(** [stream]: no [await] and no call of the validator; the executor runs at
    once. *)
Definition stream (command : jsstring) (options : ExecOptions.t) (now : Z)
    (pid : option Z) (w : World) : World :=
  let fid := length (flows w) in
  let f :=
    Flow.mk Stream command now options
      (or_number (ExecOptions.timeout options) (Props.defaultTimeout (props w)))
      None None [] [] false Unset Unset Waiting [] [] in
  start fid f
    (or_string (ExecOptions.cwd options) (Props.defaultCwd (props w)))
    pid (add_flow f w).

(** The flow [fid] once its process is spawned, with the reference to its
    child object and that object. *)
Definition spawned (fid : nat) (w : World)
  : option (Flow.t * nat * ChildProcess.t) :=
  match flows w !! fid with
  | Some f =>
      match Flow.child f with
      | Some cref =>
          match children w !! cref with
          | Some c => Some (f, cref, c)
          | None => None
          end
      | None => None
      end
  | None => None
  end.

(** [child.stdout.on('data', ...)] and [child.stderr.on('data', ...)] *)
Definition on_data (fid : nat) (chan : Channel) (data : jsstring) (w : World)
  : World :=
  match spawned fid w with
  | Some (f, _, _) =>
      match Flow.kind f, chan with
      | Exec, Stdout => set_flow fid (Flow.with_stdout (Flow.stdout f ++ data) f) w
      | Exec, Stderr => set_flow fid (Flow.with_stderr (Flow.stderr f ++ data) f) w
      | Stream, _ =>
          let supplied :=
            match chan with
            | Stdout => ExecOptions.onStdout (Flow.options f)
            | Stderr => ExecOptions.onStderr (Flow.options f)
            end in
          if supplied
          then set_flow fid (Flow.with_chunks (Flow.chunks f ++ [(chan, data)]) f) w
          else w
      end
  | None => w
  end.

(** The callback of the timeout timer: [killed = true; child.kill('SIGTERM')],
    and in [exec] the second timer is started. *)
Definition on_timeout (fid : nat) (w : World) : World :=
  match spawned fid w with
  | Some (f, cref, c) =>
      match Flow.timeoutHandle f with
      | Pending =>
          let f1 := Flow.with_timeoutHandle Fired (Flow.with_killed true f) in
          let f2 :=
            match Flow.kind f with
            | Exec => Flow.with_forceTimer Pending f1
            | Stream => f1
            end in
          set_flow fid f2 (set_child cref (ChildProcess.kill SIGTERM c) w)
      | _ => w
      end
  | None => w
  end.

(** The callback of the second timer, 1000 ms after the first:
    [if (!child.killed) child.kill('SIGKILL')]. *)
Definition on_force_kill (fid : nat) (w : World) : World :=
  match spawned fid w with
  | Some (f, cref, c) =>
      match Flow.forceTimer f with
      | Pending =>
          set_flow fid (Flow.with_forceTimer Fired f)
            (if negb (ChildProcess.killed c)
             then set_child cref (ChildProcess.kill SIGKILL c) w
             else w)
      | _ => w
      end
  | None => w
  end.

(** [exitCode || 0] for [exitCode : number | null] *)
Definition or_exitCode (exitCode : option Z) : Z := or_number exitCode 0.

(** The result object [exec] builds when the process closes. *)
Definition close_result (f : Flow.t) (c : ChildProcess.t) (exitCode : option Z)
    (now : Z) : ExecResult.t :=
  ExecResult.mk (or_exitCode exitCode)
    (JsString.trim (Flow.stdout f)) (JsString.trim (Flow.stderr f))
    (now - Flow.startTime f) (Flow.killed f) (Flow.command f)
    (ChildProcess.pid c).

(** [child.on('close', ...)]: stop the watchdog, deregister; [exec] builds
    the result object, pushes it on the history and resolves with that same
    object; [stream] calls [onExit] and resolves with a result that is stored
    nowhere. *)
Definition on_close (fid : nat) (exitCode : option Z) (now : Z) (w : World)
  : World :=
  match spawned fid w with
  | Some (f, _, c) =>
      let f1 := Flow.with_timeoutHandle (clearTimeout (Flow.timeoutHandle f)) f in
      let duration := now - Flow.startTime f in
      let w1 := unregister c w in
      match Flow.kind f with
      | Exec =>
          let '(loc, w2) := push_result (close_result f c exitCode now) w1 in
          set_flow fid
            (Flow.with_promise (settle (Flow.promise f) (Resolved loc)) f1) w2
      | Stream =>
          let f2 :=
            if ExecOptions.onExit (Flow.options f)
            then Flow.with_exits (Flow.exits f ++ [or_exitCode exitCode]) f1
            else f1 in
          set_flow fid
            (Flow.with_promise
               (settle (Flow.promise f)
                  (ResolvedStream
                     (StreamResult.mk (or_exitCode exitCode) duration
                        (Flow.killed f) (Flow.command f) (ChildProcess.pid c))))
               f2)
            w1
      end
  | None => w
  end.

(** [`Command execution failed: ${command}\nError: ${error.message}`], the
    message [exec] rejects with when the spawn itself fails. *)
Definition failed_message (command message : jsstring) : jsstring :=
  JsString.lit "Command execution failed: " ++ command
    ++ [JsString.newline] ++ JsString.lit "Error: " ++ message.

(** [child.on('error', ...)]: stop the watchdog, deregister, reject.  [exec]
    wraps the message, [stream] passes the error on. *)
Definition on_error (fid : nat) (message : jsstring) (w : World) : World :=
  match spawned fid w with
  | Some (f, _, c) =>
      let f1 := Flow.with_timeoutHandle (clearTimeout (Flow.timeoutHandle f)) f in
      let err :=
        match Flow.kind f with
        | Exec => failed_message (Flow.command f) message
        | Stream => message
        end in
      set_flow fid
        (Flow.with_promise (settle (Flow.promise f) (Rejected err)) f1)
        (unregister c w)
  | None => w
  end.

(** [kill(pid)]: signal the registered process and drop its entry. *)
Definition kill (pid : Z) (w : World) : bool * World :=
  match running w !! pid with
  | Some cref =>
      (true,
       set_running (delete pid (running w))
         (on_child cref (ChildProcess.kill SIGTERM) w))
  | None => (false, w)
  end.

(** [killAll()] when nothing else runs while it does: [kill] every key the
    registry had on entry, and return their number.  The source visits the
    keys in insertion order; each [kill] acts on its own entry, so the order
    does not show in the final state.  The loop of the source awaits every
    [kill], and other code of the unit can run at each of these points; what
    [killAll] does then is [killAll_from], defined below with the runs. *)
Definition killAll (w : World) : Z * World :=
  let pids := (map_to_list (running w)).*1 in
  (Z.of_nat (length pids), foldl (fun w pid => snd (kill pid w)) w pids).

(** [getRunningProcesses()]: the keys of the registry.  The source lists them
    in insertion order, which the finite map does not record: the list here
    is in the order of the map, and only what is in it is meaningful. *)
Definition getRunningProcesses (w : World) : list Z :=
  (map_to_list (running w)).*1.

(** [getHistory()]: [[...this.props.executionHistory]] allocates a new array
    holding the same references; the result is the reference to it. *)
Definition getHistory (w : World) : nat * World :=
  (length (arrays w),
   mkWorld (props w) (arrays w ++ [history w]) (results w) (children w)
           (flows w)).

(** The operating system ends the process behind [cref]. *)
Definition process_exit (cref : nat) (w : World) : World :=
  on_child cref ChildProcess.exit w.

(** ** What a caller can do to an array it was handed *)

(** [ArrayUpdate g] stands for any change of the array itself ([push], [pop],
    [splice], [sort], an index or [length] assignment): its contents become
    [g] of the old contents.  [ElementUpdate i g] is a field assignment through
    the [i]-th element, [returned[i].field = value]. *)
Inductive Mutation :=
| ArrayUpdate (g : list nat → list nat)
| ElementUpdate (i : nat) (g : ExecResult.t → ExecResult.t).

Definition mutate (a : nat) (m : Mutation) (w : World) : World :=
  match m with
  | ArrayUpdate g =>
      match arrays w !! a with
      | Some l =>
          mkWorld (props w) (<[a := g l]> (arrays w)) (results w) (children w)
                  (flows w)
      | None => w
      end
  | ElementUpdate i g =>
      match arrays w !! a with
      | Some l =>
          match l !! i with
          | Some loc =>
              match results w !! loc with
              | Some r =>
                  mkWorld (props w) (arrays w) (<[loc := g r]> (results w))
                          (children w) (flows w)
              | None => w
              end
          | None => w
          end
      | None => w
      end
  end.

(** ** Runs *)

(** Everything that can happen to a unit: calls of its operations, with what
    the environment contributes to each (the clock, the process id the
    operating system hands out), and the callbacks Node invokes.  [KillAll]
    is a [killAll()] that nothing interrupts; one that is interrupted at its
    awaits is a sequence of [Kill] events with the interrupting events in
    between. *)
Inductive Event :=
| ExecCall (command : jsstring) (options : ExecOptions.t) (now : Z)
| ExecResume (fid : nat) (pid : option Z)
| StreamCall (command : jsstring) (options : ExecOptions.t) (now : Z)
    (pid : option Z)
| Data (fid : nat) (chan : Channel) (data : jsstring)
| WatchdogFire (fid : nat)
| ForceKillFire (fid : nat)
| Close (fid : nat) (exitCode : option Z) (now : Z)
| Error (fid : nat) (message : jsstring)
| Kill (pid : Z)
| KillAll
| GetHistory
| ProcessExit (cref : nat).

Definition step (w : World) (e : Event) : World :=
  match e with
  | ExecCall command options now => exec_call command options now w
  | ExecResume fid pid => exec_resume fid pid w
  | StreamCall command options now pid => stream command options now pid w
  | Data fid chan data => on_data fid chan data w
  | WatchdogFire fid => on_timeout fid w
  | ForceKillFire fid => on_force_kill fid w
  | Close fid exitCode now => on_close fid exitCode now w
  | Error fid message => on_error fid message w
  | Kill pid => snd (kill pid w)
  | KillAll => snd (killAll w)
  | GetHistory => snd (getHistory w)
  | ProcessExit cref => process_exit cref w
  end.

Definition run (w : World) (es : list Event) : World := foldl step w es.

(** The states of a unit built from [config]. *)
Definition reachable (config : ShellExecConfig.t) (cwd : jsstring) (w : World)
  : Prop :=
  ∃ es, w = run (create config cwd) es.

(** The loop of [killAll()], [for (const pid of pids) await this.kill(pid)]:
    each [kill] runs at once when it is called, and the [await] that follows
    lets other code of the unit run before the loop goes on, an [exec]
    suspended at its own [await], or further calls.  [between] lists, kill by
    kill, the events that run at that point; where it has no entry, nothing
    runs. *)
Fixpoint killAll_loop (pids : list Z) (between : list (list Event)) (w : World)
  : World :=
  match pids with
  | [] => w
  | pid :: rest =>
      killAll_loop rest (tl between) (run (snd (kill pid w)) (hd [] between))
  end.

(** [killAll()] as the source runs it.  [pids] is
    [Array.from(this.props.runningProcesses.keys())], the registered process
    ids in insertion order; the value returned is [pids.length], whatever the
    kills found. *)
Definition killAll_from (pids : list Z) (between : list (list Event))
    (w : World) : Z * World :=
  (Z.of_nat (length pids), killAll_loop pids between w).

(** The events of such a [killAll()], one after the other. *)
Fixpoint killAll_events (pids : list Z) (between : list (list Event))
  : list Event :=
  match pids with
  | [] => []
  | pid :: rest =>
      Kill pid :: hd [] between ++ killAll_events rest (tl between)
  end.

(** ** Vocabulary of the statements *)

(** [p] occurs in [s] as a contiguous run of code units. *)
Definition occurs_in (p s : jsstring) : Prop := ∃ pre post, s = pre ++ p ++ post.

(** The history reference points into the heap. *)
Definition wf (w : World) : Prop :=
  (Props.executionHistory (props w) < length (arrays w))%nat.

Definition flow_kind (fid : nat) (w : World) : option Kind :=
  Flow.kind <$> flows w !! fid.

(** [e] is the [close] callback of a spawned [exec] invocation: an execution
    completes. *)
Definition completes (w : World) (e : Event) : bool :=
  match e with
  | Close fid _ _ =>
      match spawned fid w with
      | Some (f, _, _) =>
          match Flow.kind f with
          | Exec => true
          | Stream => false
          end
      | None => false
      end
  | _ => false
  end.

(** [e] is a call of [stream] or a callback of a [stream] invocation. *)
Definition stream_event (w : World) (e : Event) : bool :=
  match e with
  | StreamCall _ _ _ _ => true
  | Data fid _ _ | WatchdogFire fid | ForceKillFire fid | Close fid _ _ | Error fid _ =>
      match flow_kind fid w with
      | Some Stream => true
      | _ => false
      end
  | _ => false
  end.

(** The promise of invocation [fid]. *)
Definition promise_of (fid : nat) (w : World) : option Promise :=
  Flow.promise <$> flows w !! fid.

(** The child object of invocation [fid]. *)
Definition child_of (fid : nat) (w : World) : option ChildProcess.t :=
  match spawned fid w with
  | Some (_, _, c) => Some c
  | None => None
  end.

(** What the history depends on: the reference, the arrays, the objects. *)
Definition hist_part (w : World) : nat * list (list nat) * list ExecResult.t :=
  (Props.executionHistory (props w), arrays w, results w).

(** What a caller reads from the array [getHistory] hands out. *)
Definition getHistory_contents (w : World) : list (option ExecResult.t) :=
  let '(a, w') := getHistory w in
  (λ r, results w' !! r) <$> default [] (arrays w' !! a).


(** ** Concrete units and runs used in examples *)

Module Sample.

Definition cwd : jsstring := JsString.lit "/srv/app".

(** [ShellExecUnit.create()] *)
Definition shell : World := create ShellExecConfig.empty cwd.

(** [ShellExecUnit.create({ maxConcurrent: 1 })] *)
Definition single_config : ShellExecConfig.t :=
  ShellExecConfig.mk None None None None (Some 1).
Definition single : World := create single_config cwd.

(** [{ timeout: 100 }] *)
Definition timeout_100 : ExecOptions.t :=
  ExecOptions.mk None (Some 100) None false false false.

(** [{ timeout: 0, cwd: '' }] *)
Definition falsy_options : ExecOptions.t :=
  ExecOptions.mk (Some []) (Some 0) None false false false.

(** [{ timeout: 250, cwd: '/tmp' }] *)
Definition explicit_options : ExecOptions.t :=
  ExecOptions.mk (Some (JsString.lit "/tmp")) (Some 250) None false false false.

(** [{ onStdout, onStderr, onExit }] *)
Definition callbacks : ExecOptions.t :=
  ExecOptions.mk None None None true true true.

(** [exec('echo hi')] spawned as process 4242, not yet closed. *)
Definition echo_running : World :=
  run shell
    [ExecCall (JsString.lit "echo hi") ExecOptions.empty 1000;
     ExecResume 0 (Some 4242)].

(** The local state of that invocation. *)
Definition echo_flow : Flow.t :=
  Flow.mk Exec (JsString.lit "echo hi") 1000
    (execOptions shell ExecOptions.empty) 30000
    (Some (validate shell (JsString.lit "echo hi"))) (Some 0%nat)
    [] [] false Pending Unset Waiting [] [].

(** The same invocation, closed with exit code 0 after printing. *)
Definition echo_done : World :=
  run echo_running
    [Data 0 Stdout (JsString.lit "hi"); Data 0 Stdout [JsString.newline];
     Close 0 (Some 0) 1007].

(** [exec('node server.js', { timeout: 100 })]: the watchdog fires, the
    process survives the SIGTERM, the second timer fires. *)
Definition stubborn : World :=
  run shell
    [ExecCall (JsString.lit "node server.js") timeout_100 0;
     ExecResume 0 (Some 4242); WatchdogFire 0; ForceKillFire 0].

(** [exec('ls', { cwd: '/nonexistent' })]: the spawn fails, there is no
    process id. *)
Definition failed_spawn : World :=
  run shell
    [ExecCall (JsString.lit "ls")
       (ExecOptions.mk (Some (JsString.lit "/nonexistent")) None None
          false false false) 0;
     ExecResume 0 None].

(** [stream('echo hi', { onStdout, onStderr, onExit })] spawned as process
    4300 on top of [echo_done]. *)
Definition streaming : World :=
  run echo_done [StreamCall (JsString.lit "echo hi") callbacks 2000 (Some 4300)].

End Sample.

(** Every invocation whose [killed] variable is set has a watchdog that ran,
    and was spawned. *)
Definition watchdog_ran (f : Flow.t) : Prop :=
  Flow.killed f = true →
  Flow.timeoutHandle f = Fired ∧ is_Some (Flow.child f).

Definition Channel_eqb (a b : Channel) : bool :=
  match a, b with
  | Stdout, Stdout | Stderr, Stderr => true
  | _, _ => false
  end.

(** The [data] events that deliver [chunks] to invocation [fid]. *)
Definition feed (fid : nat) (chunks : list (Channel * jsstring)) : list Event :=
  List.map (fun p => Data fid (fst p) (snd p)) chunks.

(** The chunks of one channel, concatenated in arrival order. *)
Fixpoint channel_text (ch : Channel) (chunks : list (Channel * jsstring))
  : jsstring :=
  match chunks with
  | [] => []
  | (ch', data) :: rest =>
      if Channel_eqb ch' ch then data ++ channel_text ch rest
      else channel_text ch rest
  end.

(** The chunks that the [data] events of a run deliver to invocation [fid],
    in arrival order. *)
Fixpoint chunks_for (fid : nat) (es : list Event) : list (Channel * jsstring) :=
  match es with
  | [] => []
  | Data fid' ch data :: es' =>
      if Nat.eqb fid' fid then (ch, data) :: chunks_for fid es'
      else chunks_for fid es'
  | _ :: es' => chunks_for fid es'
  end.

(** Invocation [fid] is an [exec] whose process was spawned and whose two
    buffers hold [out] and [err]. *)
Definition capturing (fid : nat) (out err : jsstring) (w : World) : Prop :=
  ∃ f cref,
    flows w !! fid = Some f ∧ Flow.kind f = Exec
    ∧ Flow.child f = Some cref ∧ (cref < length (children w))%nat
    ∧ Flow.stdout f = out ∧ Flow.stderr f = err.

(** [t] is [s] without the whitespace at its two ends. *)
Definition trimmed_of (s t : jsstring) : Prop :=
  ∃ l r, s = l ++ t ++ r
         ∧ forallb JsString.is_whitespace l = true
         ∧ forallb JsString.is_whitespace r = true
         ∧ (∀ c u, t = c :: u → JsString.is_whitespace c = false)
         ∧ (∀ u c, t = u ++ [c] → JsString.is_whitespace c = false).

(** ** The prototype's pattern analysis

    [analyzePatterns] is a method of the prototype implementation of the
    unit, whose [exec], [stream], [validate] and history are those above.  It
    only reads the history, so the model takes the sequence of recorded
    results. *)

Module Prototype.

(** The value of a JavaScript division of integers, exactly: a rational,
    or what a zero divisor yields.  JavaScript then rounds the quotient to
    the nearest double; the model keeps the quotient itself, so what is
    stated of a quotient below is what rounding preserves: that it is
    finite, its bounds, and the values 0 and 1. *)
Inductive number :=
| Finite (q : Q)
| NaN
| Infinity (negative : bool).

Definition is_finite (n : number) : bool :=
  match n with
  | Finite _ => true
  | _ => false
  end.

(** [a / b] *)
Definition divide (a b : Z) : number :=
  if b =? 0 then (if a =? 0 then NaN else Infinity (a <? 0))
  else Finite (inject_Z a / inject_Z b)%Q.

Record Patterns := mkPatterns {
  totalExecutions : Z;
  successRate : number;
  averageDuration : number;
  mostUsedCommands : list jsstring;
  recentFailures : list ExecResult.t
}.

(** [commandCounts.set(k, (commandCounts.get(k) || 0) + 1)] on a [Map], which
    keeps its keys in insertion order. *)
Fixpoint bump (k : jsstring) (counts : list (jsstring * Z))
  : list (jsstring * Z) :=
  match counts with
  | [] => [(k, or_number None 0 + 1)]
  | (k', n) :: rest =>
      if JsString.eqb k' k then (k', or_number (Some n) 0 + 1) :: rest
      else (k', n) :: bump k rest
  end.

Definition commandCounts (history : list ExecResult.t) : list (jsstring * Z) :=
  foldl (λ counts r, bump (commandBase (ExecResult.command r)) counts)
    [] history.

(** [entries.sort(([, a], [, b]) => b - a)]: descending by count, and
    stable, as [Array.prototype.sort] is. *)
Fixpoint insert_desc (x : jsstring * Z) (l : list (jsstring * Z))
  : list (jsstring * Z) :=
  match l with
  | [] => [x]
  | y :: l' => if snd x <? snd y then y :: insert_desc x l' else x :: l
  end.

Definition sort_desc (l : list (jsstring * Z)) : list (jsstring * Z) :=
  foldr insert_desc [] l.

(** [l.slice(-n)] *)
Definition slice_last {A} (n : nat) (l : list A) : list A :=
  skipn (length l - n) l.

Definition analyzePatterns (history : list ExecResult.t) : Patterns :=
  let total := Z.of_nat (length history) in
  let successes :=
    Z.of_nat
      (length (List.filter (λ r, ExecResult.exitCode r =? 0) history)) in
  let avgDuration :=
    if 0 <? total
    then divide (foldl (λ sum r, sum + ExecResult.duration r) 0 history) total
    else Finite 0 in
  let mostUsed := fst <$> firstn 5 (sort_desc (commandCounts history)) in
  let recentFailures :=
    slice_last 5
      (List.filter (λ r, negb (ExecResult.exitCode r =? 0)) history) in
  mkPatterns total
    (if 0 <? total then divide successes total else Finite 0)
    avgDuration mostUsed recentFailures.

End Prototype.

(** ** Vocabulary for the remaining operations *)

(** [parts.join(' ')] *)
Fixpoint join_space (parts : list jsstring) : jsstring :=
  match parts with
  | [] => []
  | [p] => p
  | p :: rest => p ++ JsString.space :: join_space rest
  end.

(** The configuration a unit is built with: everything in [props] but the
    history reference and the registry. *)
Definition configuration (w : World)
  : Z * jsstring * list jsstring * list jsstring * Z :=
  (Props.defaultTimeout (props w), Props.defaultCwd (props w),
   Props.allowedCommands (props w), Props.blockedCommands (props w),
   Props.maxConcurrent (props w)).

(** [exec] run without interruption: the call and, at once, its resumption
    after the [await]. *)
Definition exec_now (command : jsstring) (options : ExecOptions.t) (now : Z)
    (pid : option Z) (w : World) : World :=
  exec_resume (length (flows w)) pid (exec_call command options now w).

(** The events that can spawn a process. *)
Definition spawns (e : Event) : bool :=
  match e with
  | ExecCall _ _ _ | ExecResume _ _ | StreamCall _ _ _ _ => true
  | _ => false
  end.

(** The states a unit reaches from [w0] when [stream] is not used and no
    other call or callback runs between the validation of an [exec] and its
    spawn. *)
Inductive sequential (w0 : World) : World → Prop :=
| sequential_init : sequential w0 w0
| sequential_exec w command options now pid :
    sequential w0 w → sequential w0 (exec_now command options now pid w)
| sequential_step w e :
    sequential w0 w → spawns e = false → sequential w0 (step w e).

(** How many events of a run complete an [exec]. *)
Fixpoint completions (w : World) (es : list Event) : nat :=
  match es with
  | [] => 0
  | e :: es' =>
      ((if completes w e then 1 else 0) + completions (step w e) es')%nat
  end.

(** The chunks of a [stream] that reach a callback: those of a channel whose
    callback the caller supplied. *)
Definition delivered (options : ExecOptions.t)
    (chunks : list (Channel * jsstring)) : list (Channel * jsstring) :=
  List.filter
    (λ p, match fst p with
          | Stdout => ExecOptions.onStdout options
          | Stderr => ExecOptions.onStderr options
          end)
    chunks.

(** [kill] applied to every process id of a list, as the loop of [killAll]
    does. *)
Definition kill_each (pids : list Z) (w : World) : World :=
  foldl (λ w pid, snd (kill pid w)) w pids.

(** A process that was sent a signal through its object, or whose handle is
    closed. *)
Definition signalled_or_gone (c : ChildProcess.t) : Prop :=
  ChildProcess.killed c = true ∨ ChildProcess.exited c = true.

(** No child ever received SIGKILL, and whenever the second timer of an
    invocation is waiting, its child was already signalled or is gone. *)
Definition escalation_idle (w : World) : Prop :=
  Forall (λ c, SIGKILL ∉ ChildProcess.signals c) (children w)
  ∧ ∀ fid f, flows w !! fid = Some f → Flow.forceTimer f = Pending →
      ∃ cref c, Flow.child f = Some cref ∧ children w !! cref = Some c
                ∧ signalled_or_gone c.

(** ** More concrete units and runs *)

Module Scenario.

(** [ShellExecUnit.create({ maxConcurrent: 1 })] with [exec('npm test')]
    running as process 4242. *)
Definition busy : World :=
  run Sample.single
    [ExecCall (JsString.lit "npm test") ExecOptions.empty 0;
     ExecResume 0 (Some 4242)].

(** The default unit running [exec('npm test')] as 4242 and
    [stream('npm run build')] as 4243. *)
Definition two_running : World :=
  run Sample.shell
    [ExecCall (JsString.lit "npm test") ExecOptions.empty 0;
     ExecResume 0 (Some 4242);
     StreamCall (JsString.lit "npm run build") Sample.callbacks 5 (Some 4243)].

(** [stream('npm run build', { onStdout, onStderr, onExit })] running as
    4243 in a fresh default unit. *)
Definition build_stream : World :=
  run Sample.shell
    [StreamCall (JsString.lit "npm run build") Sample.callbacks 5 (Some 4243)].

(** The default unit with [exec('npm test')] running as 4242 and
    [exec('echo hi')] called but still suspended at its [await]. *)
Definition one_suspended : World :=
  run Sample.shell
    [ExecCall (JsString.lit "npm test") ExecOptions.empty 0;
     ExecResume 0 (Some 4242);
     ExecCall (JsString.lit "echo hi") ExecOptions.empty 5].

End Scenario.

(** ** Vocabulary for the pattern analysis *)

(** The recorded results with a non-zero exit code, in history order. *)
Definition failures (history : list ExecResult.t) : list ExecResult.t :=
  List.filter (λ r, negb (ExecResult.exitCode r =? 0)) history.

(** How many recorded commands have [k] as their first word. *)
Definition count_base (k : jsstring) (history : list ExecResult.t) : Z :=
  Z.of_nat
    (length
       (List.filter
          (λ r, JsString.eqb (commandBase (ExecResult.command r)) k) history)).

(** [counts.get(k) || 0] *)
Fixpoint get_count (k : jsstring) (counts : list (jsstring * Z)) : Z :=
  match counts with
  | [] => 0
  | (k', n) :: rest => if JsString.eqb k' k then n else get_count k rest
  end.

(** The sum of the recorded durations. *)
Definition total_duration (history : list ExecResult.t) : Z :=
  foldr (λ r sum, ExecResult.duration r + sum) 0 history.


(** * Properties *)

(** ** Strings *)

Section StringFacts.

Implicit Types s p : jsstring.

Lemma startsWith_spec s p :
  JsString.startsWith s p = true ↔ ∃ post, s = p ++ post.
Proof.
  revert s; induction p as [|c p IH]; intros s; simpl.
  - split; [intros _; by exists s | reflexivity].
  - destruct s as [|d s]; simpl.
    + split; [intros H; discriminate | intros [post H]; discriminate].
    + rewrite andb_true_iff, N.eqb_eq, IH. split.
      * intros [-> [post ->]]. by exists post.
      * intros [post H]. injection H as -> ->. eauto.
Qed.

Lemma includes_spec s p : JsString.includes s p = true ↔ occurs_in p s.
Proof.
  unfold occurs_in. induction s as [|d s IH].
  - cbn [JsString.includes]. rewrite orb_false_r, startsWith_spec. split.
    + intros [post H]. by exists [], post.
    + intros [pre [post H]]. destruct pre; [by exists post|discriminate].
  - cbn [JsString.includes]. rewrite orb_true_iff, startsWith_spec, IH. split.
    + intros [[post H] | [pre [post H]]].
      * by exists [], post.
      * exists (d :: pre), post. by rewrite H.
    + intros [[|e pre] [post H]].
      * left. by exists post.
      * right. injection H as -> ->. eauto.
Qed.

Lemma eqb_spec s p : JsString.eqb s p = true ↔ s = p.
Proof.
  revert p; induction s as [|c s IH]; intros [|d p]; simpl; try done.
  rewrite andb_true_iff, N.eqb_eq, IH. split; [by intros [-> ->] | by intros [= -> ->]].
Qed.

(** [trimStart] removes a whitespace prefix, and all of it. *)
Lemma trimStart_spec s :
  ∃ ws, s = ws ++ JsString.trimStart s
        ∧ forallb JsString.is_whitespace ws = true
        ∧ (∀ c r, JsString.trimStart s = c :: r → JsString.is_whitespace c = false).
Proof.
  induction s as [|c s (ws & Hs & Hws & Hhd)]; simpl.
  - exists []. split_and!; done.
  - destruct (JsString.is_whitespace c) eqn:Hc.
    + exists (c :: ws). simpl. rewrite Hc, Hws, <- Hs. split_and!; done.
    + exists []. split_and!; try done. by intros ? ? [= <- _].
Qed.

(** [trimEnd] removes a whitespace suffix, and all of it. *)
Lemma trimEnd_spec s :
  ∃ ws, s = JsString.trimEnd s ++ ws
        ∧ forallb JsString.is_whitespace ws = true
        ∧ (∀ r c, JsString.trimEnd s = r ++ [c] → JsString.is_whitespace c = false).
Proof.
  induction s as [|c s (ws & Hs & Hws & Hlast)]; simpl.
  - exists []. split_and!; try done. by intros [|??] ?.
  - destruct (JsString.trimEnd s) as [|d r] eqn:Ht.
    + simpl in Hs. subst ws. destruct (JsString.is_whitespace c) eqn:Hc.
      * exists (c :: s). simpl. rewrite Hc, Hws. split_and!; done.
      * exists s. split_and!; try done.
        intros [|? [|??]] ? [=]; by subst.
    + exists ws. split_and!; try done.
      * simpl. by rewrite Hs at 1.
      * intros [|e r'] c' H; [discriminate|].
        injection H as -> H. by apply (Hlast r').
Qed.

(** [trimEnd] keeps what [trimStart] achieved: no leading whitespace. *)
Lemma trimEnd_head s c r :
  JsString.trimEnd s = c :: r → ∃ r', s = c :: r'.
Proof.
  destruct s as [|d s]; simpl; [done|].
  destruct (JsString.trimEnd s); [destruct (JsString.is_whitespace d)|];
    intros [= -> _]; eauto.
Qed.

(** [trim] removes whitespace at both ends and nothing else. *)
Lemma trim_spec s :
  ∃ l r, s = l ++ JsString.trim s ++ r
         ∧ forallb JsString.is_whitespace l = true
         ∧ forallb JsString.is_whitespace r = true
         ∧ (∀ c t, JsString.trim s = c :: t → JsString.is_whitespace c = false)
         ∧ (∀ t c, JsString.trim s = t ++ [c] → JsString.is_whitespace c = false).
Proof.
  unfold JsString.trim.
  destruct (trimStart_spec s) as (l & Hs & Hl & Hhd).
  destruct (trimEnd_spec (JsString.trimStart s)) as (r & Hr & Hws & Hlast).
  exists l, r. split_and!; try done.
  - by rewrite <- Hr.
  - intros c t Ht. destruct (trimEnd_head _ _ _ Ht) as [r' Hr']. eauto.
Qed.

End StringFacts.

(** ** The heap under the steps of a run *)

Section Frame.

Implicit Types w : World.

Lemma wf_create config cwd : wf (create config cwd).
Proof. unfold wf; simpl; lia. Qed.

Lemma hist_part_history w w' :
  hist_part w' = hist_part w → history w' = history w.
Proof. unfold hist_part, history. by intros [= -> -> _]. Qed.

Lemma hist_part_set_flow fid f w : hist_part (set_flow fid f w) = hist_part w.
Proof. done. Qed.

Lemma hist_part_register cref c w : hist_part (register cref c w) = hist_part w.
Proof. unfold register. by destruct (ChildProcess.truthy_pid c). Qed.

Lemma hist_part_unregister c w : hist_part (unregister c w) = hist_part w.
Proof. unfold unregister. by destruct (ChildProcess.truthy_pid c). Qed.

Lemma hist_part_on_child cref g w : hist_part (on_child cref g w) = hist_part w.
Proof. unfold on_child. by destruct (children w !! cref). Qed.

Lemma hist_part_start fid f cwd pid w :
  hist_part (start fid f cwd pid w) = hist_part w.
Proof. unfold start. by rewrite hist_part_set_flow, hist_part_register. Qed.

Lemma hist_part_kill pid w : hist_part (snd (kill pid w)) = hist_part w.
Proof.
  unfold kill. destruct (running w !! pid); simpl; [|done].
  by rewrite <- (hist_part_on_child n (ChildProcess.kill SIGTERM) w).
Qed.

Lemma kill_children pid w :
  children (snd (kill pid w))
  = match running w !! pid with
    | Some cref =>
        match children w !! cref with
        | Some c => <[cref := ChildProcess.kill SIGTERM c]> (children w)
        | None => children w
        end
    | None => children w
    end.
Proof.
  unfold kill, on_child. destruct (running w !! pid); [|done].
  by destruct (children w !! n).
Qed.

Lemma kill_flows pid w : flows (snd (kill pid w)) = flows w.
Proof.
  unfold kill, on_child. destruct (running w !! pid); [|done].
  by destruct (children w !! n).
Qed.

Lemma hist_part_killAll w : hist_part (snd (killAll w)) = hist_part w.
Proof.
  unfold killAll; simpl. generalize ((map_to_list (running w)).*1).
  intros pids; revert w; induction pids as [|pid pids IH]; intros w; simpl.
  - done.
  - by rewrite IH, hist_part_kill.
Qed.

(** Only a completing [exec] and [getHistory] touch arrays or results. *)
Lemma step_frame w e :
  completes w e = false → e ≠ GetHistory →
  hist_part (step w e) = hist_part w.
Proof.
  intros Hc Hg. destruct e; simpl in *; try done.
  - unfold exec_resume. repeat case_match; try done. apply hist_part_start.
  - unfold stream. by rewrite hist_part_start.
  - unfold on_data. repeat case_match; done.
  - unfold on_timeout. repeat case_match; done.
  - unfold on_force_kill. repeat case_match; done.
  - unfold on_close. repeat case_match; try done;
      by rewrite hist_part_set_flow, hist_part_unregister.
  - unfold on_error. repeat case_match; try done;
      by rewrite hist_part_set_flow, hist_part_unregister.
  - apply hist_part_kill.
  - apply hist_part_killAll.
  - apply hist_part_on_child.
Qed.

End Frame.

Section History.

Implicit Types w : World.

Lemma GetHistory_dec (e : Event) : {e = GetHistory} + {e ≠ GetHistory}.
Proof. destruct e; (by left) || (by right). Qed.

Lemma getHistory_contents_eq w : wf w → getHistory_contents w = history_values w.
Proof.
  intros Hwf. unfold getHistory_contents, history_values; simpl.
  by rewrite lookup_app_r, Nat.sub_diag by lia.
Qed.

Lemma getHistory_history w : wf w → history (snd (getHistory w)) = history w.
Proof.
  intros Hwf. unfold history at 1; simpl.
  rewrite lookup_app_l by apply Hwf. done.
Qed.

(** A completing [exec] pushes one reference, to one new object. *)
Lemma on_close_exec w fid f cref c exitCode now :
  wf w → spawned fid w = Some (f, cref, c) → Flow.kind f = Exec →
  let w' := on_close fid exitCode now w in
  history w' = history w ++ [length (results w)]
  ∧ results w' = results w ++ [close_result f c exitCode now]
  ∧ length (arrays w') = length (arrays w)
  ∧ Props.executionHistory (props w') = Props.executionHistory (props w).
Proof.
  intros Hwf Hs Hk. unfold on_close. rewrite Hs, Hk. unfold push_result.
  pose proof (hist_part_unregister c w) as Hu. unfold hist_part in Hu.
  injection Hu as Hh Ha Hr. unfold history. simpl.
  rewrite Hh, Ha, Hr. rewrite list_lookup_insert_eq by apply Hwf.
  rewrite length_insert. done.
Qed.

Lemma wf_step w e : wf w → wf (step w e).
Proof.
  intros Hwf. destruct (completes w e) eqn:Hc.
  - destruct e; try discriminate. simpl in *.
    destruct (spawned fid w) as [[[f cref] c]|] eqn:Hs; [|discriminate].
    destruct (Flow.kind f) eqn:Hk; [|discriminate].
    destruct (on_close_exec w fid f cref c exitCode now Hwf Hs Hk)
      as (_ & _ & Hlen & Hh).
    unfold wf. by rewrite Hlen, Hh.
  - destruct (GetHistory_dec e) as [->|Hg].
    + unfold wf in *. simpl. rewrite length_app. simpl. lia.
    + pose proof (step_frame w e Hc Hg) as Hf. unfold hist_part in Hf.
      injection Hf as Hh Ha _. unfold wf. by rewrite Hh, Ha.
Qed.

Lemma wf_run w es : wf w → wf (run w es).
Proof.
  revert w; induction es as [|e es IH]; intros w Hwf; simpl; [done|].
  apply IH, wf_step, Hwf.
Qed.

Lemma wf_reachable config cwd w : reachable config cwd w → wf w.
Proof. intros [es ->]. apply wf_run, wf_create. Qed.

(** The history grows by one reference when an [exec] completes and is
    untouched by every other step. *)
Lemma step_history w e :
  wf w →
  history (step w e)
  = if completes w e then history w ++ [length (results w)] else history w.
Proof.
  intros Hwf. destruct (completes w e) eqn:Hc.
  - destruct e; try discriminate. simpl in *.
    destruct (spawned fid w) as [[[f cref] c]|] eqn:Hs; [|discriminate].
    destruct (Flow.kind f) eqn:Hk; [|discriminate].
    by destruct (on_close_exec w fid f cref c exitCode now Hwf Hs Hk) as [-> _].
  - destruct (GetHistory_dec e) as [->|Hg].
    + by apply getHistory_history.
    + by apply hist_part_history, step_frame.
Qed.

(** Result objects are only ever added, by a completing [exec]. *)
Lemma step_results w e :
  completes w e = false → results (step w e) = results w.
Proof.
  intros Hc. destruct (GetHistory_dec e) as [->|Hg]; [done|].
  pose proof (step_frame w e Hc Hg) as Hf. unfold hist_part in Hf.
  by injection Hf.
Qed.

Lemma step_history_values w e :
  wf w → completes w e = false →
  history_values (step w e) = history_values w.
Proof.
  intros Hwf Hc. unfold history_values.
  by rewrite step_history, Hc, step_results.
Qed.

Lemma stream_event_not_completes w e :
  stream_event w e = true → completes w e = false.
Proof.
  destruct e; simpl; try done. unfold flow_kind, spawned.
  destruct (flows w !! fid) as [f|]; simpl; [|done].
  destruct (Flow.kind f) eqn:Hk; [done|]. intros _.
  destruct (Flow.child f) as [cref|]; [|done].
  destruct (children w !! cref); [|done]. by rewrite Hk.
Qed.

End History.

(** ** The validator *)

Section Validator.

Implicit Types (w : World) (command : jsstring).

(** The block-list loop returns the first pattern, in list order, that
    occurs in the command. *)
Lemma first_blocked_spec command (blocked : list jsstring) b :
  b ∈ blocked → occurs_in b command →
  ∃ before b' after,
    blocked = before ++ b' :: after
    ∧ occurs_in b' command
    ∧ (∀ x, x ∈ before → ¬ occurs_in x command)
    ∧ first_blocked command blocked = Some b'.
Proof.
  intros Hin Hocc. induction blocked as [|x blocked IH]; [by inversion Hin|].
  simpl. destruct (JsString.includes command x) eqn:Hx.
  - exists [], x, blocked. split_and!; try done.
    + by apply includes_spec.
    + intros y Hy. by inversion Hy.
  - assert (b ∈ blocked) as Hb.
    { inversion Hin; subst; [|done].
      apply includes_spec in Hocc. congruence. }
    destruct (IH Hb) as (before & b' & after & -> & Hb' & Hnone & Hfirst).
    exists (x :: before), b', after. split_and!; try done.
    intros y Hy. inversion Hy; subst; [|by apply Hnone].
    rewrite <- includes_spec. congruence.
Qed.

(** A valid command was checked against the registry: there is room. *)
Lemma validate_valid_room w command :
  ValidationResult.valid (validate w command) = true →
  running_size w < Props.maxConcurrent (props w).
Proof.
  unfold validate. repeat case_match; simpl; try done. intros _. lia.
Qed.

End Validator.

(** C3. A command in which a configured block-list pattern occurs is invalid,
    and the reason names the first pattern of the list that occurs in it; the
    verdict is the same whatever the allow-list holds and however many
    processes are registered. *)
Theorem validate_blocked (w : World) (command b : jsstring)
    (Hin : b ∈ Props.blockedCommands (props w))
    (Hocc : occurs_in b command) :
  ∃ before b' after,
    Props.blockedCommands (props w) = before ++ b' :: after
    ∧ occurs_in b' command
    ∧ (∀ x, x ∈ before → ¬ occurs_in x command)
    ∧ validate w command
      = ValidationResult.mk false
          (JsString.lit "Command contains blocked pattern: " ++ b')
          [JsString.lit "Use safer alternatives to " ++ b']
    ∧ ∀ w', Props.blockedCommands (props w') = Props.blockedCommands (props w) →
            validate w' command = validate w command.
Proof.
  destruct (first_blocked_spec command _ b Hin Hocc)
    as (before & b' & after & Hl & Hb' & Hnone & Hfirst).
  exists before, b', after. split_and!; try done.
  - unfold validate. by rewrite Hfirst.
  - intros w' Hw'. unfold validate. by rewrite Hw', Hfirst.
Qed.

Lemma validate_blocked_witness :
  ∃ before b' after,
    default_blocked = before ++ b' :: after
    ∧ occurs_in b' (JsString.lit "sudo rm -rf /")
    ∧ (∀ x, x ∈ before → ¬ occurs_in x (JsString.lit "sudo rm -rf /"))
    ∧ validate (create ShellExecConfig.empty (JsString.lit "/srv"))
        (JsString.lit "sudo rm -rf /")
      = ValidationResult.mk false
          (JsString.lit "Command contains blocked pattern: " ++ b')
          [JsString.lit "Use safer alternatives to " ++ b']
    ∧ ∀ w', Props.blockedCommands (props w') = default_blocked →
            validate w' (JsString.lit "sudo rm -rf /")
            = validate (create ShellExecConfig.empty (JsString.lit "/srv"))
                (JsString.lit "sudo rm -rf /").
Proof.
  apply (validate_blocked (create ShellExecConfig.empty (JsString.lit "/srv"))
           (JsString.lit "sudo rm -rf /") (JsString.lit "sudo")).
  - vm_compute. apply list_elem_of_further, list_elem_of_here.
  - exists [], (JsString.lit " rm -rf /"). reflexivity.
Defined.

(** ** [exec]: validation failure, completion, spawn failure *)

Section ExecPaths.

Implicit Types (w : World) (f : Flow.t).

(** Up to its [await], [exec] only records the suspended invocation. *)
Lemma exec_call_frame command options now w :
  let w' := exec_call command options now w in
  props w' = props w ∧ arrays w' = arrays w ∧ results w' = results w
  ∧ children w' = children w
  ∧ ∃ f, flows w' = flows w ++ [f]
         ∧ Flow.kind f = Exec ∧ Flow.child f = None
         ∧ Flow.promise f = Waiting
         ∧ Flow.validation f = Some (validate w command).
Proof. simpl. split_and!; try done. eexists. split_and!; done. Qed.

(** Resumed with an invalid verdict, [exec] throws: the promise is rejected
    with the validator's reason and nothing else changes. *)
Lemma exec_resume_invalid w fid f v pid :
  flows w !! fid = Some f → Flow.kind f = Exec → Flow.child f = None →
  Flow.promise f = Waiting → Flow.validation f = Some v →
  ValidationResult.valid v = false →
  exec_resume fid pid w
  = set_flow fid (Flow.with_promise (Rejected (blocked_message v)) f) w.
Proof.
  intros Hf Hk Hc Hp Hv Hvalid. unfold exec_resume.
  by rewrite Hf, Hk, Hc, Hp, Hv, Hvalid.
Qed.

Lemma promise_of_set_flow fid f w :
  (fid < length (flows w))%nat →
  promise_of fid (set_flow fid f w) = Some (Flow.promise f).
Proof.
  intros Hlt. unfold promise_of; simpl.
  by rewrite list_lookup_insert_eq.
Qed.

Lemma unregister_running c w :
  running (unregister c w)
  = match ChildProcess.truthy_pid c with
    | Some p => delete p (running w)
    | None => running w
    end.
Proof. unfold unregister. by destruct (ChildProcess.truthy_pid c). Qed.

Lemma unregister_children c w : children (unregister c w) = children w.
Proof. unfold unregister. by destruct (ChildProcess.truthy_pid c). Qed.

Lemma unregister_flows c w : flows (unregister c w) = flows w.
Proof. unfold unregister. by destruct (ChildProcess.truthy_pid c). Qed.

Lemma spawned_flow fid w f cref c :
  spawned fid w = Some (f, cref, c) →
  flows w !! fid = Some f ∧ Flow.child f = Some cref
  ∧ children w !! cref = Some c.
Proof.
  unfold spawned. intros H. repeat case_match; try done.
  injection H as <- <- <-. done.
Qed.

(** The [error] callback of [exec]: deregister, reject with a message that
    names the command and the cause; no result object, no history entry. *)
Lemma on_error_exec w fid f cref c message :
  spawned fid w = Some (f, cref, c) → Flow.kind f = Exec →
  let w' := on_error fid message w in
  hist_part w' = hist_part w
  ∧ children w' = children w
  ∧ running w'
    = match ChildProcess.truthy_pid c with
      | Some p => delete p (running w)
      | None => running w
      end
  ∧ promise_of fid w'
    = Some (settle (Flow.promise f)
              (Rejected (failed_message (Flow.command f) message))).
Proof.
  intros Hs Hk. destruct (spawned_flow _ _ _ _ _ Hs) as (Hf & _ & _).
  unfold on_error. rewrite Hs, Hk. split_and!.
  - by rewrite hist_part_set_flow, hist_part_unregister.
  - apply unregister_children.
  - apply unregister_running.
  - rewrite promise_of_set_flow; [done|].
    rewrite unregister_flows. by eapply lookup_lt_Some.
Qed.

(** The [close] callback of [exec] settles the promise with the very object
    it pushed, and deregisters. *)
Lemma on_close_exec_promise w fid f cref c exitCode now :
  spawned fid w = Some (f, cref, c) → Flow.kind f = Exec →
  let w' := on_close fid exitCode now w in
  promise_of fid w'
  = Some (settle (Flow.promise f) (Resolved (length (results w))))
  ∧ running w'
    = match ChildProcess.truthy_pid c with
      | Some p => delete p (running w)
      | None => running w
      end.
Proof.
  intros Hs Hk. destruct (spawned_flow _ _ _ _ _ Hs) as (Hf & _ & _).
  unfold on_close. rewrite Hs, Hk. unfold push_result.
  pose proof (hist_part_unregister c w) as Hu. unfold hist_part in Hu.
  injection Hu as _ _ Hr. split.
  - rewrite promise_of_set_flow; simpl.
    + by rewrite Hr.
    + rewrite unregister_flows. by eapply lookup_lt_Some.
  - unfold running; simpl. apply unregister_running.
Qed.

End ExecPaths.

(** What [exec] does to the history, one step at a time.  Let [fid] be an
    invocation of [exec] in a state [w].  Every step adds one history entry
    when it is the [close] callback of a spawned [exec] and none otherwise.
    A call of [exec] touches neither history nor registry before its
    validation is settled; when the verdict is invalid the invocation is
    rejected with the validator's reason and no process, result or registry
    entry appears.  The [close] callback pushes one reference to one new
    result object.  The [error] callback deregisters the process id and
    rejects with a message naming the command and the cause; it adds neither
    a result object nor a history entry. *)
Lemma exec_callbacks_history (w : World) (fid : nat) (f : Flow.t)
    (Hwf : wf w) (Hf : flows w !! fid = Some f) (Hk : Flow.kind f = Exec) :
  (∀ e, history (step w e)
        = if completes w e then history w ++ [length (results w)]
          else history w)
  ∧ (∀ command options now,
       let w' := exec_call command options now w in
       hist_part w' = hist_part w ∧ running w' = running w
       ∧ children w' = children w
       ∧ Flow.validation <$> flows w' !! length (flows w)
         = Some (Some (validate w command)))
  ∧ (∀ v pid,
       Flow.child f = None → Flow.promise f = Waiting →
       Flow.validation f = Some v → ValidationResult.valid v = false →
       let w' := exec_resume fid pid w in
       hist_part w' = hist_part w ∧ running w' = running w
       ∧ children w' = children w
       ∧ promise_of fid w'
         = Some (Rejected
                   (JsString.lit "[shell-exec] Command blocked: "
                      ++ ValidationResult.reason v)))
  ∧ (∀ cref c exitCode now,
       spawned fid w = Some (f, cref, c) →
       let w' := on_close fid exitCode now w in
       history w' = history w ++ [length (results w)]
       ∧ results w' = results w ++ [close_result f c exitCode now]
       ∧ promise_of fid w'
         = Some (match Flow.promise f with
                 | Waiting => Resolved (length (results w))
                 | settled => settled
                 end))
  ∧ (∀ cref c message,
       spawned fid w = Some (f, cref, c) →
       let w' := on_error fid message w in
       history w' = history w ∧ results w' = results w
       ∧ running w'
         = match ChildProcess.truthy_pid c with
           | Some p => delete p (running w)
           | None => running w
           end
       ∧ promise_of fid w'
         = Some (match Flow.promise f with
                 | Waiting =>
                     Rejected
                       (JsString.lit "Command execution failed: "
                          ++ Flow.command f ++ [JsString.newline]
                          ++ JsString.lit "Error: " ++ message)
                 | settled => settled
                 end)).
Proof.
  split_and!.
  - intros e. by apply step_history.
  - intros command options now. simpl. split_and!; try done.
    by rewrite lookup_app_r, Nat.sub_diag by lia.
  - intros v pid Hc Hp Hv Hvalid.
    rewrite (exec_resume_invalid w fid f v pid) by done.
    split_and!; try done.
    apply promise_of_set_flow. by eapply lookup_lt_Some.
  - intros cref c exitCode now Hs.
    destruct (on_close_exec w fid f cref c exitCode now Hwf Hs Hk)
      as (Hh & Hr & _).
    destruct (on_close_exec_promise w fid f cref c exitCode now Hs Hk)
      as (Hp & _).
    split_and!; try done. simpl. rewrite Hp. by destruct (Flow.promise f).
  - intros cref c message Hs.
    destruct (on_error_exec w fid f cref c message Hs Hk)
      as (Hh & _ & Hrun & Hp).
    split_and!; try done.
    + by apply hist_part_history.
    + unfold hist_part in Hh. by injection Hh.
    + simpl. rewrite Hp. by destruct (Flow.promise f).
Qed.

(** C4. A failed spawn leaves an entry in the history.  [exec('ls', { cwd:
    '/nonexistent' })] is accepted and its spawn fails: there is no process
    id and nothing is registered.  Node reports the failure through [error]
    and then closes the child.  The [error] callback rejects the promise
    with the message naming the command and the cause, and the history is
    still empty; the [close] callback that follows is not guarded by how the
    promise was settled: it builds a result object and pushes it, so the
    rejected execution is in the history, as [getHistory] shows, with the
    exit code of the [close] event. *)
Theorem failed_spawn_recorded (cause : jsstring) :
  let w1 := step Sample.failed_spawn (Error 0 cause) in
  let w2 := step w1 (Close 0 (Some (-2)) 3) in
  let entry := ExecResult.mk (-2) [] [] 3 false (JsString.lit "ls") None in
  ValidationResult.valid (validate Sample.shell (JsString.lit "ls")) = true
  ∧ ChildProcess.pid <$> child_of 0 Sample.failed_spawn = Some None
  ∧ running Sample.failed_spawn = ∅
  ∧ promise_of 0 w1
    = Some (Rejected
              (JsString.lit "Command execution failed: ls"
                 ++ [JsString.newline] ++ JsString.lit "Error: " ++ cause))
  ∧ history w1 = [] ∧ results w1 = []
  ∧ completes w1 (Close 0 (Some (-2)) 3) = true
  ∧ promise_of 0 w2 = promise_of 0 w1
  ∧ history w2 = [0%nat]
  ∧ results w2 = [entry]
  ∧ getHistory_contents w2 = [Some entry].
Proof. vm_compute. split_and!; reflexivity. Qed.

(** ** [stream] *)

Section StreamPaths.

Implicit Types w : World.

Lemma register_children cref c w : children (register cref c w) = children w.
Proof. unfold register. by destruct (ChildProcess.truthy_pid c). Qed.

Lemma register_flows cref c w : flows (register cref c w) = flows w.
Proof. unfold register. by destruct (ChildProcess.truthy_pid c). Qed.

Lemma register_running cref c w :
  running (register cref c w)
  = match ChildProcess.truthy_pid c with
    | Some p => <[p := cref]> (running w)
    | None => running w
    end.
Proof. unfold register. by destruct (ChildProcess.truthy_pid c). Qed.

Lemma running_set_flow fid f w : running (set_flow fid f w) = running w.
Proof. done. Qed.

(** Registering adds at most one entry. *)
Lemma register_size cref c w :
  running_size (register cref c w) ≤ running_size w + 1.
Proof.
  unfold running_size. rewrite register_running.
  destruct (ChildProcess.truthy_pid c) as [p|]; [|lia].
  rewrite map_size_insert. destruct (running w !! p); simpl; lia.
Qed.

(** [stream] spawns for every command string: the validator is not
    consulted, a child object is created and, given a process id, registered. *)
Lemma stream_always_spawns command options now pid w :
  let w' := stream command options now pid w in
  children w'
  = children w
      ++ [spawn command
            (or_string (ExecOptions.cwd options) (Props.defaultCwd (props w)))
            (shell_flag options) pid]
  ∧ promise_of (length (flows w)) w' = Some Waiting
  ∧ ∀ p, pid = Some p → p ≠ 0 →
         running w' !! p = Some (length (children w)).
Proof.
  simpl. unfold stream, start. split_and!.
  - simpl. by rewrite register_children.
  - unfold promise_of; simpl. rewrite register_flows; simpl.
    rewrite list_lookup_insert_eq by (rewrite length_app; simpl; lia). done.
  - intros p -> Hp. rewrite running_set_flow.
    rewrite register_running. unfold ChildProcess.truthy_pid; simpl.
    destruct (Z.eqb_spec p 0); [done|]. by rewrite lookup_insert_eq.
Qed.

(** Run right after a positive verdict, the executor stays within the
    limit. *)
Lemma start_after_valid fid f cwd pid command w :
  ValidationResult.valid (validate w command) = true →
  running_size (start fid f cwd pid w) ≤ Props.maxConcurrent (props w).
Proof.
  intros Hv%validate_valid_room. unfold start.
  pose proof (register_size (length (children w))
                (spawn (Flow.command f) cwd (shell_flag (Flow.options f)) pid)
                (add_child
                   (spawn (Flow.command f) cwd (shell_flag (Flow.options f)) pid)
                   w)) as Hr.
  unfold running_size, running in *. simpl in *. lia.
Qed.

End StreamPaths.

(** C6. A call of [stream] and every callback of a [stream] invocation leave
    the history as it was, also as [getHistory] shows it; a step that changes
    the history is the completion of an [exec]. *)
Theorem stream_leaves_history (w : World) (e : Event)
    (Hwf : wf w) (Hs : stream_event w e = true) :
  history (step w e) = history w
  ∧ getHistory_contents (step w e) = getHistory_contents w
  ∧ ∀ e', history (step w e') ≠ history w → completes w e' = true.
Proof.
  pose proof (stream_event_not_completes w e Hs) as Hc. split_and!.
  - by rewrite step_history, Hc.
  - rewrite !getHistory_contents_eq by (try apply wf_step; done).
    by apply step_history_values.
  - intros e' Hne. rewrite step_history in Hne by done.
    by destruct (completes w e').
Qed.

Lemma stream_leaves_history_witness :
  wf Sample.streaming
  ∧ stream_event Sample.streaming (Close 1 (Some 0) 2009) = true
  ∧ history (step Sample.streaming (Close 1 (Some 0) 2009)) = [0%nat]
  ∧ getHistory_contents (step Sample.streaming (Close 1 (Some 0) 2009))
    = getHistory_contents Sample.streaming.
Proof.
  assert (wf Sample.streaming) as Hwf by (vm_compute; lia).
  assert (stream_event Sample.streaming (Close 1 (Some 0) 2009) = true) as Hs
    by reflexivity.
  destruct (stream_leaves_history Sample.streaming (Close 1 (Some 0) 2009) Hwf Hs)
    as (Hh & Hg & _).
  split_and!; [exact Hwf | exact Hs | rewrite Hh; reflexivity | exact Hg].
Defined.

(** C1. [stream] does not validate.  With the default configuration the
    validator rejects [sudo reboot], yet [stream] spawns it: the child object
    exists, its process id is registered and the promise is not rejected. *)
Theorem stream_runs_blocked_command :
  let command := JsString.lit "sudo reboot" in
  let w' := stream command ExecOptions.empty 0 (Some 4242) Sample.shell in
  validate Sample.shell command
  = ValidationResult.mk false
      (JsString.lit "Command contains blocked pattern: sudo")
      [JsString.lit "Use safer alternatives to sudo"]
  ∧ ChildProcess.spawnfile <$> children w' !! 0%nat = Some (JsString.lit "sudo")
  ∧ running w' !! 4242 = Some 0%nat
  ∧ promise_of 0 w' = Some Waiting
  ∧ promise_of 0
      (run Sample.shell
         [ExecCall command ExecOptions.empty 0; ExecResume 0 (Some 4242)])
    = Some (Rejected
              (JsString.lit
                 "[shell-exec] Command blocked: Command contains blocked pattern: sudo")).
Proof. vm_compute. split_and!; done. Qed.

(** ** The registry bound and the watchdog *)

(** C2. The registry can outgrow [maxConcurrent].  With a limit of 1, two
    calls of [stream] leave two registered processes, because [stream] never
    asks the validator; two calls of [exec] made before either resumes from
    its [await] do the same, because both were validated against the empty
    registry. *)
Theorem registry_exceeds_limit :
  let by_stream :=
    run Sample.single
      [StreamCall (JsString.lit "npm test") ExecOptions.empty 0 (Some 4242);
       StreamCall (JsString.lit "npm run build") ExecOptions.empty 1 (Some 4243)] in
  let by_exec :=
    run Sample.single
      [ExecCall (JsString.lit "npm test") ExecOptions.empty 0;
       ExecCall (JsString.lit "npm run build") ExecOptions.empty 0;
       ExecResume 0 (Some 4242); ExecResume 1 (Some 4243)] in
  reachable Sample.single_config Sample.cwd by_stream
  ∧ reachable Sample.single_config Sample.cwd by_exec
  ∧ Props.maxConcurrent (props by_stream) = 1
  ∧ running_size by_stream = 2
  ∧ Props.maxConcurrent (props by_exec) = 1
  ∧ running_size by_exec = 2.
Proof.
  split_and!; try (vm_compute; reflexivity); eexists; reflexivity.
Qed.

(** C5. The second timer never escalates after a delivered SIGTERM.  The
    watchdog of [exec('node server.js', { timeout: 100 })] fires and the
    process survives the SIGTERM; when the second timer runs the process has
    not exited, yet the only signal it ever receives is SIGTERM, because
    [child.killed] is already true.  Moreover the second timer is not
    cancelled by [close]: it is still waiting after the result is final. *)
Theorem force_kill_never_sent :
  let closed :=
    run Sample.shell
      [ExecCall (JsString.lit "node server.js") Sample.timeout_100 0;
       ExecResume 0 (Some 4242); WatchdogFire 0; ProcessExit 0; Close 0 None 150] in
  ChildProcess.exited <$> child_of 0 Sample.stubborn = Some false
  ∧ ChildProcess.signals <$> child_of 0 Sample.stubborn = Some [SIGTERM]
  ∧ Flow.forceTimer <$> flows Sample.stubborn !! 0%nat = Some Fired
  ∧ promise_of 0 Sample.stubborn = Some Waiting
  ∧ promise_of 0 closed = Some (Resolved 0)
  ∧ Flow.forceTimer <$> flows closed !! 0%nat = Some Pending.
Proof. vm_compute. split_and!; reflexivity. Qed.

Section Watchdog.

Implicit Types (w : World) (f : Flow.t).

(** What the timeout callback does: it sets [killed], and the child gets a
    SIGTERM unless its handle is already closed. *)
Lemma on_timeout_effect w fid f cref c :
  spawned fid w = Some (f, cref, c) → Flow.timeoutHandle f = Pending →
  let w' := on_timeout fid w in
  Flow.killed <$> flows w' !! fid = Some true
  ∧ Flow.timeoutHandle <$> flows w' !! fid = Some Fired
  ∧ children w' !! cref = Some (ChildProcess.kill SIGTERM c)
  ∧ (ChildProcess.exited c = false →
     ChildProcess.signals (ChildProcess.kill SIGTERM c)
     = ChildProcess.signals c ++ [SIGTERM]).
Proof.
  intros Hs Ht. destruct (spawned_flow _ _ _ _ _ Hs) as (Hf & _ & Hc).
  pose proof (lookup_lt_Some _ _ _ Hf) as Hlt.
  pose proof (lookup_lt_Some _ _ _ Hc) as Hlt'.
  unfold on_timeout. rewrite Hs, Ht. simpl. split_and!.
  - rewrite list_lookup_insert_eq by done. by destruct (Flow.kind f).
  - rewrite list_lookup_insert_eq by done. by destruct (Flow.kind f).
  - by rewrite list_lookup_insert_eq.
  - intros He. unfold ChildProcess.kill. by rewrite He.
Qed.

Lemma watchdog_ran_set_flow fid f w :
  Forall watchdog_ran (flows w) → watchdog_ran f →
  Forall watchdog_ran (flows (set_flow fid f w)).
Proof. intros Hall Hf. simpl. by apply Forall_insert. Qed.

Lemma watchdog_ran_kill pid w :
  Forall watchdog_ran (flows w) → Forall watchdog_ran (flows (snd (kill pid w))).
Proof.
  unfold kill, on_child. intros H. by repeat case_match.
Qed.

(** The variable [killed] is set by the timeout callback alone. *)
Lemma watchdog_ran_step w e :
  Forall watchdog_ran (flows w) → Forall watchdog_ran (flows (step w e)).
Proof.
  intros Hall.
  assert (∀ fid f, flows w !! fid = Some f → watchdog_ran f) as Hget.
  { intros fid f Hf. by eapply Forall_lookup_1. }
  destruct e; simpl.
  - apply Forall_app. split; [done|]. by repeat constructor.
  - unfold exec_resume. destruct (flows w !! fid) as [f|] eqn:Hf; [|done].
    pose proof (Hget _ _ Hf) as Hok.
    repeat case_match; try done.
    + apply watchdog_ran_set_flow; [done|].
      intros Hk. destruct (Hok Hk) as [_ [? Hc]]. simpl in *. congruence.
    + unfold start. apply Forall_insert.
      * by rewrite register_flows.
      * intros Hk. destruct (Hok Hk) as [_ [? Hc]]. simpl in *. congruence.
  - unfold stream, start. apply Forall_insert.
    + rewrite register_flows. simpl. apply Forall_app. split; [done|].
      by repeat constructor.
    + by intros Hk.
  - unfold on_data. destruct (spawned fid w) as [[[f cref] c]|] eqn:Hs; [|done].
    destruct (spawned_flow _ _ _ _ _ Hs) as (Hf & _ & _).
    pose proof (Hget _ _ Hf) as Hok.
    repeat case_match; try done; by apply watchdog_ran_set_flow.
  - unfold on_timeout. destruct (spawned fid w) as [[[f cref] c]|] eqn:Hs; [|done].
    destruct (spawned_flow _ _ _ _ _ Hs) as (Hf & Hc & _).
    repeat case_match; try done; apply Forall_insert; try done;
      intros _; simpl; rewrite Hc; eauto.
  - unfold on_force_kill.
    destruct (spawned fid w) as [[[f cref] c]|] eqn:Hs; [|done].
    destruct (spawned_flow _ _ _ _ _ Hs) as (Hf & _ & _).
    pose proof (Hget _ _ Hf) as Hok.
    repeat case_match; try done; apply Forall_insert; try done;
      intros Hk; destruct (Hok Hk) as [Ht _]; simpl in *; congruence.
  - unfold on_close. destruct (spawned fid w) as [[[f cref] c]|] eqn:Hs; [|done].
    destruct (spawned_flow _ _ _ _ _ Hs) as (Hf & _ & _).
    pose proof (Hget _ _ Hf) as Hok.
    assert (∀ g, Flow.killed g = Flow.killed f →
                 Flow.timeoutHandle g = clearTimeout (Flow.timeoutHandle f) →
                 Flow.child g = Flow.child f → watchdog_ran g) as Hg.
    { intros g Hk' Ht' Hc' Hk. rewrite Hk' in Hk.
      destruct (Hok Hk) as [Ht Hc]. rewrite Ht', Hc', Ht. done. }
    unfold push_result.
    repeat case_match; simpl; (apply Forall_insert;
      [rewrite ?unregister_flows; done | by apply Hg]).
  - unfold on_error. destruct (spawned fid w) as [[[f cref] c]|] eqn:Hs; [|done].
    destruct (spawned_flow _ _ _ _ _ Hs) as (Hf & _ & _).
    pose proof (Hget _ _ Hf) as Hok.
    apply Forall_insert; rewrite ?unregister_flows; try done.
    intros Hk; destruct (Hok Hk) as [Ht Hc]; simpl in *. rewrite Ht; done.
  - by apply watchdog_ran_kill.
  - unfold killAll; simpl. generalize ((map_to_list (running w)).*1).
    intros pids. revert w Hall Hget.
    induction pids as [|p pids IH]; intros w Hall Hget; simpl; [done|].
    apply IH.
    + by apply watchdog_ran_kill.
    + intros fid f Hf. eapply Forall_lookup_1; [|exact Hf].
      by apply watchdog_ran_kill.
  - done.
  - unfold process_exit, on_child. by case_match.
Qed.

Lemma watchdog_ran_run es w :
  Forall watchdog_ran (flows w) → Forall watchdog_ran (flows (run w es)).
Proof.
  revert w; induction es as [|e es IH]; intros w Hw; simpl; [done|].
  apply IH. by apply watchdog_ran_step.
Qed.

(** In every state of a unit, a set [killed] variable means that the
    timeout callback ran; the [killed] field of a result is that variable. *)
Lemma killed_means_watchdog_ran config cwd w fid f :
  reachable config cwd w → flows w !! fid = Some f →
  Flow.killed f = true → Flow.timeoutHandle f = Fired.
Proof.
  intros [es ->] Hf Hk.
  assert (Forall watchdog_ran (flows (run (create config cwd) es))) as Hall
    by (apply watchdog_ran_run; constructor).
  by destruct (Forall_lookup_1 _ _ _ _ Hall Hf Hk).
Qed.

(** The same for results: a result with [killed = true] comes from an
    invocation whose timeout callback, which calls [child.kill('SIGTERM')],
    ran before the [close] callback built the result. *)
Lemma killed_result_watchdog_ran config cwd w fid f cref c exitCode now :
  reachable config cwd w → spawned fid w = Some (f, cref, c) →
  ExecResult.killed (close_result f c exitCode now) = true →
  Flow.timeoutHandle f = Fired.
Proof.
  intros Hr Hs Hk. destruct (spawned_flow _ _ _ _ _ Hs) as (Hf & _ & _).
  by eapply killed_means_watchdog_ran.
Qed.

End Watchdog.

(** ** Effective options and captured output *)

Section Output.

Implicit Types (w : World) (f : Flow.t).

Lemma trim_trimmed_of s : trimmed_of s (JsString.trim s).
Proof. apply trim_spec. Qed.

(** The state of an accepted [exec] right after its process is spawned. *)
Lemma exec_spawn_state w command options now pid :
  ValidationResult.valid (validate w command) = true →
  let fid := length (flows w) in
  let w' := exec_resume fid pid (exec_call command options now w) in
  ∃ f,
    spawned fid w'
    = Some (f, length (children w),
            spawn command
              (or_string (ExecOptions.cwd options) (Props.defaultCwd (props w)))
              (shell_flag options) pid)
    ∧ Flow.kind f = Exec ∧ Flow.command f = command
    ∧ Flow.stdout f = [] ∧ Flow.stderr f = [] ∧ Flow.killed f = false
    ∧ Flow.timeoutHandle f = Pending
    ∧ Flow.timeout f
      = or_number (ExecOptions.timeout options) (Props.defaultTimeout (props w))
    ∧ hist_part w' = hist_part w.
Proof.
  intros Hvalid. simpl. unfold exec_resume, exec_call. simpl.
  rewrite lookup_app_r, Nat.sub_diag by lia. simpl. rewrite Hvalid. simpl.
  eexists. split_and!; cycle 1.
  9: { unfold spawned, start. simpl. rewrite register_flows, register_children.
       simpl. rewrite list_lookup_insert_eq by (rewrite length_app; simpl; lia).
       simpl. rewrite lookup_app_r, Nat.sub_diag by lia. simpl. reflexivity. }
  all: try done.
  unfold start. by rewrite hist_part_set_flow, hist_part_register.
Qed.

Lemma run_cons w e es : run w (e :: es) = run (step w e) es.
Proof. done. Qed.

Lemma run_app w es es' : run w (es ++ es') = run (run w es) es'.
Proof. apply foldl_app. Qed.

Lemma spawned_set_flow fid f f' cref c w :
  spawned fid w = Some (f, cref, c) → Flow.child f' = Some cref →
  spawned fid (set_flow fid f' w) = Some (f', cref, c).
Proof.
  intros Hs Hc. destruct (spawned_flow _ _ _ _ _ Hs) as (Hf & _ & Hch).
  unfold spawned. simpl.
  rewrite list_lookup_insert_eq by (by eapply lookup_lt_Some).
  by rewrite Hc, Hch.
Qed.

(** [data] events only grow the two buffers of their [exec] invocation, each
    by its own chunks in arrival order. *)
Lemma feed_spec chunks : ∀ w fid f cref c,
  spawned fid w = Some (f, cref, c) → Flow.kind f = Exec →
  ∃ f',
    spawned fid (run w (feed fid chunks)) = Some (f', cref, c)
    ∧ Flow.kind f' = Exec
    ∧ Flow.stdout f' = Flow.stdout f ++ channel_text Stdout chunks
    ∧ Flow.stderr f' = Flow.stderr f ++ channel_text Stderr chunks
    ∧ Flow.command f' = Flow.command f ∧ Flow.killed f' = Flow.killed f
    ∧ Flow.startTime f' = Flow.startTime f
    ∧ hist_part (run w (feed fid chunks)) = hist_part w.
Proof.
  induction chunks as [|[ch data] chunks IH]; intros w fid f cref c Hs Hk.
  - exists f. simpl. rewrite !app_nil_r. split_and!; done.
  - destruct (spawned_flow _ _ _ _ _ Hs) as (_ & Hc & _).
    change (feed fid ((ch, data) :: chunks))
      with (Data fid ch data :: feed fid chunks).
    rewrite run_cons.
    change (step w (Data fid ch data)) with (on_data fid ch data w).
    unfold on_data. rewrite Hs, Hk. destruct ch.
    + edestruct (IH (set_flow fid (Flow.with_stdout (Flow.stdout f ++ data) f) w))
        as (f' & Hs' & ? & Ho & He & ? & ? & ? & Hh).
      { by apply (spawned_set_flow fid f). }
      { done. }
      exists f'. rewrite Hs', Ho, He, Hh. simpl. rewrite <- app_assoc.
      split_and!; done.
    + edestruct (IH (set_flow fid (Flow.with_stderr (Flow.stderr f ++ data) f) w))
        as (f' & Hs' & ? & Ho & He & ? & ? & ? & Hh).
      { by apply (spawned_set_flow fid f). }
      { done. }
      exists f'. rewrite Hs', Ho, He, Hh. simpl. rewrite <- app_assoc.
      split_and!; done.
Qed.

(** *** Any run between the spawn and the [close] *)

Lemma chunks_for_app fid es es' :
  chunks_for fid (es ++ es') = chunks_for fid es ++ chunks_for fid es'.
Proof.
  induction es as [|e es IH]; [done|].
  destruct e; simpl; try done. destruct (Nat.eqb fid0 fid); simpl; by rewrite IH.
Qed.

Lemma chunks_for_feed fid chunks : chunks_for fid (feed fid chunks) = chunks.
Proof.
  induction chunks as [|[ch data] chunks IH]; simpl; [done|].
  by rewrite Nat.eqb_refl, IH.
Qed.

Lemma channel_text_app ch chunks chunks' :
  channel_text ch (chunks ++ chunks')
  = channel_text ch chunks ++ channel_text ch chunks'.
Proof.
  induction chunks as [|[ch' data] chunks IH]; simpl; [done|].
  destruct (Channel_eqb ch' ch); by rewrite IH, ?app_assoc.
Qed.

Lemma kill_children_length pid w :
  length (children (snd (kill pid w))) = length (children w).
Proof. rewrite kill_children. repeat case_match; by rewrite ?length_insert. Qed.

Lemma spawned_capturing fid out err w :
  capturing fid out err w →
  ∃ f cref c,
    spawned fid w = Some (f, cref, c) ∧ Flow.kind f = Exec
    ∧ Flow.stdout f = out ∧ Flow.stderr f = err.
Proof.
  intros (f & cref & Hf & Hk & Hc & Hlt & Ho & He).
  destruct (lookup_lt_is_Some_2 _ _ Hlt) as [c Hch].
  exists f, cref, c. unfold spawned. by rewrite Hf, Hc, Hch.
Qed.

(** [capturing] only looks at the invocation itself and at how many child
    objects there are. *)
Lemma capturing_keep fid out err w w' :
  flows w' !! fid = flows w !! fid →
  (length (children w) ≤ length (children w'))%nat →
  capturing fid out err w → capturing fid out err w'.
Proof.
  intros Hfl Hlen (f & cref & Hf & Hk & Hc & Hlt & Ho & He).
  exists f, cref. rewrite Hfl. split_and!; try done. lia.
Qed.

Lemma capturing_set_flow fid out err out' err' w w' f f' :
  capturing fid out err w → flows w !! fid = Some f →
  flows w' = flows w → (length (children w) ≤ length (children w'))%nat →
  Flow.kind f' = Flow.kind f → Flow.child f' = Flow.child f →
  Flow.stdout f' = out' → Flow.stderr f' = err' →
  capturing fid out' err' (set_flow fid f' w').
Proof.
  intros (f0 & cref & Hf0 & Hk & Hc & Hlt & Ho & He) Hf Hfl Hlen Hk' Hc' Ho' He'.
  assert (f0 = f) as -> by congruence.
  exists f', cref. simpl. rewrite Hfl.
  rewrite list_lookup_insert_eq by (by eapply lookup_lt_Some).
  split_and!; try congruence. lia.
Qed.

Lemma capturing_kill fid out err pid w :
  capturing fid out err w → capturing fid out err (snd (kill pid w)).
Proof.
  apply capturing_keep; [by rewrite kill_flows | by rewrite kill_children_length].
Qed.

(** While an [exec] is capturing, a step changes its buffers only when it is
    a [data] event of that invocation, which appends its chunk to the buffer
    of its channel; whatever else happens to the unit, the buffers stay. *)
Lemma capturing_step fid out err w e :
  capturing fid out err w →
  capturing fid (out ++ channel_text Stdout (chunks_for fid [e]))
    (err ++ channel_text Stderr (chunks_for fid [e])) (step w e).
Proof.
  intros Hcap.
  destruct (spawned_capturing _ _ _ _ Hcap) as (f & cref & c & Hs & Hk & Ho & He).
  destruct (spawned_flow _ _ _ _ _ Hs) as (Hf & Hc & Hch).
  pose proof (lookup_lt_Some _ _ _ Hf) as Hlt.
  assert (∀ fid' g w',
            fid' ≠ fid → flows w' = flows w →
            (length (children w) ≤ length (children w'))%nat →
            capturing fid out err (set_flow fid' g w')) as Hother.
  { intros fid' g w' Hne Hfl Hlen. apply (capturing_keep fid out err w); [|done|done].
    simpl. rewrite Hfl. by rewrite list_lookup_insert_ne. }
  destruct e; simpl step.
  - (* ExecCall *)
    simpl. rewrite !app_nil_r. apply (capturing_keep fid out err w); [|done|done].
    simpl. by rewrite lookup_app_l.
  - (* ExecResume *)
    simpl. rewrite !app_nil_r. unfold exec_resume.
    destruct (flows w !! fid0) as [f0|] eqn:Hf0; [|done].
    destruct (Flow.kind f0); [|done].
    destruct (Flow.child f0) eqn:Hc0; [done|].
    destruct (Flow.promise f0); try done.
    destruct (Flow.validation f0) as [v|]; [|done].
    assert (fid0 ≠ fid) as Hne by (intros ->; congruence).
    destruct (negb (ValidationResult.valid v)).
    + by apply Hother.
    + unfold start. apply Hother; [done| |].
      * by rewrite register_flows.
      * rewrite register_children. simpl. rewrite length_app. lia.
  - (* StreamCall *)
    simpl. rewrite !app_nil_r. unfold stream, start.
    apply (capturing_keep fid out err w).
    + simpl. rewrite register_flows. simpl.
      rewrite list_lookup_insert_ne by lia. by rewrite lookup_app_l.
    + simpl. rewrite register_children. simpl. rewrite length_app. lia.
    + done.
  - (* Data *)
    destruct (decide (fid0 = fid)) as [->|Hne].
    + simpl. rewrite Nat.eqb_refl. unfold on_data. rewrite Hs, Hk.
      destruct chan; simpl; rewrite !app_nil_r;
        eapply (capturing_set_flow fid out err); try done; simpl; congruence.
    + simpl. destruct (Nat.eqb_spec fid0 fid) as [|_]; [done|]. simpl.
      rewrite !app_nil_r. unfold on_data.
      repeat case_match; try done; by apply Hother.
  - (* WatchdogFire *)
    simpl. rewrite !app_nil_r. unfold on_timeout.
    destruct (decide (fid0 = fid)) as [->|Hne].
    + rewrite Hs. destruct (Flow.timeoutHandle f); try done.
      eapply (capturing_set_flow fid out err); try done; simpl;
        rewrite ?length_insert; try done; by rewrite Hk.
    + repeat case_match; try done; apply Hother; try done; simpl;
        by rewrite length_insert.
  - (* ForceKillFire *)
    simpl. rewrite !app_nil_r. unfold on_force_kill.
    destruct (decide (fid0 = fid)) as [->|Hne].
    + rewrite Hs. destruct (Flow.forceTimer f); try done.
      eapply (capturing_set_flow fid out err); try done;
        destruct (negb (ChildProcess.killed c)); simpl;
        rewrite ?length_insert; done.
    + repeat case_match; try done; apply Hother; try done; simpl;
        by rewrite ?length_insert.
  - (* Close *)
    simpl. rewrite !app_nil_r. unfold on_close, push_result.
    destruct (decide (fid0 = fid)) as [->|Hne].
    + rewrite Hs, Hk.
      eapply (capturing_set_flow fid out err); try done; simpl;
        rewrite ?unregister_flows, ?unregister_children; done.
    + repeat case_match; try done; apply Hother; try done; simpl;
        by rewrite ?unregister_flows, ?unregister_children.
  - (* Error *)
    simpl. rewrite !app_nil_r. unfold on_error.
    destruct (decide (fid0 = fid)) as [->|Hne].
    + rewrite Hs.
      eapply (capturing_set_flow fid out err); try done; simpl;
        rewrite ?unregister_flows, ?unregister_children; done.
    + repeat case_match; try done; apply Hother; try done; simpl;
        by rewrite ?unregister_flows, ?unregister_children.
  - (* Kill *)
    simpl. rewrite !app_nil_r. by apply capturing_kill.
  - (* KillAll *)
    simpl. rewrite !app_nil_r. unfold killAll. simpl.
    generalize ((map_to_list (running w)).*1). intros pids.
    clear -Hcap. revert w Hcap.
    induction pids as [|p pids IH]; intros w Hcap; simpl; [done|].
    by apply IH, capturing_kill.
  - (* GetHistory *)
    simpl. rewrite !app_nil_r. by apply (capturing_keep fid out err w).
  - (* ProcessExit *)
    simpl. rewrite !app_nil_r. apply (capturing_keep fid out err w); [| |done].
    + unfold process_exit, on_child. by case_match.
    + unfold process_exit, on_child. case_match; simpl; by rewrite ?length_insert.
Qed.

Lemma capturing_run es : ∀ fid out err w,
  capturing fid out err w →
  capturing fid (out ++ channel_text Stdout (chunks_for fid es))
    (err ++ channel_text Stderr (chunks_for fid es)) (run w es).
Proof.
  induction es as [|e es IH]; intros fid out err w Hcap.
  - simpl. by rewrite !app_nil_r.
  - rewrite run_cons. change (e :: es) with ([e] ++ es).
    rewrite chunks_for_app, !channel_text_app, !app_assoc.
    by apply IH, capturing_step.
Qed.

(** While an [exec] waits for its validation, no step other than its own
    resumption touches it. *)
Lemma suspended_step fid f w e :
  flows w !! fid = Some f → Flow.child f = None →
  (∀ pid, e ≠ ExecResume fid pid) →
  flows (step w e) !! fid = Some f.
Proof.
  intros Hf Hc Hne.
  pose proof (lookup_lt_Some _ _ _ Hf) as Hlt.
  assert (spawned fid w = None) as Hs by (unfold spawned; by rewrite Hf, Hc).
  assert (∀ fid' g w',
            fid' ≠ fid → flows w' = flows w →
            flows (set_flow fid' g w') !! fid = Some f) as Hother.
  { intros fid' g w' Hn Hfl. simpl. rewrite Hfl.
    by rewrite list_lookup_insert_ne. }
  destruct e; simpl step.
  - simpl. by rewrite lookup_app_l.
  - assert (fid0 ≠ fid) as Hn by (intros ->; by apply (Hne pid)).
    unfold exec_resume. repeat case_match; try done.
    + by apply Hother.
    + unfold start. apply Hother; [done|]. by rewrite register_flows.
  - unfold stream, start. simpl. rewrite register_flows. simpl.
    rewrite list_lookup_insert_ne by lia. by rewrite lookup_app_l.
  - unfold on_data. destruct (decide (fid0 = fid)) as [->|Hn].
    + by rewrite Hs.
    + repeat case_match; try done; by apply Hother.
  - unfold on_timeout. destruct (decide (fid0 = fid)) as [->|Hn].
    + by rewrite Hs.
    + repeat case_match; try done; by apply Hother.
  - unfold on_force_kill. destruct (decide (fid0 = fid)) as [->|Hn].
    + by rewrite Hs.
    + repeat case_match; try done; by apply Hother.
  - unfold on_close, push_result. destruct (decide (fid0 = fid)) as [->|Hn].
    + by rewrite Hs.
    + repeat case_match; try done; apply Hother; try done; simpl;
        by rewrite ?unregister_flows.
  - unfold on_error. destruct (decide (fid0 = fid)) as [->|Hn].
    + by rewrite Hs.
    + repeat case_match; try done; apply Hother; try done; simpl;
        by rewrite ?unregister_flows.
  - by rewrite kill_flows.
  - unfold killAll. simpl. generalize ((map_to_list (running w)).*1).
    intros pids. clear -Hf. revert w Hf.
    induction pids as [|p pids IH]; intros w Hf; simpl; [done|].
    apply IH. by rewrite kill_flows.
  - done.
  - unfold process_exit, on_child. by case_match.
Qed.

Lemma suspended_run es : ∀ fid f w,
  flows w !! fid = Some f → Flow.child f = None →
  (∀ pid, ExecResume fid pid ∉ es) →
  flows (run w es) !! fid = Some f.
Proof.
  induction es as [|e es IH]; intros fid f w Hf Hc Hne; [done|].
  rewrite run_cons. apply IH; [|done|].
  - apply suspended_step; [done|done|].
    intros pid ->. apply (Hne pid). apply list_elem_of_here.
  - intros pid Hin. apply (Hne pid). by apply list_elem_of_further.
Qed.

(** An accepted [exec] that is resumed spawns and starts capturing with two
    empty buffers, however long it had to wait. *)
Lemma exec_resume_capturing w w1 command options now pid :
  ValidationResult.valid (validate w command) = true →
  flows w1 !! length (flows w)
  = (exec_call command options now w).(flows) !! length (flows w) →
  capturing (length (flows w)) [] [] (exec_resume (length (flows w)) pid w1).
Proof.
  intros Hvalid Hf. simpl in Hf.
  rewrite lookup_app_r, Nat.sub_diag in Hf by lia. simpl in Hf.
  pose proof (lookup_lt_Some _ _ _ Hf) as Hlt.
  unfold exec_resume. rewrite Hf. simpl. rewrite Hvalid. simpl.
  unfold start. eexists _, (length (children w1)). simpl.
  rewrite register_flows, register_children. simpl.
  rewrite list_lookup_insert_eq by done.
  split_and!; try done. rewrite length_app. simpl. lia.
Qed.

(** The [close] callback does not look at how the promise was settled.  For
    every accepted [exec], when the [error] callback has rejected the promise
    and Node then closes the child, the promise stays rejected and a result
    is pushed all the same. *)
Lemma close_after_error_pushes w command options now pid cause exitCode closed :
  wf w → ValidationResult.valid (validate w command) = true →
  let fid := length (flows w) in
  let w1 := exec_resume fid pid (exec_call command options now w) in
  let w2 := on_error fid cause w1 in
  let w3 := on_close fid exitCode closed w2 in
  promise_of fid w2
  = Some (Rejected
            (JsString.lit "Command execution failed: " ++ command
               ++ [JsString.newline] ++ JsString.lit "Error: " ++ cause))
  ∧ history w2 = history w
  ∧ promise_of fid w3 = promise_of fid w2
  ∧ history w3 = history w ++ [length (results w)].
Proof.
  intros Hwf Hvalid fid w1 w2 w3.
  destruct (exec_spawn_state w command options now pid Hvalid)
    as (f & Hs & Hk & Hcmd & _ & _ & _ & _ & _ & Hh).
  fold fid w1 in Hs, Hh.
  assert (Flow.promise f = Waiting) as Hp.
  { destruct (spawned_flow _ _ _ _ _ Hs) as (Hf & _ & _).
    unfold w1, exec_resume, exec_call in Hf. simpl in Hf.
    rewrite lookup_app_r, Nat.sub_diag in Hf by (unfold fid; lia).
    simpl in Hf. rewrite Hvalid in Hf. simpl in Hf. unfold start in Hf.
    simpl in Hf. rewrite register_flows in Hf. simpl in Hf.
    rewrite list_lookup_insert_eq in Hf
      by (rewrite length_app; simpl; unfold fid; lia).
    by injection Hf as <-. }
  assert (wf w1) as Hwf1.
  { apply (wf_step _ (ExecResume fid pid)).
    by apply (wf_step _ (ExecCall command options now)). }
  destruct (on_error_exec w1 fid f _ _ cause Hs Hk) as (Hh2 & _ & _ & Hp2).
  fold w2 in Hh2, Hp2. rewrite Hp, Hcmd in Hp2. simpl in Hp2.
  assert (wf w2) as Hwf2 by apply (wf_step _ (Error fid cause)), Hwf1.
  destruct (spawned_flow _ _ _ _ _ Hs) as (Hf & Hc & Hch).
  assert (∃ f2, spawned fid w2 = Some (f2, length (children w), spawn command
              (or_string (ExecOptions.cwd options) (Props.defaultCwd (props w)))
              (shell_flag options) pid)
                ∧ Flow.kind f2 = Exec
                ∧ Flow.promise f2 = Rejected
            (JsString.lit "Command execution failed: " ++ command
               ++ [JsString.newline] ++ JsString.lit "Error: " ++ cause))
    as (f2 & Hs2 & Hk2 & Hpr2).
  { unfold w2, on_error. rewrite Hs, Hk, Hp, Hcmd. eexists. split_and!.
    - unfold spawned. simpl. rewrite unregister_flows, unregister_children.
      rewrite list_lookup_insert_eq by (by eapply lookup_lt_Some).
      simpl. rewrite Hc, Hch. reflexivity.
    - done.
    - done. }
  destruct (on_close_exec w2 fid f2 _ _ exitCode closed Hwf2 Hs2 Hk2)
    as (Hhist & _).
  destruct (on_close_exec_promise w2 fid f2 _ _ exitCode closed Hs2 Hk2)
    as (Hp3 & _).
  fold w3 in Hhist, Hp3.
  assert (hist_part w2 = hist_part w) as Hhw by (by rewrite Hh2, Hh).
  pose proof (hist_part_history _ _ Hhw) as Hhis.
  unfold hist_part in Hhw. injection Hhw as _ _ Hres.
  split_and!.
  - exact Hp2.
  - exact Hhis.
  - rewrite Hp3, Hpr2, Hp2. reflexivity.
  - by rewrite Hhist, Hhis, Hres.
Qed.

End Output.

(** C7 (amended). For an accepted [exec], the delay of the watchdog is the
    request's timeout when one is supplied and is not 0, and the configured
    default otherwise; the working directory of the spawned process is the
    request's [cwd] when one is supplied and is not the empty string, and the
    configured default otherwise. *)
Theorem exec_effective_options (w : World) (command : jsstring)
    (options : ExecOptions.t) (now : Z) (pid : option Z)
    (Hvalid : ValidationResult.valid (validate w command) = true) :
  let fid := length (flows w) in
  let w' := exec_resume fid pid (exec_call command options now w) in
  (∀ t, ExecOptions.timeout options = Some t → t ≠ 0 →
        Flow.timeout <$> flows w' !! fid = Some t)
  ∧ (ExecOptions.timeout options = None ∨ ExecOptions.timeout options = Some 0 →
     Flow.timeout <$> flows w' !! fid = Some (Props.defaultTimeout (props w)))
  ∧ (∀ d, ExecOptions.cwd options = Some d → d ≠ [] →
          ChildProcess.cwd <$> child_of fid w' = Some d)
  ∧ (ExecOptions.cwd options = None ∨ ExecOptions.cwd options = Some [] →
     ChildProcess.cwd <$> child_of fid w' = Some (Props.defaultCwd (props w))).
Proof.
  intros fid w'.
  destruct (exec_spawn_state w command options now pid Hvalid)
    as (f & Hs & _ & _ & _ & _ & _ & _ & Ht & _).
  fold fid in Hs. fold w' in Hs.
  destruct (spawned_flow _ _ _ _ _ Hs) as (Hf & _ & _).
  unfold child_of. rewrite Hs, Hf. simpl. rewrite Ht. split_and!.
  - intros t -> Hne. simpl. by destruct (Z.eqb_spec t 0).
  - by intros [-> | ->].
  - intros d -> Hne. by destruct d.
  - by intros [-> | ->].
Qed.

Lemma exec_effective_options_witness :
  ValidationResult.valid (validate Sample.shell (JsString.lit "echo hi")) = true
  ∧ Flow.timeout
      <$> flows (exec_resume 0 (Some 4242)
                   (exec_call (JsString.lit "echo hi") Sample.explicit_options 0
                      Sample.shell)) !! 0%nat
    = Some 250
  ∧ ChildProcess.cwd
      <$> child_of 0 (exec_resume 0 (Some 4242)
                        (exec_call (JsString.lit "echo hi") Sample.explicit_options 0
                           Sample.shell))
    = Some (JsString.lit "/tmp").
Proof.
  assert (ValidationResult.valid (validate Sample.shell (JsString.lit "echo hi"))
          = true) as Hvalid by reflexivity.
  destruct (exec_effective_options Sample.shell (JsString.lit "echo hi")
              Sample.explicit_options 0 (Some 4242) Hvalid)
    as (Ht & _ & Hc & _).
  split_and!; [exact Hvalid | |].
  - apply (Ht 250); [reflexivity | lia].
  - apply (Hc (JsString.lit "/tmp")); [reflexivity | discriminate].
Defined.

(** C7, as stated, fails for a supplied timeout of 0 and a supplied empty
    [cwd]: the configured defaults are used instead. *)
Lemma supplied_falsy_options_ignored :
  let w' :=
    exec_resume 0 (Some 4242)
      (exec_call (JsString.lit "echo hi") Sample.falsy_options 0 Sample.shell) in
  ExecOptions.timeout Sample.falsy_options = Some 0
  ∧ Flow.timeout <$> flows w' !! 0%nat = Some 30000
  ∧ ExecOptions.timeout (execOptions Sample.shell Sample.falsy_options) ≠ Some 0
  ∧ ExecOptions.cwd Sample.falsy_options = Some []
  ∧ ChildProcess.cwd <$> child_of 0 w' = Some Sample.cwd
  ∧ Sample.cwd ≠ [].
Proof. vm_compute. split_and!; done. Qed.

(** The common case, taken alone: an [exec] that nothing interrupts, from the
    call to the [close] of its process. *)
Lemma exec_output_uninterrupted (w : World) (command : jsstring)
    (options : ExecOptions.t) (now : Z) (pid : option Z)
    (chunks : list (Channel * jsstring)) (exitCode : option Z) (closed : Z)
    (Hwf : wf w)
    (Hvalid : ValidationResult.valid (validate w command) = true) :
  let fid := length (flows w) in
  let w' :=
    run w ([ExecCall command options now; ExecResume fid pid]
             ++ feed fid chunks ++ [Close fid exitCode closed]) in
  ∃ r,
    results w' = results w ++ [r]
    ∧ history w' = history w ++ [length (results w)]
    ∧ ExecResult.stdout r = JsString.trim (channel_text Stdout chunks)
    ∧ ExecResult.stderr r = JsString.trim (channel_text Stderr chunks).
Proof.
  intros fid w'.
  destruct (exec_spawn_state w command options now pid Hvalid)
    as (f & Hs & Hk & _ & Ho & He & _ & _ & _ & Hh).
  fold fid in Hs, Hh.
  destruct (feed_spec chunks _ fid f _ _ Hs Hk)
    as (f' & Hs' & Hk' & Ho' & He' & _ & _ & _ & Hh').
  rewrite Ho in Ho'. rewrite He in He'. simpl in Ho', He'.
  set (w2 := exec_resume fid pid (exec_call command options now w)) in *.
  set (w3 := run w2 (feed fid chunks)) in *.
  assert (w' = on_close fid exitCode closed w3) as ->.
  { unfold w'. simpl. rewrite run_app. reflexivity. }
  assert (wf w3) as Hwf3.
  { unfold w3, w2. apply wf_run. apply (wf_step _ (ExecResume fid pid)).
    apply (wf_step _ (ExecCall command options now)). exact Hwf. }
  destruct (on_close_exec w3 fid f' _ _ exitCode closed Hwf3 Hs' Hk')
    as (Hhist & Hres & _).
  rewrite Hh in Hh'. unfold hist_part in Hh'. injection Hh' as Hh1 Hh2 Hh3.
  eexists. split_and!.
  - rewrite Hres, Hh3. reflexivity.
  - rewrite Hhist, Hh3. unfold history. by rewrite Hh1, Hh2.
  - simpl. by rewrite Ho'.
  - simpl. by rewrite He'.
Qed.

(** C8 (amended). Every completed [exec] records its output trimmed at both
    ends.  Take any accepted [exec]: the call, whatever runs while it awaits
    its validation ([before]), its resumption, which spawns the process,
    whatever runs until the process closes ([after]: chunks of this and of
    other invocations, the watchdog, [kill], other calls and callbacks), and
    its [close].  That [close] completes the execution and adds one result
    object to the heap and to the history; its [stdout] is the concatenation
    of the chunks that [after] delivered to this invocation on standard
    output, with the whitespace at both ends removed, and likewise for
    [stderr]. *)
Theorem exec_output_trimmed (w : World) (command : jsstring)
    (options : ExecOptions.t) (now : Z) (pid : option Z)
    (before after : list Event) (exitCode : option Z) (closed : Z)
    (Hwf : wf w)
    (Hvalid : ValidationResult.valid (validate w command) = true)
    (Hbefore : ∀ p, ExecResume (length (flows w)) p ∉ before) :
  let fid := length (flows w) in
  let chunks := chunks_for fid after in
  let w1 :=
    run w (ExecCall command options now :: before ++ [ExecResume fid pid]) in
  let w2 := run w1 after in
  let w' := step w2 (Close fid exitCode closed) in
  completes w2 (Close fid exitCode closed) = true
  ∧ ∃ r,
      results w' = results w2 ++ [r]
      ∧ history w' = history w2 ++ [length (results w2)]
      ∧ ExecResult.stdout r = JsString.trim (channel_text Stdout chunks)
      ∧ ExecResult.stderr r = JsString.trim (channel_text Stderr chunks)
      ∧ trimmed_of (channel_text Stdout chunks) (ExecResult.stdout r)
      ∧ trimmed_of (channel_text Stderr chunks) (ExecResult.stderr r).
Proof.
  intros fid chunks w1 w2 w'.
  set (wc := exec_call command options now w).
  assert (w1 = exec_resume fid pid (run wc before)) as Hw1.
  { unfold w1. rewrite run_cons, run_app. reflexivity. }
  assert (flows (run wc before) !! fid = flows wc !! fid) as Hsus.
  { unfold wc at 2. simpl. rewrite lookup_app_r, Nat.sub_diag by (unfold fid; lia).
    simpl. apply suspended_run; [|done|exact Hbefore].
    unfold wc. simpl. by rewrite lookup_app_r, Nat.sub_diag by (unfold fid; lia). }
  pose proof (exec_resume_capturing w (run wc before) command options now pid
                Hvalid Hsus) as Hcap.
  fold fid in Hcap. rewrite <- Hw1 in Hcap.
  pose proof (capturing_run after fid [] [] w1 Hcap) as Hcap2.
  fold chunks w2 in Hcap2. simpl in Hcap2.
  destruct (spawned_capturing _ _ _ _ Hcap2)
    as (f & cref & c & Hs & Hk & Ho & He).
  assert (wf w2) as Hwf2 by (unfold w2, w1; by apply wf_run, wf_run).
  destruct (on_close_exec w2 fid f cref c exitCode closed Hwf2 Hs Hk)
    as (Hhist & Hres & _).
  split.
  - simpl. by rewrite Hs, Hk.
  - exists (close_result f c exitCode closed).
    split_and!; [exact Hres | exact Hhist | | | |]; simpl; rewrite ?Ho, ?He;
      try done; apply trim_trimmed_of.
Qed.

Lemma exec_output_trimmed_witness :
  let before := [ExecCall (JsString.lit "npm test") ExecOptions.empty 1001] in
  let after :=
    [Data 0 Stdout (JsString.lit " hi"); ExecResume 1 (Some 4243);
     Data 1 Stdout (JsString.lit "other"); WatchdogFire 0; Kill 4242;
     Data 0 Stderr (JsString.lit "late "); Data 0 Stdout [JsString.newline]] in
  let w2 :=
    run Sample.shell
      (ExecCall (JsString.lit "echo hi") ExecOptions.empty 1000
         :: before ++ [ExecResume 0 (Some 4242)] ++ after) in
  wf Sample.shell
  ∧ ValidationResult.valid (validate Sample.shell (JsString.lit "echo hi")) = true
  ∧ (∀ p, ExecResume (length (flows Sample.shell)) p ∉ before)
  ∧ ∃ r,
      results (step w2 (Close 0 None 1007)) = results w2 ++ [r]
      ∧ ExecResult.stdout r = JsString.lit "hi"
      ∧ ExecResult.stderr r = JsString.lit "late"
      ∧ ExecResult.killed r = true.
Proof.
  intros before after w2.
  assert (wf Sample.shell) as Hwf by (vm_compute; lia).
  assert (ValidationResult.valid (validate Sample.shell (JsString.lit "echo hi"))
          = true) as Hvalid by reflexivity.
  assert (∀ p, ExecResume (length (flows Sample.shell)) p ∉ before) as Hb.
  { intros p Hin. apply list_elem_of_singleton in Hin. discriminate. }
  destruct (exec_output_trimmed Sample.shell (JsString.lit "echo hi")
              ExecOptions.empty 1000 (Some 4242) before after None 1007
              Hwf Hvalid Hb)
    as (_ & r & Hres & _ & Hout & Herr & _).
  split_and!; [exact Hwf | exact Hvalid | exact Hb |].
  exists r. split_and!.
  - unfold w2. rewrite app_assoc, app_comm_cons, run_app. exact Hres.
  - exact Hout.
  - exact Herr.
  - unfold w2 in Hres. vm_compute in Hres. by injection Hres as <-.
Defined.

(** C8, as stated, fails when the output starts with whitespace: [trim]
    removes it as well, where a trim of the trailing end alone would keep it. *)
Lemma leading_whitespace_removed :
  let chunks := [(Stdout, JsString.lit "  indented"); (Stdout, [JsString.newline])] in
  let w' :=
    run Sample.shell
      ([ExecCall (JsString.lit "cat notes.txt") ExecOptions.empty 0;
        ExecResume 0 (Some 4242)]
         ++ feed 0 chunks ++ [Close 0 (Some 0) 5]) in
  ExecResult.stdout <$> results w' !! 0%nat = Some (JsString.lit "indented")
  ∧ JsString.trimEnd (channel_text Stdout chunks) = JsString.lit "  indented"
  ∧ ExecResult.stdout <$> results w' !! 0%nat
    ≠ Some (JsString.trimEnd (channel_text Stdout chunks)).
Proof. vm_compute. split_and!; done. Qed.

(** ** [getHistory] and sharing *)

Section Sharing.

Implicit Types w : World.

(** Changing the array that [getHistory] returned, in any way and any
    number of times, leaves the stored array and the result objects alone. *)
Lemma array_updates_frame (gs : list (list nat → list nat)) a : ∀ w,
  a ≠ Props.executionHistory (props w) →
  let w' := foldl (λ w g, mutate a (ArrayUpdate g) w) w gs in
  Props.executionHistory (props w') = Props.executionHistory (props w)
  ∧ results w' = results w
  ∧ history w' = history w
  ∧ length (arrays w') = length (arrays w).
Proof.
  induction gs as [|g gs IH]; intros w Hne; simpl; [done|].
  assert (Props.executionHistory (props (mutate a (ArrayUpdate g) w))
          = Props.executionHistory (props w)
          ∧ results (mutate a (ArrayUpdate g) w) = results w
          ∧ history (mutate a (ArrayUpdate g) w) = history w
          ∧ length (arrays (mutate a (ArrayUpdate g) w)) = length (arrays w))
    as (Hh & Hr & Hhist & Hlen).
  { simpl. destruct (arrays w !! a) eqn:Ha; [|done].
    unfold history. simpl. rewrite list_lookup_insert_ne by done.
    by rewrite length_insert. }
  destruct (IH (mutate a (ArrayUpdate g) w)) as (Hh' & Hr' & Hhist' & Hlen').
  { by rewrite Hh. }
  simpl in *. rewrite Hh', Hr', Hhist', Hlen'. done.
Qed.

End Sharing.

(** C9 (amended). [getHistory] returns a new array that holds the stored
    references in the stored (append) order.  Whatever a caller does to that
    array itself (adding, removing, replacing or reordering elements, any
    number of times) changes neither the stored history nor what later
    [getHistory] calls show.  The entries themselves are shared: a field
    assignment through the [i]-th returned entry shows in later [getHistory]
    calls. *)
Theorem getHistory_shallow_copy (w : World) (gs : list (list nat → list nat))
    (Hwf : wf w) :
  let a := fst (getHistory w) in
  let w1 := snd (getHistory w) in
  let w2 := foldl (λ w g, mutate a (ArrayUpdate g) w) w1 gs in
  arrays w1 !! a = Some (history w)
  ∧ a ≠ Props.executionHistory (props w1)
  ∧ history w2 = history w
  ∧ getHistory_contents w2 = getHistory_contents w
  ∧ ∀ i loc r g,
      history w !! i = Some loc → results w !! loc = Some r →
      getHistory_contents (mutate a (ElementUpdate i g) w1) !! i
      = Some (Some (g r)).
Proof.
  intros a w1 w2.
  assert (arrays w1 !! a = Some (history w)) as Ha.
  { unfold w1, a; simpl. by rewrite lookup_app_r, Nat.sub_diag by lia. }
  assert (a ≠ Props.executionHistory (props w1)) as Hne.
  { unfold a, w1, wf in *; simpl. lia. }
  assert (wf w1) as Hwf1 by apply (wf_step _ GetHistory Hwf).
  assert (history w1 = history w) as Hh1 by by apply getHistory_history.
  destruct (array_updates_frame gs a w1 Hne) as (Hh & Hr & Hhist & Hlen).
  fold w2 in Hh, Hr, Hhist, Hlen.
  assert (wf w2) as Hwf2 by (unfold wf in *; rewrite Hh, Hlen; exact Hwf1).
  split_and!; try done.
  - by rewrite Hhist.
  - rewrite !getHistory_contents_eq by done. unfold history_values.
    by rewrite Hr, Hhist, Hh1.
  - intros i loc r g Hi Hloc.
    assert (mutate a (ElementUpdate i g) w1
            = mkWorld (props w1) (arrays w1) (<[loc := g r]> (results w1))
                      (children w1) (flows w1)) as ->.
    { unfold mutate. rewrite Ha, Hi. change (results w1) with (results w).
      by rewrite Hloc. }
    rewrite getHistory_contents_eq by exact Hwf1.
    unfold history_values. rewrite list_lookup_fmap.
    change (history (mkWorld (props w1) (arrays w1) (<[loc:=g r]> (results w1))
                       (children w1) (flows w1))) with (history w1).
    rewrite Hh1, Hi. simpl. f_equal.
    apply list_lookup_insert_eq. by eapply lookup_lt_Some.
Qed.

Lemma getHistory_shallow_copy_witness :
  wf Sample.echo_done
  ∧ history
      (foldl (λ w g, mutate (fst (getHistory Sample.echo_done)) (ArrayUpdate g) w)
         (snd (getHistory Sample.echo_done))
         [(λ l, l ++ [7%nat]); @rev nat; (λ _, [])])
    = [0%nat]
  ∧ arrays
      (foldl (λ w g, mutate (fst (getHistory Sample.echo_done)) (ArrayUpdate g) w)
         (snd (getHistory Sample.echo_done))
         [(λ l, l ++ [7%nat]); @rev nat; (λ _, [])])
    = [[0%nat]; []].
Proof.
  assert (wf Sample.echo_done) as Hwf by (vm_compute; lia).
  destruct (getHistory_shallow_copy Sample.echo_done
              [(λ l, l ++ [7%nat]); @rev nat; (λ _, [])] Hwf)
    as (_ & _ & Hh & _).
  split_and!; [exact Hwf | rewrite Hh; reflexivity | reflexivity].
Defined.

(** C9, as stated, fails: the copy is shallow.  Assigning to [stdout] of the
    entry found in the returned array changes what later [getHistory] calls
    return. *)
Lemma returned_entries_are_shared :
  let a := fst (getHistory Sample.echo_done) in
  let w1 := snd (getHistory Sample.echo_done) in
  let w2 :=
    mutate a (ElementUpdate 0 (ExecResult.with_stdout (JsString.lit "tampered")))
      w1 in
  ExecResult.stdout <$> getHistory_contents Sample.echo_done !!! 0%nat
  = Some (JsString.lit "hi")
  ∧ ExecResult.stdout <$> getHistory_contents w2 !!! 0%nat
    = Some (JsString.lit "tampered")
  ∧ getHistory_contents w2 ≠ getHistory_contents Sample.echo_done.
Proof. vm_compute. split_and!; done. Qed.

(** ** Pattern analysis *)

Section Analysis.

Import Prototype.

(** A division is finite exactly when its divisor is not zero. *)
Lemma divide_finite a b : is_finite (divide a b) = negb (b =? 0).
Proof. unfold divide. destruct (b =? 0); [by destruct (a =? 0)|done]. Qed.

Lemma guarded_divide_finite a total :
  is_finite (if 0 <? total then divide a total else Finite 0) = true.
Proof.
  destruct (Z.ltb_spec 0 total); [|done].
  rewrite divide_finite. destruct (Z.eqb_spec total 0); [lia|done].
Qed.

End Analysis.

(** C10. On an empty history the analysis reports a total of 0, a success
    rate of 0 and an average duration of 0, and nothing else.  For every
    history both quotients are finite: a division by zero would show as [NaN]
    or an infinity, and both divisions are guarded by [total > 0]. *)
Theorem analyzePatterns_empty_history :
  Prototype.analyzePatterns []
  = Prototype.mkPatterns 0 (Prototype.Finite 0) (Prototype.Finite 0) [] []
  ∧ (∀ history,
       Prototype.is_finite
         (Prototype.successRate (Prototype.analyzePatterns history)) = true
       ∧ Prototype.is_finite
           (Prototype.averageDuration (Prototype.analyzePatterns history)) = true)
  ∧ (∀ a, Prototype.is_finite (Prototype.divide a 0) = false).
Proof.
  split_and!.
  - reflexivity.
  - intros history. unfold Prototype.analyzePatterns; simpl.
    split; apply guarded_divide_finite.
  - intros a. by rewrite divide_finite.
Qed.

(** * Further properties of the unit *)

(** ** The validator's remaining gates and the command split *)

Section ValidatorGates.

Implicit Types (w : World) (command : jsstring).

Lemma first_blocked_none command (blocked : list jsstring) :
  first_blocked command blocked = None
  ↔ ∀ b, b ∈ blocked → ¬ occurs_in b command.
Proof.
  induction blocked as [|x blocked IH]; simpl.
  - split; [intros _ b Hb; by inversion Hb | done].
  - destruct (JsString.includes command x) eqn:Hx.
    + split; [done|]. intros H. exfalso. apply (H x); [left|].
      by apply includes_spec.
    + rewrite IH. split.
      * intros H b Hb. inversion Hb; subst; [|by apply H].
        rewrite <- includes_spec. congruence.
      * intros H b Hb. apply H. by right.
Qed.

Lemma isAllowed_spec command (allowed : list jsstring) :
  isAllowed command allowed = true
  ↔ ∃ a, a ∈ allowed
         ∧ (commandBase command = a
            ∨ ∃ rest, command = a ++ JsString.space :: rest).
Proof.
  unfold isAllowed. rewrite existsb_exists. split.
  - intros (a & Ha & H). exists a. split; [by apply list_elem_of_In|].
    apply orb_true_iff in H as [H|H].
    + left. by apply eqb_spec.
    + right. apply startsWith_spec in H as [rest ->]. exists rest.
      by rewrite <- app_assoc.
  - intros (a & Ha & H). exists a. split; [by apply list_elem_of_In|].
    apply orb_true_iff. destruct H as [H|[rest ->]].
    + left. by apply eqb_spec.
    + right. apply startsWith_spec. exists rest. by rewrite <- app_assoc.
Qed.

Lemma split_space_nonempty s : JsString.split_space s ≠ [].
Proof.
  destruct s as [|c s]; simpl; [done|].
  destruct (N.eqb c JsString.space); [done|].
  by destruct (JsString.split_space s).
Qed.

(** Splitting at spaces, then joining with spaces, gives the text back. *)
Lemma join_split s : join_space (JsString.split_space s) = s.
Proof.
  induction s as [|c s IH]; [done|]. simpl.
  pose proof (split_space_nonempty s) as Hne.
  destruct (JsString.split_space s) as [|p ps] eqn:Hs; [done|].
  destruct (N.eqb_spec c JsString.space) as [->|Hc].
  - cbn [join_space]. simpl. by rewrite <- IH.
  - destruct ps as [|q rest]; simpl in *; by rewrite <- IH.
Qed.

Lemma split_space_no_space s p :
  p ∈ JsString.split_space s → JsString.space ∉ p.
Proof.
  revert p; induction s as [|c s IH]; intros p; simpl.
  - intros Hp. inversion Hp; subst; [apply not_elem_of_nil|]. by inversion H1.
  - destruct (N.eqb_spec c JsString.space) as [->|Hc].
    + intros Hp. inversion Hp; subst; [apply not_elem_of_nil|]. by apply IH.
    + destruct (JsString.split_space s) as [|q rest] eqn:Hs.
      * intros Hp. inversion Hp; subst; [|by inversion H1].
        intros Hin. inversion Hin; subst; [done|]. by inversion H1.
      * intros Hp. inversion Hp; subst.
        -- intros Hin. inversion Hin; subst; [done|].
           eapply IH; [left|done].
        -- apply IH. by right.
Qed.

(** A text that starts with a space-free word followed by a space has that
    word as its first part. *)
Lemma split_space_prefix a rest :
  JsString.space ∉ a →
  JsString.split_space (a ++ JsString.space :: rest)
  = a :: JsString.split_space rest.
Proof.
  induction a as [|c a IH]; intros Hns; simpl.
  - done.
  - destruct (N.eqb_spec c JsString.space) as [->|Hc].
    + exfalso. apply Hns. left.
    + rewrite IH; [done|]. intros Hin. apply Hns. by right.
Qed.

Lemma commandBase_no_space command : JsString.space ∉ commandBase command.
Proof.
  unfold commandBase. pose proof (split_space_nonempty command).
  destruct (JsString.split_space command) as [|p ps] eqn:Hs; [done|].
  simpl. apply (split_space_no_space command). rewrite Hs. left.
Qed.

End ValidatorGates.

Lemma validate_valid_spec (w : World) (command : jsstring) :
  (ValidationResult.valid (validate w command) = true
   ↔ (∀ b, b ∈ Props.blockedCommands (props w) → ¬ occurs_in b command)
     ∧ (Props.allowedCommands (props w) = []
        ∨ isAllowed command (Props.allowedCommands (props w)) = true)
     ∧ running_size w < Props.maxConcurrent (props w))
  ∧ (ValidationResult.valid (validate w command) = true →
     validate w command
     = ValidationResult.mk true
         (JsString.lit "Command passed all safety checks") []).
Proof.
  unfold validate.
  destruct (first_blocked command (Props.blockedCommands (props w))) as [b|] eqn:Hb.
  - split; [|done]. split; [done|]. intros (Hnone & _).
    apply (proj2 (first_blocked_none _ _)) in Hnone. congruence.
  - pose proof (proj1 (first_blocked_none _ _) Hb) as Hnb.
    destruct (Props.allowedCommands (props w)) as [|a al] eqn:Hal.
    + simpl. destruct (Z.leb_spec (Props.maxConcurrent (props w)) (running_size w));
        simpl; split; try done.
      * split; [done|]. intros (_ & _ & ?). lia.
      * split; [|done]. intros _. split_and!; [done|by left|done].
    + cbn [length Nat.ltb Nat.leb andb].
      destruct (isAllowed command (a :: al)) eqn:Hia; simpl.
      * destruct (Z.leb_spec (Props.maxConcurrent (props w)) (running_size w));
          simpl; split; try done.
        -- split; [done|]. intros (_ & _ & ?). lia.
        -- split; [|done]. intros _. split_and!; [done|by right|done].
      * split; [|done]. split; [done|]. by intros (_ & [?|?] & _).
Qed.

(** X1. [validate] accepts a command exactly when no block-list pattern
    occurs in it, the allow-list is empty or admits it, and fewer processes
    are registered than [maxConcurrent]; an accepted command gets the fixed
    reason and no suggestions. *)
Theorem validate_valid_iff (w : World) (command : jsstring) :
  (ValidationResult.valid (validate w command) = true
   ↔ (∀ b, b ∈ Props.blockedCommands (props w) → ¬ occurs_in b command)
     ∧ (Props.allowedCommands (props w) = []
        ∨ isAllowed command (Props.allowedCommands (props w)) = true)
     ∧ running_size w < Props.maxConcurrent (props w))
  ∧ (ValidationResult.valid (validate w command) = true →
     validate w command
     = ValidationResult.mk true
         (JsString.lit "Command passed all safety checks") []).
Proof. apply validate_valid_spec; assumption. Qed.

(** X2. A command free of block-list patterns whose first word no entry of a
    non-empty allow-list admits is rejected, whatever the registry holds: the
    reason names that first word and the suggestions are the first three
    allow-list entries. *)
Theorem validate_not_allowed (w : World) (command : jsstring)
    (Hnb : ∀ b, b ∈ Props.blockedCommands (props w) → ¬ occurs_in b command)
    (Hne : Props.allowedCommands (props w) ≠ [])
    (Hna : ∀ a, a ∈ Props.allowedCommands (props w) →
                commandBase command ≠ a
                ∧ ∀ rest, command ≠ a ++ JsString.space :: rest) :
  validate w command
  = ValidationResult.mk false
      (JsString.lit "Command not in allowed list: " ++ commandBase command)
      (firstn 3 (Props.allowedCommands (props w))).
Proof.
  unfold validate. apply (proj2 (first_blocked_none _ _)) in Hnb. rewrite Hnb.
  assert (isAllowed command (Props.allowedCommands (props w)) = false) as ->.
  { apply not_true_is_false. rewrite isAllowed_spec.
    intros (a & Ha & [H|[rest H]]); destruct (Hna a Ha) as [H1 H2];
      [done|by apply (H2 rest)]. }
  destruct (Props.allowedCommands (props w)); done.
Qed.

Lemma validate_not_allowed_witness :
  validate Sample.shell (JsString.lit "dangerous-unknown-command")
  = ValidationResult.mk false
      (JsString.lit "Command not in allowed list: dangerous-unknown-command")
      (List.map JsString.lit ["npm"; "tsc"; "node"]%string).
Proof.
  apply (validate_not_allowed Sample.shell
           (JsString.lit "dangerous-unknown-command")).
  - apply first_blocked_none. reflexivity.
  - discriminate.
  - intros a Ha.
    assert (isAllowed (JsString.lit "dangerous-unknown-command")
              (Props.allowedCommands (props Sample.shell)) = false) as Hf
      by reflexivity.
    split.
    + intros Hb. apply not_true_iff_false in Hf. apply Hf.
      apply isAllowed_spec. exists a. by split; [|left].
    + intros rest Hr. apply not_true_iff_false in Hf. apply Hf.
      apply isAllowed_spec. exists a. split; [done|]. right. by exists rest.
Defined.

Lemma validate_busy_spec (w : World) (command : jsstring)
    (Hnb : ∀ b, b ∈ Props.blockedCommands (props w) → ¬ occurs_in b command)
    (Hal : Props.allowedCommands (props w) = []
           ∨ isAllowed command (Props.allowedCommands (props w)) = true)
    (Hfull : Props.maxConcurrent (props w) ≤ running_size w) :
  validate w command
  = ValidationResult.mk false
      (JsString.lit "Maximum concurrent processes reached: "
         ++ JsString.of_Z (Props.maxConcurrent (props w)))
      [JsString.lit "Wait for running processes to complete";
       JsString.lit "Use killAll() to terminate running processes"].
Proof.
  unfold validate. rewrite (proj2 (first_blocked_none _ _) Hnb).
  assert ((0 <? length (Props.allowedCommands (props w)))%nat
          && negb (isAllowed command (Props.allowedCommands (props w))) = false)
    as ->.
  { destruct Hal as [-> | ->]; [done|]. apply andb_false_r. }
  by destruct (Z.leb_spec (Props.maxConcurrent (props w)) (running_size w));
    [|lia].
Qed.

(** X3. A command that passes the block-list and the allow-list is rejected
    when as many processes are registered as [maxConcurrent] allows, or more;
    the reason names the limit. *)
Theorem validate_busy (w : World) (command : jsstring)
    (Hnb : ∀ b, b ∈ Props.blockedCommands (props w) → ¬ occurs_in b command)
    (Hal : Props.allowedCommands (props w) = []
           ∨ isAllowed command (Props.allowedCommands (props w)) = true)
    (Hfull : Props.maxConcurrent (props w) ≤ running_size w) :
  validate w command
  = ValidationResult.mk false
      (JsString.lit "Maximum concurrent processes reached: "
         ++ JsString.of_Z (Props.maxConcurrent (props w)))
      [JsString.lit "Wait for running processes to complete";
       JsString.lit "Use killAll() to terminate running processes"].
Proof. apply validate_busy_spec; assumption. Qed.

Lemma validate_busy_witness :
  validate Scenario.busy (JsString.lit "echo hi")
  = ValidationResult.mk false
      (JsString.lit "Maximum concurrent processes reached: 1")
      [JsString.lit "Wait for running processes to complete";
       JsString.lit "Use killAll() to terminate running processes"].
Proof.
  apply (validate_busy Scenario.busy (JsString.lit "echo hi")).
  - apply first_blocked_none. reflexivity.
  - right. reflexivity.
  - vm_compute. discriminate.
Defined.

(** X4. When no allow-list entry contains a space, the allow-list admits a
    command exactly when the command's first space-delimited word is an
    entry: the prefix test adds nothing. *)
Theorem isAllowed_first_token (command : jsstring) (allowed : list jsstring)
    (Hns : ∀ a, a ∈ allowed → JsString.space ∉ a) :
  isAllowed command allowed = true ↔ commandBase command ∈ allowed.
Proof.
  rewrite isAllowed_spec. split.
  - intros (a & Ha & [<- | [rest ->]]); [done|].
    unfold commandBase. rewrite split_space_prefix by by apply Hns. done.
  - intros Hin. exists (commandBase command). split; [done|by left].
Qed.

Lemma isAllowed_first_token_witness :
  isAllowed (JsString.lit "npm run build") default_allowed = true
  ↔ commandBase (JsString.lit "npm run build") ∈ default_allowed.
Proof.
  apply (isAllowed_first_token (JsString.lit "npm run build") default_allowed).
  intros a Ha Hs.
  assert (forallb (λ a, negb (existsb (N.eqb JsString.space) a)) default_allowed
          = true) as Hall by reflexivity.
  rewrite forallb_forall in Hall. apply list_elem_of_In in Ha.
  specialize (Hall a Ha). apply negb_true_iff in Hall.
  apply not_true_iff_false in Hall. apply Hall. apply existsb_exists.
  exists JsString.space. split; [by apply list_elem_of_In | apply N.eqb_refl].
Defined.

(** X5. [command.split(' ')] loses nothing: the parts are never none, no part
    contains a space, and joined with single spaces they spell the command
    again.  So the executable and the arguments that [exec] hands to [spawn]
    spell the command. *)
Theorem split_join_command (command cwd : jsstring) (shell : bool)
    (pid : option Z) :
  JsString.split_space command ≠ []
  ∧ (∀ p, p ∈ JsString.split_space command → JsString.space ∉ p)
  ∧ join_space (JsString.split_space command) = command
  ∧ join_space
      (ChildProcess.spawnfile (spawn command cwd shell pid)
         :: ChildProcess.spawnargs (spawn command cwd shell pid))
    = command.
Proof.
  split_and!.
  - apply split_space_nonempty.
  - apply split_space_no_space.
  - apply join_split.
  - simpl. pose proof (split_space_nonempty command).
    pose proof (join_split command) as Hj.
    destruct (JsString.split_space command); done.
Qed.

(** ** The registry: [kill], [killAll], [getRunningProcesses] *)

Section Registry.

Implicit Types (w : World) (pid : Z).

Lemma kill_running pid w : running (snd (kill pid w)) = delete pid (running w).
Proof.
  unfold kill. destruct (running w !! pid) eqn:Hp; simpl.
  - done.
  - by rewrite delete_id.
Qed.

Lemma kill_each_running pids w :
  running (kill_each pids w) = foldl (λ m p, delete p m) (running w) pids.
Proof.
  revert w; induction pids as [|p pids IH]; intros w; simpl; [done|].
  unfold kill_each in *. simpl. by rewrite IH, kill_running.
Qed.

Lemma foldl_delete_none (pids : list Z) : ∀ (m : gmap Z nat) k,
  m !! k = None → foldl (λ m p, delete p m) m pids !! k = None.
Proof.
  induction pids as [|p pids IH]; intros m k Hk; [done|]. simpl.
  apply IH. rewrite lookup_delete_None. by right.
Qed.

Lemma foldl_delete_elem (pids : list Z) : ∀ (m : gmap Z nat) k,
  k ∈ pids → foldl (λ m p, delete p m) m pids !! k = None.
Proof.
  induction pids as [|p pids IH]; intros m k Hk; [by inversion Hk|]. simpl.
  inversion Hk; subst; [|by apply IH].
  apply foldl_delete_none, lookup_delete_eq.
Qed.

Lemma foldl_delete_other (pids : list Z) : ∀ (m : gmap Z nat) k,
  k ∉ pids → foldl (λ m p, delete p m) m pids !! k = m !! k.
Proof.
  induction pids as [|p pids IH]; intros m k Hk; [done|]. simpl.
  apply not_elem_of_cons in Hk as [Hne Hk].
  rewrite IH by done. by apply lookup_delete_ne.
Qed.

Lemma kill_each_hist_part pids w : hist_part (kill_each pids w) = hist_part w.
Proof.
  revert w; induction pids as [|p pids IH]; intros w; [done|].
  unfold kill_each in *. simpl. by rewrite IH, hist_part_kill.
Qed.

Lemma kill_each_flows pids w : flows (kill_each pids w) = flows w.
Proof.
  revert w; induction pids as [|p pids IH]; intros w; [done|].
  unfold kill_each in *. simpl. by rewrite IH, kill_flows.
Qed.

Lemma elem_of_getRunningProcesses pid w :
  pid ∈ getRunningProcesses w ↔ is_Some (running w !! pid).
Proof.
  unfold getRunningProcesses. rewrite list_elem_of_fmap. split.
  - intros ([p cref] & -> & Hin). apply elem_of_map_to_list in Hin. eauto.
  - intros [cref Hc]. exists (pid, cref). split; [done|].
    by apply elem_of_map_to_list.
Qed.

End Registry.

(** X6. [kill(pid)] reports whether the process id was registered.  Either
    way the id is not registered afterwards and every other entry stays; for
    an unknown id nothing at all changes; a second [kill] of the same id
    reports false and changes nothing.  History, results and invocations are
    untouched. *)
Theorem kill_reports (w : World) (pid : Z) :
  let w' := snd (kill pid w) in
  (fst (kill pid w) = true ↔ is_Some (running w !! pid))
  ∧ running w' !! pid = None
  ∧ (∀ p, p ≠ pid → running w' !! p = running w !! p)
  ∧ (running w !! pid = None → w' = w)
  ∧ kill pid w' = (false, w')
  ∧ hist_part w' = hist_part w
  ∧ flows w' = flows w.
Proof.
  intros w'. split_and!.
  - unfold kill. destruct (running w !! pid); simpl; split; eauto;
      try done; by intros [? ?].
  - unfold w'. rewrite kill_running. apply lookup_delete_eq.
  - intros p Hp. unfold w'. rewrite kill_running. by apply lookup_delete_ne.
  - intros Hn. unfold w', kill. by rewrite Hn.
  - assert (running w' !! pid = None) as Hn
      by (unfold w'; rewrite kill_running; apply lookup_delete_eq).
    unfold kill at 1. by rewrite Hn.
  - apply hist_part_kill.
  - apply kill_flows.
Qed.

(** X7. [kill] of a registered process id sends SIGTERM through the child
    object (delivered when the process has not exited) and drops the entry at
    once, one entry fewer, without waiting for the process to end: the
    process is still alive when [kill] returns. *)
Theorem kill_registered (w : World) (pid : Z) (cref : nat) (c : ChildProcess.t)
    (Hr : running w !! pid = Some cref)
    (Hc : children w !! cref = Some c)
    (Ha : ChildProcess.exited c = false) :
  let w' := snd (kill pid w) in
  fst (kill pid w) = true
  ∧ running_size w' = running_size w - 1
  ∧ ∃ c', children w' !! cref = Some c'
          ∧ ChildProcess.signals c' = ChildProcess.signals c ++ [SIGTERM]
          ∧ ChildProcess.killed c' = true
          ∧ ChildProcess.exited c' = false
          ∧ ChildProcess.pid c' = ChildProcess.pid c.
Proof.
  intros w'. split_and!.
  - unfold kill. by rewrite Hr.
  - unfold running_size, w'. rewrite kill_running, map_size_delete, Hr.
    assert (size (running w) ≠ 0%nat) as Hs.
    { rewrite map_size_empty_iff. intros He. rewrite He in Hr.
      by rewrite lookup_empty in Hr. }
    simpl. lia.
  - exists (ChildProcess.kill SIGTERM c). unfold w'.
    rewrite kill_children, Hr, Hc.
    rewrite list_lookup_insert_eq by (by eapply lookup_lt_Some).
    unfold ChildProcess.kill. rewrite Ha. done.
Qed.

Lemma kill_registered_witness :
  fst (kill 4242 Sample.echo_running) = true
  ∧ running_size (snd (kill 4242 Sample.echo_running))
    = running_size Sample.echo_running - 1
  ∧ ∃ c', children (snd (kill 4242 Sample.echo_running)) !! 0%nat = Some c'
          ∧ ChildProcess.signals c' = [] ++ [SIGTERM]
          ∧ ChildProcess.killed c' = true
          ∧ ChildProcess.exited c' = false
          ∧ ChildProcess.pid c' = Some 4242.
Proof.
  apply (kill_registered Sample.echo_running 4242 0
           (spawn (JsString.lit "echo hi") Sample.cwd true (Some 4242)));
    vm_compute; reflexivity.
Defined.

Section KillAllLoop.

Implicit Types (w : World) (pid : Z).

(** An interrupted [killAll()] is a run of events: its kills, with the
    interrupting events in between. *)
Lemma killAll_loop_run pids : ∀ between w,
  killAll_loop pids between w = run w (killAll_events pids between).
Proof.
  induction pids as [|p pids IH]; intros between w; simpl; [done|].
  by rewrite IH, run_app.
Qed.

(** With nothing in between it is the uninterrupted one. *)
Lemma killAll_loop_alone pids : ∀ w, killAll_loop pids [] w = kill_each pids w.
Proof. induction pids as [|p pids IH]; intros w; simpl; [done|]. apply IH. Qed.

Lemma killAll_alone w : killAll w = killAll_from (getRunningProcesses w) [] w.
Proof. unfold killAll, killAll_from. by rewrite killAll_loop_alone. Qed.

Lemma killAll_loop_quiet pids : ∀ between w,
  (∀ es, es ∈ between → es = []) →
  killAll_loop pids between w = kill_each pids w.
Proof.
  induction pids as [|p pids IH]; intros between w Hq; simpl; [done|].
  destruct between as [|es between]; simpl.
  - apply killAll_loop_alone.
  - rewrite (Hq es) by apply list_elem_of_here. simpl.
    apply IH. intros es' Hin. apply Hq. by apply list_elem_of_further.
Qed.

Lemma foldl_delete_Some (pids : list Z) : ∀ (m : gmap Z nat) k v,
  foldl (λ m p, delete p m) m pids !! k = Some v → m !! k = Some v.
Proof.
  induction pids as [|p pids IH]; intros m k v Hk; [done|]. simpl in Hk.
  apply IH in Hk. by apply lookup_delete_Some in Hk as [_ Hk].
Qed.

(** No step removes a child object. *)
Lemma step_children_length w e :
  (length (children w) ≤ length (children (step w e)))%nat.
Proof.
  destruct e; simpl.
  - done.
  - unfold exec_resume, start. repeat case_match; try done. simpl.
    rewrite register_children. simpl. rewrite length_app. lia.
  - unfold stream, start. simpl. rewrite register_children. simpl.
    rewrite length_app. lia.
  - unfold on_data. repeat case_match; done.
  - unfold on_timeout. repeat case_match; try done; simpl;
      by rewrite ?length_insert.
  - unfold on_force_kill. repeat case_match; try done; simpl;
      by rewrite ?length_insert.
  - unfold on_close, push_result. repeat case_match; try done; simpl;
      by rewrite unregister_children.
  - unfold on_error. repeat case_match; try done; simpl;
      by rewrite unregister_children.
  - by rewrite kill_children_length.
  - unfold killAll. simpl. generalize ((map_to_list (running w)).*1).
    intros pids. revert w. induction pids as [|p pids IH]; intros w; [done|].
    simpl. etrans; [|apply IH]. by rewrite kill_children_length.
  - done.
  - unfold process_exit, on_child. case_match; simpl; by rewrite ?length_insert.
Qed.

Lemma run_children_length es : ∀ w,
  (length (children w) ≤ length (children (run w es)))%nat.
Proof.
  induction es as [|e es IH]; intros w; [done|]. rewrite run_cons.
  etrans; [apply (step_children_length w e)|apply IH].
Qed.

(** A registry entry that a step leaves behind was there before, or the step
    spawned the process and the entry refers to the new child object. *)
Lemma step_running_new w e pid cref :
  running (step w e) !! pid = Some cref →
  running w !! pid = Some cref
  ∨ (spawns e = true ∧ cref = length (children w)).
Proof.
  assert (∀ c w',
            running w' = running w →
            running (register (length (children w)) c w') !! pid = Some cref →
            running w !! pid = Some cref ∨ cref = length (children w)) as Hreg.
  { intros c w' Hw'. rewrite register_running, Hw'.
    destruct (ChildProcess.truthy_pid c); [|by left].
    rewrite lookup_insert_Some. intros [[_ <-]|[_ ?]]; [by right|by left]. }
  assert (∀ c w',
            running w' = running w →
            running (unregister c w') !! pid = Some cref →
            running w !! pid = Some cref) as Hunreg.
  { intros c w' Hw'. rewrite unregister_running, Hw'.
    destruct (ChildProcess.truthy_pid c); [|done].
    rewrite lookup_delete_Some. by intros [_ ?]. }
  destruct e; simpl.
  - by left.
  - unfold exec_resume, start. repeat case_match; try (by left).
    rewrite running_set_flow. intros Hrun.
    apply Hreg in Hrun as [?|?]; [by left|by right|done].
  - unfold stream, start. rewrite running_set_flow. intros Hrun.
    apply Hreg in Hrun as [?|?]; [by left|by right|done].
  - unfold on_data. repeat case_match; by left.
  - unfold on_timeout. repeat case_match; by left.
  - unfold on_force_kill. repeat case_match; by left.
  - unfold on_close, push_result. repeat case_match; try (by left);
      rewrite running_set_flow; intros Hrun; left;
      by apply Hunreg in Hrun.
  - unfold on_error. repeat case_match; try (by left);
      rewrite running_set_flow; intros Hrun; left;
      by apply Hunreg in Hrun.
  - rewrite kill_running, lookup_delete_Some. intros [_ ?]. by left.
  - intros Hrun. left. eapply foldl_delete_Some.
    rewrite <- kill_each_running. exact Hrun.
  - by left.
  - unfold process_exit, on_child. case_match; by left.
Qed.

Lemma run_running_new es : ∀ w pid cref,
  running (run w es) !! pid = Some cref →
  running w !! pid = Some cref
  ∨ ((length (children w) ≤ cref)%nat ∧ ∃ e, e ∈ es ∧ spawns e = true).
Proof.
  induction es as [|e es IH]; intros w pid cref H; [by left|].
  rewrite run_cons in H. destruct (IH _ _ _ H) as [H1|[Hle (e' & Hin & Hsp)]].
  - destruct (step_running_new _ _ _ _ H1) as [?|[Hsp ->]]; [by left|].
    right. split; [done|]. exists e. split; [apply list_elem_of_here|done].
  - right. split.
    + etrans; [apply (step_children_length w e)|done].
    + exists e'. split; [by apply list_elem_of_further|done].
Qed.

(** The loop, whatever runs at its awaits: when it is through, no entry of
    the registry refers to a child object that existed when it began. *)
Lemma killAll_loop_entries pids : ∀ between w (n : nat),
  (n ≤ length (children w))%nat →
  (∀ pid cref, running w !! pid = Some cref → (cref < n)%nat → pid ∈ pids) →
  ∀ pid cref,
    running (killAll_loop pids between w) !! pid = Some cref → (n ≤ cref)%nat.
Proof.
  induction pids as [|p pids IH]; intros between w n Hn Hold pid cref H.
  - simpl in H. destruct (decide (cref < n)%nat) as [Hlt|]; [|lia].
    specialize (Hold _ _ H Hlt). by apply elem_of_nil in Hold.
  - simpl in H. eapply IH; [| |exact H].
    + etrans; [|apply run_children_length]. by rewrite kill_children_length.
    + intros pid' cref' H1 Hlt.
      destruct (run_running_new _ _ _ _ H1) as [H2|[Hle _]].
      * rewrite kill_running in H2.
        apply lookup_delete_Some in H2 as [Hne H2].
        specialize (Hold _ _ H2 Hlt). by apply elem_of_cons in Hold as [?|?].
      * rewrite kill_children_length in Hle. lia.
Qed.

(** An entry that is left when the loop is through was made by a spawn at
    one of the awaits. *)
Lemma killAll_loop_spawned pids : ∀ between w,
  (∀ pid, is_Some (running w !! pid) → pid ∈ pids) →
  ∀ pid, is_Some (running (killAll_loop pids between w) !! pid) →
  ∃ es e, es ∈ between ∧ e ∈ es ∧ spawns e = true.
Proof.
  induction pids as [|p pids IH]; intros between w Hold pid H.
  - simpl in H. specialize (Hold _ H). by apply elem_of_nil in Hold.
  - simpl in H.
    assert (∀ es, es ∈ tl between → es ∈ between) as Htl.
    { intros es. destruct between; [done|]. simpl. apply list_elem_of_further. }
    destruct (existsb spawns (hd [] between)) eqn:Hex.
    + apply existsb_exists in Hex as (e & Hin & Hsp).
      destruct between as [|es between]; [done|].
      exists es, e. split_and!; [apply list_elem_of_here| |done].
      by apply list_elem_of_In.
    + assert (∀ pid', is_Some (running (run (snd (kill p w)) (hd [] between))
                                 !! pid') → pid' ∈ pids) as Hnext.
      { intros pid' [cref' H1].
        destruct (run_running_new _ _ _ _ H1) as [H2|[_ (e & Hin & Hsp)]].
        - rewrite kill_running in H2.
          apply lookup_delete_Some in H2 as [Hne H2].
          assert (pid' ∈ p :: pids) as Hp by (apply Hold; eauto).
          by apply elem_of_cons in Hp as [?|?].
        - exfalso. assert (existsb spawns (hd [] between) = true) as Htrue.
          { apply existsb_exists. exists e.
            split; [by apply list_elem_of_In|done]. }
          congruence. }
      destruct (IH (tl between) _ Hnext pid H) as (es & e & Hin & He).
      exists es, e. split; [by apply Htl|done].
Qed.

End KillAllLoop.

(** X8. [killAll()] reads the registered process ids once, kills them one by
    one and returns their number.  Its loop awaits every [kill], so other
    code of the unit can run between two kills and after the last; the
    [killAll()] is then a run of [Kill] events with those events in between.
    Whatever runs there, no entry that the registry holds on return refers to
    a child object that existed at the call: each was made by a spawn at one
    of the awaits.  So when nothing spawns there, the registry is empty on
    return; and when nothing runs there at all, history, results and
    invocations are untouched as well. *)
Theorem killAll_interleaved (w : World) (pids : list Z)
    (between : list (list Event))
    (Hpids : pids ≡ₚ getRunningProcesses w) :
  let w' := snd (killAll_from pids between w) in
  fst (killAll_from pids between w) = running_size w
  ∧ w' = run w (killAll_events pids between)
  ∧ (∀ pid cref, running w' !! pid = Some cref →
       (length (children w) ≤ cref)%nat
       ∧ ∃ es e, es ∈ between ∧ e ∈ es ∧ spawns e = true)
  ∧ ((∀ es e, es ∈ between → e ∈ es → spawns e = false) →
     running w' = ∅ ∧ getRunningProcesses w' = [])
  ∧ ((∀ es, es ∈ between → es = []) →
     hist_part w' = hist_part w ∧ flows w' = flows w).
Proof.
  intros w'.
  assert (∀ pid, is_Some (running w !! pid) → pid ∈ pids) as Hall.
  { intros pid Hp. rewrite Hpids. by apply elem_of_getRunningProcesses. }
  assert (∀ pid, is_Some (running w' !! pid) →
            ∃ es e, es ∈ between ∧ e ∈ es ∧ spawns e = true) as Hsp.
  { intros pid. by apply killAll_loop_spawned. }
  split_and!.
  - simpl. rewrite Hpids. unfold getRunningProcesses, running_size.
    by rewrite length_fmap, length_map_to_list.
  - apply killAll_loop_run.
  - intros pid cref Hp. split; [|by eapply Hsp].
    eapply (killAll_loop_entries pids between w); [done| |exact Hp].
    intros pid' cref' Hp' _. apply Hall. eauto.
  - intros Hnone.
    assert (running w' = ∅) as He.
    { apply map_empty. intros pid.
      destruct (running w' !! pid) as [cref|] eqn:Hp; [|done].
      destruct (Hsp pid) as (es & e & Hin & Hin' & Hs); [by eauto|].
      rewrite (Hnone es e) in Hs; done. }
    split; [exact He|].
    unfold getRunningProcesses. by rewrite He, map_to_list_empty.
  - intros Hq. unfold w'. simpl. rewrite killAll_loop_quiet by done.
    split; [apply kill_each_hist_part|apply kill_each_flows].
Qed.

(** A [killAll()] that an [exec] overtakes: the [exec] was suspended at its
    validation when [killAll()] was called, resumes after the kill of 4242
    and registers process 4243, which is running when [killAll()] returns
    1. *)
Lemma killAll_interleaved_witness :
  let w' :=
    snd (killAll_from [4242] [[ExecResume 1 (Some 4243)]]
           Scenario.one_suspended) in
  [4242] ≡ₚ getRunningProcesses Scenario.one_suspended
  ∧ fst (killAll_from [4242] [[ExecResume 1 (Some 4243)]]
           Scenario.one_suspended) = 1
  ∧ (∀ pid cref, running w' !! pid = Some cref → (1 ≤ cref)%nat)
  ∧ running w' = {[4243 := 1%nat]}
  ∧ getRunningProcesses w' = [4243].
Proof.
  intros w'.
  assert ([4242] ≡ₚ getRunningProcesses Scenario.one_suspended) as Hpids
    by (vm_compute; reflexivity).
  destruct (killAll_interleaved Scenario.one_suspended [4242]
              [[ExecResume 1 (Some 4243)]] Hpids) as (Hn & _ & Hnew & _).
  split_and!.
  - exact Hpids.
  - rewrite Hn. reflexivity.
  - intros pid cref Hp. by destruct (Hnew pid cref Hp) as [Hle _].
  - vm_compute. reflexivity.
  - vm_compute. reflexivity.
Defined.

(** [getRunningProcesses()] lists exactly the registered process ids, each
    once; its length is the count the validator compares with
    [maxConcurrent]. *)
Lemma getRunningProcesses_registered (w : World) :
  (∀ pid, pid ∈ getRunningProcesses w ↔ is_Some (running w !! pid))
  ∧ NoDup (getRunningProcesses w)
  ∧ Z.of_nat (length (getRunningProcesses w)) = running_size w.
Proof.
  split_and!.
  - intros pid. apply elem_of_getRunningProcesses.
  - apply NoDup_fst_map_to_list.
  - unfold getRunningProcesses, running_size.
    by rewrite length_fmap, length_map_to_list.
Qed.

Section KillAll.

Implicit Types (w : World) (c : ChildProcess.t).

Lemma iter_kill_alive n c :
  ChildProcess.exited c = false →
  ChildProcess.exited (Nat.iter n (ChildProcess.kill SIGTERM) c) = false
  ∧ ChildProcess.signals (Nat.iter n (ChildProcess.kill SIGTERM) c)
    = ChildProcess.signals c ++ replicate n SIGTERM
  ∧ ((1 ≤ n)%nat →
     ChildProcess.killed (Nat.iter n (ChildProcess.kill SIGTERM) c) = true).
Proof.
  intros Ha. induction n as [|n (He & Hs & Hk)]; simpl.
  - rewrite app_nil_r. split_and!; [done|done|lia].
  - unfold ChildProcess.kill at 1 3 5. rewrite He. simpl. split_and!; try done.
    rewrite Hs, <- app_assoc. f_equal.
    change (replicate n SIGTERM ++ [SIGTERM] = replicate (S n) SIGTERM).
    by rewrite replicate_S_end.
Qed.

(** The loop of [killAll] signals an object once for every listed process id
    that is registered to it. *)
Lemma kill_each_children pids : ∀ w cref c,
  children w !! cref = Some c →
  ∃ n, children (kill_each pids w) !! cref
       = Some (Nat.iter n (ChildProcess.kill SIGTERM) c)
       ∧ (NoDup pids →
          (∃ pid, pid ∈ pids ∧ running w !! pid = Some cref) → (1 ≤ n)%nat).
Proof.
  induction pids as [|p pids IH]; intros w cref c Hc.
  - exists 0%nat. split; [done|]. intros _ (pid & Hin & _). by inversion Hin.
  - set (w1 := snd (kill p w)).
    assert (∃ k, children w1 !! cref
                 = Some (Nat.iter k (ChildProcess.kill SIGTERM) c)
                 ∧ (running w !! p = Some cref → k = 1%nat)) as (k & Hc1 & Hk).
    { unfold w1. rewrite kill_children.
      destruct (running w !! p) as [cr|] eqn:Hp; [|by exists 0%nat].
      destruct (children w !! cr) as [c0|] eqn:Hcr.
      - destruct (decide (cref = cr)) as [->|Hne].
        + exists 1%nat. rewrite Hc in Hcr. injection Hcr as <-.
          rewrite list_lookup_insert_eq by (by eapply lookup_lt_Some). done.
        + exists 0%nat. rewrite list_lookup_insert_ne by done.
          split; [done|]. congruence.
      - exists 0%nat. split; [done|]. congruence. }
    destruct (IH w1 cref _ Hc1) as (n & Hn & Hge).
    exists (n + k)%nat. split.
    + change (kill_each (p :: pids) w) with (kill_each pids w1).
      by rewrite Hn, Nat.iter_add.
    + intros Hnd (pid & Hin & Hr). apply NoDup_cons in Hnd as [Hnp Hnd].
      inversion Hin; subst.
      * rewrite (Hk Hr). lia.
      * assert (1 ≤ n)%nat; [|lia]. apply Hge; [done|]. exists pid.
        split; [done|]. unfold w1. rewrite kill_running.
        rewrite lookup_delete_ne; [done|]. by intros ->.
Qed.

End KillAll.

(** X9. [killAll()] signals every registered process: a registered process
    that has not exited receives SIGTERM at least once and nothing else, its
    object's [killed] flag is set, and it is still alive when [killAll]
    returns. *)
Theorem killAll_signals (w : World) (pid : Z) (cref : nat) (c : ChildProcess.t)
    (Hr : running w !! pid = Some cref)
    (Hc : children w !! cref = Some c)
    (Ha : ChildProcess.exited c = false) :
  ∃ c' n,
    children (snd (killAll w)) !! cref = Some c'
    ∧ (1 ≤ n)%nat
    ∧ ChildProcess.signals c' = ChildProcess.signals c ++ replicate n SIGTERM
    ∧ ChildProcess.killed c' = true
    ∧ ChildProcess.exited c' = false.
Proof.
  destruct (kill_each_children ((map_to_list (running w)).*1) w cref c Hc)
    as (n & Hn & Hge).
  assert (1 ≤ n)%nat as Hn1.
  { apply Hge; [apply NoDup_fst_map_to_list|]. exists pid. split; [|done].
    apply list_elem_of_fmap. exists (pid, cref). split; [done|].
    by apply elem_of_map_to_list. }
  destruct (iter_kill_alive n c Ha) as (He & Hs & Hk).
  exists (Nat.iter n (ChildProcess.kill SIGTERM) c), n.
  split_and!; try done. by apply Hk.
Qed.

Lemma killAll_signals_witness :
  ∃ c' n,
    children (snd (killAll Scenario.two_running)) !! 1%nat = Some c'
    ∧ (1 ≤ n)%nat
    ∧ ChildProcess.signals c' = [] ++ replicate n SIGTERM
    ∧ ChildProcess.killed c' = true
    ∧ ChildProcess.exited c' = false.
Proof.
  apply (killAll_signals Scenario.two_running 4243 1
           (spawn (JsString.lit "npm run build") Sample.cwd true (Some 4243)));
    vm_compute; reflexivity.
Defined.

(** ** Invariants of every run *)

Section RunInvariants.

Implicit Types (w : World) (e : Event).

Lemma configuration_kill pid w :
  configuration (snd (kill pid w)) = configuration w.
Proof.
  unfold kill, on_child. destruct (running w !! pid); [|done].
  by destruct (children w !! n).
Qed.

Lemma configuration_step w e : configuration (step w e) = configuration w.
Proof.
  destruct e; simpl; try done.
  - unfold exec_resume, start, register. by repeat case_match.
  - unfold stream, start, register. by repeat case_match.
  - unfold on_data. by repeat case_match.
  - unfold on_timeout. by repeat case_match.
  - unfold on_force_kill. by repeat case_match.
  - unfold on_close, push_result, unregister. by repeat case_match.
  - unfold on_error, unregister. by repeat case_match.
  - apply configuration_kill.
  - unfold killAll; simpl. generalize ((map_to_list (running w)).*1).
    intros pids; revert w; induction pids as [|p pids IH]; intros w; [done|].
    simpl. by rewrite IH, configuration_kill.
  - unfold process_exit, on_child. by case_match.
Qed.

Lemma completes_results w e :
  completes w e = true → ∃ r, results (step w e) = results w ++ [r].
Proof.
  destruct e; try done. simpl.
  destruct (spawned fid w) as [[[f cref] c]|] eqn:Hs; [|done].
  destruct (Flow.kind f) eqn:Hk; [|done]. intros _.
  unfold on_close. rewrite Hs, Hk. unfold push_result. simpl.
  eexists. f_equal. apply (f_equal snd (hist_part_unregister c w)).
Qed.

(** The registry never grows in a step that cannot spawn. *)
Lemma unregister_size c w : running_size (unregister c w) ≤ running_size w.
Proof.
  unfold running_size. rewrite unregister_running.
  destruct (ChildProcess.truthy_pid c); [|lia].
  rewrite map_size_delete. destruct (running w !! z); simpl; lia.
Qed.

Lemma kill_size pid w : running_size (snd (kill pid w)) ≤ running_size w.
Proof.
  unfold running_size. rewrite kill_running, map_size_delete.
  destruct (running w !! pid); simpl; lia.
Qed.

Lemma size_set_flow fid f w : running_size (set_flow fid f w) = running_size w.
Proof. done. Qed.

Lemma size_set_child cref c w :
  running_size (set_child cref c w) = running_size w.
Proof. done. Qed.

Lemma size_push_result r w :
  running_size (snd (push_result r w)) = running_size w.
Proof. done. Qed.

Lemma step_size_without_spawn w e :
  spawns e = false → running_size (step w e) ≤ running_size w.
Proof.
  intros Hs. destruct e; simpl in *; try done; try lia.
  - unfold on_data. repeat case_match; rewrite ?size_set_flow; lia.
  - unfold on_timeout.
    repeat case_match; rewrite ?size_set_flow, ?size_set_child; lia.
  - unfold on_force_kill.
    repeat case_match; rewrite ?size_set_flow, ?size_set_child; lia.
  - unfold on_close.
    destruct (spawned fid w) as [[[f cref] c]|]; [|lia].
    pose proof (unregister_size c w).
    destruct (Flow.kind f).
    + change (push_result (close_result f c exitCode now) (unregister c w))
        with (fst (push_result (close_result f c exitCode now) (unregister c w)),
              snd (push_result (close_result f c exitCode now) (unregister c w))).
      cbv beta iota. rewrite size_set_flow, size_push_result. lia.
    + rewrite size_set_flow. lia.
  - unfold on_error.
    destruct (spawned fid w) as [[[f cref] c]|]; [|lia].
    pose proof (unregister_size c w). rewrite size_set_flow. lia.
  - apply kill_size.
  - unfold killAll; simpl. generalize ((map_to_list (running w)).*1).
    intros pids. assert (∀ w', running_size
      (foldl (λ w0 pid, (kill pid w0).2) w' pids) ≤ running_size w') as H.
    { induction pids as [|p pids IH]; intros w'; simpl; [lia|].
      pose proof (IH (snd (kill p w'))). pose proof (kill_size p w'). lia. }
    apply H.
  - unfold process_exit, on_child. case_match; rewrite ?size_set_child; lia.
Qed.

Lemma exec_now_size command options now pid w :
  running_size w ≤ Props.maxConcurrent (props w) →
  running_size (exec_now command options now pid w) ≤ Props.maxConcurrent (props w).
Proof.
  intros Hle. unfold exec_now, exec_resume, exec_call. simpl.
  rewrite lookup_app_r, Nat.sub_diag by lia. simpl.
  destruct (ValidationResult.valid (validate w command)) eqn:Hv; simpl.
  - apply (start_after_valid _ _ _ _ command
             (add_flow
                (Flow.mk Exec command now (execOptions w options)
                   (or_number (ExecOptions.timeout options)
                      (Props.defaultTimeout (props w)))
                   (Some (validate w command)) None [] [] false Unset Unset
                   Waiting [] [])
                w)).
    exact Hv.
  - exact Hle.
Qed.

End RunInvariants.

(** X10. No operation and no callback changes the configuration: default
    timeout, default working directory, allow-list, block-list and
    [maxConcurrent] are the same after every run, and so is the reference to
    the history array. *)
Theorem configuration_read_only (w : World) (es : list Event) :
  configuration (run w es) = configuration w
  ∧ (wf w →
     Props.executionHistory (props (run w es))
     = Props.executionHistory (props w)).
Proof.
  split.
  - revert w; induction es as [|e es IH]; intros w; simpl; [done|].
    change (foldl step (step w e) es) with (run (step w e) es).
    by rewrite IH, configuration_step.
  - revert w; induction es as [|e es IH]; intros w Hwf; simpl; [done|].
    change (foldl step (step w e) es) with (run (step w e) es).
    rewrite IH by by apply wf_step.
    destruct (completes w e) eqn:Hc.
    + destruct e; try done. simpl in *.
      destruct (spawned fid w) as [[[f cref] c]|] eqn:Hs; [|done].
      destruct (Flow.kind f) eqn:Hk; [|done].
      by destruct (on_close_exec w fid f cref c exitCode now Hwf Hs Hk)
        as (_ & _ & _ & ->).
    + destruct (GetHistory_dec e) as [->|Hg]; [done|].
      apply (f_equal (λ x, fst (fst x)) (step_frame w e Hc Hg)).
Qed.

(** X11. The history is append-only.  After any run the old history is a
    prefix of the new one and the old result objects are a prefix of the new
    ones, unchanged; the history has grown by exactly the number of [exec]
    completions in the run. *)
Theorem history_append_only (w : World) (es : list Event) (Hwf : wf w) :
  history w `prefix_of` history (run w es)
  ∧ results w `prefix_of` results (run w es)
  ∧ length (history (run w es)) = (length (history w) + completions w es)%nat.
Proof.
  revert w Hwf; induction es as [|e es IH]; intros w Hwf; simpl.
  - split_and!; [done|done|lia].
  - change (foldl step (step w e) es) with (run (step w e) es).
    destruct (IH (step w e) (wf_step w e Hwf)) as (Hh & Hr & Hl).
    pose proof (step_history w e Hwf) as Hstep.
    destruct (completes w e) eqn:Hc.
    + destruct (completes_results w e Hc) as [r Hres]. split_and!.
      * etrans; [|exact Hh]. rewrite Hstep. by apply prefix_app_r.
      * etrans; [|exact Hr]. rewrite Hres. by apply prefix_app_r.
      * rewrite Hl, Hstep, length_app. simpl. lia.
    + split_and!.
      * by rewrite <- Hstep.
      * by rewrite <- (step_results w e Hc).
      * rewrite Hl, Hstep. lia.
Qed.

Lemma history_append_only_witness :
  history Sample.echo_running
    `prefix_of` history (run Sample.echo_running
                           [Data 0 Stdout (JsString.lit "hi");
                            Close 0 (Some 0) 1007; GetHistory; Kill 4242])
  ∧ length (history (run Sample.echo_running
                       [Data 0 Stdout (JsString.lit "hi");
                        Close 0 (Some 0) 1007; GetHistory; Kill 4242]))
    = 1%nat.
Proof.
  assert (wf Sample.echo_running) as Hwf by (vm_compute; lia).
  destruct (history_append_only Sample.echo_running
              [Data 0 Stdout (JsString.lit "hi");
               Close 0 (Some 0) 1007; GetHistory; Kill 4242] Hwf)
    as (Hp & _ & Hl).
  split; [exact Hp | rewrite Hl; reflexivity].
Defined.

(** X12. Without [stream], and with every [exec] spawning right after its
    validation, the registry never holds more processes than [maxConcurrent]:
    a unit that starts within the limit stays within it. *)
Theorem sequential_within_limit (w0 w : World)
    (Hseq : sequential w0 w)
    (Hinit : running_size w0 ≤ Props.maxConcurrent (props w0)) :
  running_size w ≤ Props.maxConcurrent (props w)
  ∧ Props.maxConcurrent (props w) = Props.maxConcurrent (props w0).
Proof.
  induction Hseq as [|w command options now pid _ [IH1 IH2]|w e _ [IH1 IH2] Hs].
  - done.
  - assert (Props.maxConcurrent (props (exec_now command options now pid w))
            = Props.maxConcurrent (props w)) as Hm.
    { unfold exec_now.
      pose proof (configuration_step (exec_call command options now w)
                    (ExecResume (length (flows w)) pid)) as Hc.
      simpl in Hc. unfold configuration in Hc. by injection Hc. }
    rewrite Hm. split; [|done]. by apply exec_now_size.
  - assert (Props.maxConcurrent (props (step w e))
            = Props.maxConcurrent (props w)) as Hm.
    { pose proof (configuration_step w e) as Hc. unfold configuration in Hc.
      by injection Hc. }
    rewrite Hm. split; [|done].
    pose proof (step_size_without_spawn w e Hs). lia.
Qed.

Lemma sequential_within_limit_witness :
  sequential Sample.single
    (exec_now (JsString.lit "echo hi") ExecOptions.empty 1 (Some 4243)
       Scenario.busy)
  ∧ running_size
      (exec_now (JsString.lit "echo hi") ExecOptions.empty 1 (Some 4243)
         Scenario.busy)
    ≤ 1.
Proof.
  assert (sequential Sample.single
            (exec_now (JsString.lit "echo hi") ExecOptions.empty 1 (Some 4243)
               Scenario.busy)) as Hseq.
  { apply sequential_exec.
    apply (sequential_exec Sample.single Sample.single
             (JsString.lit "npm test") ExecOptions.empty 0 (Some 4242)).
    apply sequential_init. }
  assert (running_size Sample.single ≤ Props.maxConcurrent (props Sample.single))
    as Hinit by (vm_compute; discriminate).
  destruct (sequential_within_limit _ _ Hseq Hinit) as [Hle Hm].
  split; [exact Hseq|]. rewrite Hm in Hle. exact Hle.
Defined.

(** ** Whole invocations of [exec] and [stream] *)

Section Invocations.

Implicit Types (w : World) (f : Flow.t).

(** [exitCode || 0] is the exit code, with [null] read as 0. *)
Lemma or_exitCode_default exitCode : or_exitCode exitCode = default 0 exitCode.
Proof.
  destruct exitCode as [n|]; [|done]. unfold or_exitCode; simpl.
  destruct (Z.eqb_spec n 0); congruence.
Qed.

Lemma exec_now_registry w command options now pid :
  ValidationResult.valid (validate w command) = true →
  running (exec_now command options now pid w)
  = match pid with
    | Some p => if p =? 0 then running w
                else <[p := length (children w)]> (running w)
    | None => running w
    end
  ∧ children (exec_now command options now pid w)
    = children w
        ++ [spawn command
              (or_string (ExecOptions.cwd options) (Props.defaultCwd (props w)))
              (shell_flag options) pid].
Proof.
  intros Hvalid. unfold exec_now, exec_resume, exec_call. simpl.
  rewrite lookup_app_r, Nat.sub_diag by lia. simpl. rewrite Hvalid. simpl.
  unfold start. rewrite running_set_flow, register_running. split.
  - unfold ChildProcess.truthy_pid. simpl. destruct pid as [p|]; [|done].
    by destruct (p =? 0).
  - simpl. by rewrite register_children.
Qed.

(** The flow of an [exec] after its [data] events, in full. *)
Lemma feed_exec_flow chunks : ∀ w fid f cref c,
  spawned fid w = Some (f, cref, c) → Flow.kind f = Exec →
  spawned fid (run w (feed fid chunks))
  = Some (Flow.with_stderr (Flow.stderr f ++ channel_text Stderr chunks)
            (Flow.with_stdout (Flow.stdout f ++ channel_text Stdout chunks) f),
          cref, c)
  ∧ hist_part (run w (feed fid chunks)) = hist_part w
  ∧ running (run w (feed fid chunks)) = running w
  ∧ children (run w (feed fid chunks)) = children w.
Proof.
  induction chunks as [|[ch data] chunks IH]; intros w fid f cref c Hs Hk.
  - simpl. rewrite !app_nil_r. split_and!; try done. rewrite Hs. by destruct f.
  - destruct (spawned_flow _ _ _ _ _ Hs) as (_ & Hc & _).
    change (feed fid ((ch, data) :: chunks))
      with (Data fid ch data :: feed fid chunks).
    rewrite run_cons.
    change (step w (Data fid ch data)) with (on_data fid ch data w).
    unfold on_data. rewrite Hs, Hk. destruct ch.
    + destruct (IH (set_flow fid (Flow.with_stdout (Flow.stdout f ++ data) f) w)
                  fid (Flow.with_stdout (Flow.stdout f ++ data) f) cref c)
        as (Hs' & Hh & Hr & Hch); [by apply (spawned_set_flow fid f)|done|].
      rewrite Hs', Hh, Hr, Hch. simpl. rewrite <- app_assoc. done.
    + destruct (IH (set_flow fid (Flow.with_stderr (Flow.stderr f ++ data) f) w)
                  fid (Flow.with_stderr (Flow.stderr f ++ data) f) cref c)
        as (Hs' & Hh & Hr & Hch); [by apply (spawned_set_flow fid f)|done|].
      rewrite Hs', Hh, Hr, Hch. simpl. rewrite <- app_assoc. done.
Qed.

(** The flow of a [stream] after its [data] events, in full. *)
Lemma feed_stream_flow chunks : ∀ w fid f cref c,
  spawned fid w = Some (f, cref, c) → Flow.kind f = Stream →
  spawned fid (run w (feed fid chunks))
  = Some (Flow.with_chunks
            (Flow.chunks f ++ delivered (Flow.options f) chunks) f,
          cref, c)
  ∧ hist_part (run w (feed fid chunks)) = hist_part w
  ∧ running (run w (feed fid chunks)) = running w
  ∧ children (run w (feed fid chunks)) = children w.
Proof.
  induction chunks as [|[ch data] chunks IH]; intros w fid f cref c Hs Hk.
  - simpl. rewrite !app_nil_r. split_and!; try done. rewrite Hs. by destruct f.
  - destruct (spawned_flow _ _ _ _ _ Hs) as (_ & Hc & _).
    change (feed fid ((ch, data) :: chunks))
      with (Data fid ch data :: feed fid chunks).
    rewrite run_cons.
    change (step w (Data fid ch data)) with (on_data fid ch data w).
    unfold on_data. rewrite Hs, Hk. unfold delivered. simpl.
    destruct (match ch with
              | Stdout => ExecOptions.onStdout (Flow.options f)
              | Stderr => ExecOptions.onStderr (Flow.options f)
              end) eqn:Hsup.
    + destruct (IH (set_flow fid
                      (Flow.with_chunks (Flow.chunks f ++ [(ch, data)]) f) w)
                  fid (Flow.with_chunks (Flow.chunks f ++ [(ch, data)]) f) cref c)
        as (Hs' & Hh & Hr & Hch); [by apply (spawned_set_flow fid f)|done|].
      destruct ch; rewrite Hs', Hh, Hr, Hch; simpl; rewrite <- app_assoc; done.
    + destruct (IH w fid f cref c Hs Hk) as (Hs' & Hh & Hr & Hch).
      destruct ch; rewrite Hs', Hh, Hr, Hch; done.
Qed.

(** The timeout callback of a spawned [exec] whose timer is waiting. *)
Lemma on_timeout_exec w fid f cref c :
  spawned fid w = Some (f, cref, c) → Flow.kind f = Exec →
  Flow.timeoutHandle f = Pending →
  spawned fid (on_timeout fid w)
  = Some (Flow.with_forceTimer Pending
            (Flow.with_timeoutHandle Fired (Flow.with_killed true f)),
          cref, ChildProcess.kill SIGTERM c)
  ∧ hist_part (on_timeout fid w) = hist_part w
  ∧ running (on_timeout fid w) = running w.
Proof.
  intros Hs Hk Ht. destruct (spawned_flow _ _ _ _ _ Hs) as (Hf & Hc & Hch).
  unfold on_timeout. rewrite Hs, Ht, Hk. split_and!; try done.
  unfold spawned. simpl.
  rewrite list_lookup_insert_eq by (by eapply lookup_lt_Some). simpl.
  rewrite Hc. by rewrite list_lookup_insert_eq by (by eapply lookup_lt_Some).
Qed.

Lemma stream_spawn_state w command options now pid :
  spawned (length (flows w)) (stream command options now pid w)
  = Some (Flow.mk Stream command now options
            (or_number (ExecOptions.timeout options)
               (Props.defaultTimeout (props w)))
            None (Some (length (children w))) [] [] false Pending Unset
            Waiting [] [],
          length (children w),
          spawn command
            (or_string (ExecOptions.cwd options) (Props.defaultCwd (props w)))
            (shell_flag options) pid)
  ∧ hist_part (stream command options now pid w) = hist_part w.
Proof.
  unfold stream, start. split.
  - unfold spawned. simpl. rewrite register_flows, register_children. simpl.
    rewrite list_lookup_insert_eq by (rewrite length_app; simpl; lia). simpl.
    by rewrite lookup_app_r, Nat.sub_diag by lia.
  - by rewrite hist_part_set_flow, hist_part_register.
Qed.

(** The flow and the child of an accepted [exec] right after the spawn, in
    full. *)
Lemma exec_now_state w command options now pid :
  ValidationResult.valid (validate w command) = true →
  spawned (length (flows w)) (exec_now command options now pid w)
  = Some (Flow.mk Exec command now (execOptions w options)
            (or_number (ExecOptions.timeout options)
               (Props.defaultTimeout (props w)))
            (Some (validate w command)) (Some (length (children w)))
            [] [] false Pending Unset Waiting [] [],
          length (children w),
          spawn command
            (or_string (ExecOptions.cwd options) (Props.defaultCwd (props w)))
            (shell_flag options) pid)
  ∧ hist_part (exec_now command options now pid w) = hist_part w.
Proof.
  intros Hvalid. unfold exec_now, exec_resume, exec_call. simpl.
  rewrite lookup_app_r, Nat.sub_diag by lia. simpl. rewrite Hvalid. simpl.
  unfold start. split.
  - unfold spawned. simpl. rewrite register_flows, register_children. simpl.
    rewrite list_lookup_insert_eq by (rewrite length_app; simpl; lia). simpl.
    by rewrite lookup_app_r, Nat.sub_diag by lia.
  - by rewrite hist_part_set_flow, hist_part_register.
Qed.

Lemma wf_exec_now w command options now pid :
  wf w → wf (exec_now command options now pid w).
Proof.
  intros Hwf. unfold exec_now.
  apply (wf_step _ (ExecResume (length (flows w)) pid)).
  apply (wf_step _ (ExecCall command options now)). exact Hwf.
Qed.

Lemma kill_pid sig (c : ChildProcess.t) :
  ChildProcess.pid (ChildProcess.kill sig c) = ChildProcess.pid c.
Proof. unfold ChildProcess.kill. by destruct (ChildProcess.exited c). Qed.

(** The operating system ends the process of an invocation: only the child
    object changes. *)
Lemma process_exit_spawned w fid f cref c :
  spawned fid w = Some (f, cref, c) →
  spawned fid (process_exit cref w) = Some (f, cref, ChildProcess.exit c)
  ∧ hist_part (process_exit cref w) = hist_part w
  ∧ running (process_exit cref w) = running w.
Proof.
  intros Hs. destruct (spawned_flow _ _ _ _ _ Hs) as (Hf & Hc & Hch).
  unfold process_exit, on_child. rewrite Hch. split_and!; try done.
  unfold spawned. simpl. rewrite Hf, Hc.
  by rewrite list_lookup_insert_eq by (by eapply lookup_lt_Some).
Qed.

(** A spawned [exec] whose timeout callback runs, then its chunks arrive,
    then the process closes. *)
Lemma timeout_then_close w fid f cref c chunks exitCode closed :
  wf w → spawned fid w = Some (f, cref, c) → Flow.kind f = Exec →
  Flow.timeoutHandle f = Pending → Flow.promise f = Waiting →
  let w' :=
    run w ([WatchdogFire fid] ++ feed fid chunks
             ++ [Close fid exitCode closed]) in
  promise_of fid w' = Some (Resolved (length (results w)))
  ∧ history w' = history w ++ [length (results w)]
  ∧ ExecResult.killed <$> results w' !! length (results w) = Some true
  ∧ ExecResult.exitCode <$> results w' !! length (results w)
    = Some (default 0 exitCode)
  ∧ child_of fid w' = Some (ChildProcess.kill SIGTERM c)
  ∧ running w'
    = match ChildProcess.truthy_pid c with
      | Some p => delete p (running w)
      | None => running w
      end.
Proof.
  intros Hwf Hs Hk Ht Hpr w'.
  destruct (on_timeout_exec w fid _ _ _ Hs Hk Ht) as (Hs1 & Hh1 & Hr1).
  set (w2 := on_timeout fid w) in *.
  destruct (feed_exec_flow chunks w2 fid _ _ _ Hs1 Hk)
    as (Hs2 & Hh2 & Hr2 & Hc2).
  set (w3 := run w2 (feed fid chunks)) in *.
  assert (w' = on_close fid exitCode closed w3) as ->.
  { unfold w'. rewrite run_app, run_app. reflexivity. }
  assert (wf w3) as Hwf3.
  { unfold w3, w2. apply wf_run. by apply (wf_step _ (WatchdogFire fid)). }
  destruct (on_close_exec w3 fid _ _ _ exitCode closed Hwf3 Hs2 Hk)
    as (Hhist & Hres & _).
  destruct (on_close_exec_promise w3 fid _ _ _ exitCode closed Hs2 Hk)
    as (Hprom & Hrun).
  rewrite Hh1 in Hh2. unfold hist_part in Hh2. injection Hh2 as Hh3 Hh4 Hh5.
  split_and!.
  - rewrite Hprom, Hh5. simpl. by rewrite Hpr.
  - rewrite Hhist, Hh5. unfold history. by rewrite Hh3, Hh4.
  - rewrite Hres, Hh5. by rewrite lookup_app_r, Nat.sub_diag by lia.
  - rewrite Hres, Hh5. rewrite lookup_app_r, Nat.sub_diag by lia. simpl.
    by rewrite or_exitCode_default.
  - unfold child_of, spawned, on_close. rewrite Hs2. simpl. rewrite Hk.
    unfold push_result. simpl. rewrite unregister_flows, unregister_children.
    destruct (spawned_flow _ _ _ _ _ Hs2) as (Hf3 & Hc3 & Hch3).
    rewrite list_lookup_insert_eq by (by eapply lookup_lt_Some). simpl.
    simpl in Hc3. rewrite Hc3. by rewrite Hch3.
  - rewrite Hrun, Hr2, Hr1. unfold ChildProcess.truthy_pid.
    by rewrite kill_pid.
Qed.

End Invocations.

(** X13. An accepted [exec] whose process gets a process id that is not
    registered yet adds exactly that entry, so the id shows up in
    [getRunningProcesses]; when the process closes, or when the spawn fails
    with an [error], the registry is again what it was before the call. *)
Theorem exec_registry_bracket (w : World) (command : jsstring)
    (options : ExecOptions.t) (now : Z) (p : Z) (exitCode : option Z)
    (closed : Z) (message : jsstring)
    (Hvalid : ValidationResult.valid (validate w command) = true)
    (Hp : p ≠ 0) (Hfresh : running w !! p = None) :
  let fid := length (flows w) in
  let w1 := exec_now command options now (Some p) w in
  running w1 = <[p := length (children w)]> (running w)
  ∧ p ∈ getRunningProcesses w1
  ∧ running (on_close fid exitCode closed w1) = running w
  ∧ running (on_error fid message w1) = running w.
Proof.
  intros fid w1.
  destruct (exec_now_registry w command options now (Some p) Hvalid) as [Hr _].
  fold w1 in Hr. destruct (Z.eqb_spec p 0) as [|_]; [done|].
  destruct (exec_spawn_state w command options now (Some p) Hvalid)
    as (f & Hs & Hk & _).
  change (exec_resume (length (flows w)) (Some p)
            (exec_call command options now w)) with w1 in Hs.
  fold fid in Hs.
  assert (ChildProcess.truthy_pid
            (spawn command
               (or_string (ExecOptions.cwd options) (Props.defaultCwd (props w)))
               (shell_flag options) (Some p)) = Some p) as Ht.
  { unfold ChildProcess.truthy_pid. simpl. by destruct (Z.eqb_spec p 0). }
  split_and!.
  - exact Hr.
  - apply elem_of_getRunningProcesses. rewrite Hr, lookup_insert_eq. eauto.
  - destruct (on_close_exec_promise w1 fid f _ _ exitCode closed Hs Hk)
      as [_ ->].
    rewrite Ht, Hr. by apply delete_insert_id.
  - destruct (on_error_exec w1 fid f _ _ message Hs Hk) as (_ & _ & -> & _).
    rewrite Ht, Hr. by apply delete_insert_id.
Qed.

Lemma exec_registry_bracket_witness :
  running (exec_now (JsString.lit "echo hi") ExecOptions.empty 9 (Some 4300)
             Sample.echo_running)
  = <[4300 := 1%nat]> (running Sample.echo_running)
  ∧ 4300 ∈ getRunningProcesses
             (exec_now (JsString.lit "echo hi") ExecOptions.empty 9 (Some 4300)
                Sample.echo_running)
  ∧ running (on_close 1 (Some 0) 12
               (exec_now (JsString.lit "echo hi") ExecOptions.empty 9
                  (Some 4300) Sample.echo_running))
    = running Sample.echo_running
  ∧ running (on_error 1 (JsString.lit "spawn ENOENT")
               (exec_now (JsString.lit "echo hi") ExecOptions.empty 9
                  (Some 4300) Sample.echo_running))
    = running Sample.echo_running.
Proof.
  apply (exec_registry_bracket Sample.echo_running (JsString.lit "echo hi")
           ExecOptions.empty 9 4300 (Some 0) 12 (JsString.lit "spawn ENOENT")).
  - reflexivity.
  - discriminate.
  - vm_compute. reflexivity.
Defined.

(** X14. A completed [exec] resolves with the very object it stored as the
    last history entry.  That object carries the command as given, the
    process id, the time from the call to the [close] event, the exit code
    with [null] (a process ended by a signal) recorded as 0, and
    [killed = false] when the watchdog did not fire. *)
Theorem exec_result_record (w : World) (command : jsstring)
    (options : ExecOptions.t) (now : Z) (pid : option Z)
    (chunks : list (Channel * jsstring)) (exitCode : option Z) (closed : Z)
    (Hwf : wf w)
    (Hvalid : ValidationResult.valid (validate w command) = true) :
  let fid := length (flows w) in
  let w' :=
    run (exec_now command options now pid w)
      (feed fid chunks ++ [Close fid exitCode closed]) in
  promise_of fid w' = Some (Resolved (length (results w)))
  ∧ last (history w') = Some (length (results w))
  ∧ results w' !! length (results w)
    = Some (ExecResult.mk (default 0 exitCode)
              (JsString.trim (channel_text Stdout chunks))
              (JsString.trim (channel_text Stderr chunks))
              (closed - now) false command pid).
Proof.
  intros fid w'.
  destruct (exec_now_state w command options now pid Hvalid) as (Hs & Hh).
  fold fid in Hs. set (w1 := exec_now command options now pid w) in *.
  destruct (feed_exec_flow chunks w1 fid _ _ _ Hs eq_refl)
    as (Hs' & Hh' & _ & _).
  set (w2 := run w1 (feed fid chunks)) in *.
  assert (w' = on_close fid exitCode closed w2) as ->.
  { unfold w'. rewrite run_app. reflexivity. }
  assert (wf w2) as Hwf2 by (by apply wf_run, wf_exec_now).
  destruct (on_close_exec w2 fid _ _ _ exitCode closed Hwf2 Hs' eq_refl)
    as (Hhist & Hres & _).
  destruct (on_close_exec_promise w2 fid _ _ _ exitCode closed Hs' eq_refl)
    as (Hp & _).
  rewrite Hh in Hh'. unfold hist_part in Hh'. injection Hh' as Hh1 Hh2 Hh3.
  split_and!.
  - by rewrite Hp, Hh3.
  - rewrite Hhist, Hh3. by rewrite last_snoc.
  - rewrite Hres, Hh3. rewrite lookup_app_r, Nat.sub_diag by lia. simpl.
    unfold close_result. simpl. by rewrite or_exitCode_default.
Qed.

Lemma exec_result_record_witness :
  promise_of 0 Sample.echo_done = Some (Resolved 0)
  ∧ last (history Sample.echo_done) = Some 0%nat
  ∧ results Sample.echo_done !! 0%nat
    = Some (ExecResult.mk 0 (JsString.lit "hi") [] 7 false
              (JsString.lit "echo hi") (Some 4242)).
Proof.
  assert (wf Sample.shell) as Hwf by (vm_compute; lia).
  apply (exec_result_record Sample.shell (JsString.lit "echo hi")
           ExecOptions.empty 1000 (Some 4242)
           [(Stdout, JsString.lit "hi"); (Stdout, [JsString.newline])]
           (Some 0) 1007 Hwf).
  reflexivity.
Defined.

(** X15. An [exec] whose timeout callback runs before its [close] callback
    is still a completion.  With nothing else in between but the chunks of
    the process, and whether or not the process had already ended when the
    timer fired ([gone]), the result is pushed and resolved with
    [killed = true] and the process id is no longer registered.  The timeout
    callback calls [child.kill('SIGTERM')]: a process that is still there
    receives SIGTERM and nothing else; one that has ended receives nothing,
    and its result says [killed = true] all the same. *)
Theorem exec_timeout_result (w : World) (command : jsstring)
    (options : ExecOptions.t) (now : Z) (p : Z) (gone : bool)
    (chunks : list (Channel * jsstring)) (exitCode : option Z) (closed : Z)
    (Hwf : wf w)
    (Hvalid : ValidationResult.valid (validate w command) = true)
    (Hp : p ≠ 0) :
  let fid := length (flows w) in
  let exit_first :=
    if gone then [ProcessExit (length (children w))] else [] in
  let w' :=
    run (exec_now command options now (Some p) w)
      (exit_first ++ [WatchdogFire fid] ++ feed fid chunks
         ++ [Close fid exitCode closed]) in
  promise_of fid w' = Some (Resolved (length (results w)))
  ∧ history w' = history w ++ [length (results w)]
  ∧ ExecResult.killed <$> results w' !! length (results w) = Some true
  ∧ ExecResult.exitCode <$> results w' !! length (results w)
    = Some (default 0 exitCode)
  ∧ ChildProcess.signals <$> child_of fid w'
    = Some (if gone then [] else [SIGTERM])
  ∧ ChildProcess.killed <$> child_of fid w' = Some (negb gone)
  ∧ running w' !! p = None.
Proof.
  intros fid exit_first w'.
  destruct (exec_now_state w command options now (Some p) Hvalid) as (Hs & Hh).
  fold fid in Hs. set (w1 := exec_now command options now (Some p) w) in *.
  assert (wf w1) as Hwf1 by (by apply wf_exec_now).
  set (c0 := spawn command
               (or_string (ExecOptions.cwd options) (Props.defaultCwd (props w)))
               (shell_flag options) (Some p)) in *.
  set (c1 := if gone then ChildProcess.exit c0 else c0).
  set (w1' := run w1 exit_first).
  assert (w' = run w1' ([WatchdogFire fid] ++ feed fid chunks
                          ++ [Close fid exitCode closed])) as Hw'.
  { unfold w', w1'. by rewrite run_app. }
  assert (wf w1') as Hwf1' by (by apply wf_run).
  assert (∃ f, spawned fid w1' = Some (f, length (children w), c1)
               ∧ Flow.kind f = Exec ∧ Flow.timeoutHandle f = Pending
               ∧ Flow.promise f = Waiting
               ∧ hist_part w1' = hist_part w ∧ running w1' = running w1)
    as (f & Hs' & Hk & Ht & Hpr & Hh' & Hr').
  { eexists. unfold w1', exit_first, c1. destruct gone; simpl.
    - destruct (process_exit_spawned _ _ _ _ _ Hs) as (-> & -> & ->).
      split_and!; done.
    - rewrite Hs. split_and!; done. }
  destruct (timeout_then_close w1' fid f _ c1 chunks exitCode closed
              Hwf1' Hs' Hk Ht Hpr) as (H1 & H2 & H3 & H4 & H5 & H6).
  rewrite <- Hw' in H1, H2, H3, H4, H5, H6.
  assert (results w1' = results w ∧ history w1' = history w) as [Hres Hhis].
  { split; [|by apply hist_part_history].
    unfold hist_part in Hh'. by injection Hh'. }
  rewrite Hres in H1, H2, H3, H4. rewrite Hhis in H2.
  split_and!; try done.
  - rewrite H5. unfold c1, c0. by destruct gone.
  - rewrite H5. unfold c1, c0. by destruct gone.
  - rewrite H6, Hr'.
    assert (ChildProcess.truthy_pid c1 = Some p) as ->.
    { unfold c1, c0, ChildProcess.truthy_pid. destruct gone; simpl;
        by destruct (Z.eqb_spec p 0). }
    apply lookup_delete_eq.
Qed.

Lemma exec_timeout_result_witness :
  let alive :=
    run (exec_now (JsString.lit "node server.js") Sample.timeout_100 0
           (Some 4242) Sample.shell)
      ([] ++ [WatchdogFire 0] ++ feed 0 [(Stderr, JsString.lit "terminated")]
         ++ [Close 0 None 130]) in
  let ended :=
    run (exec_now (JsString.lit "node server.js") Sample.timeout_100 0
           (Some 4242) Sample.shell)
      ([ProcessExit 0] ++ [WatchdogFire 0]
         ++ feed 0 [(Stderr, JsString.lit "terminated")]
         ++ [Close 0 (Some 0) 130]) in
  (promise_of 0 alive = Some (Resolved 0)
   ∧ history alive = [] ++ [0%nat]
   ∧ ExecResult.killed <$> results alive !! 0%nat = Some true
   ∧ ExecResult.exitCode <$> results alive !! 0%nat = Some 0
   ∧ ChildProcess.signals <$> child_of 0 alive = Some [SIGTERM]
   ∧ ChildProcess.killed <$> child_of 0 alive = Some true
   ∧ running alive !! 4242 = None)
  ∧ (promise_of 0 ended = Some (Resolved 0)
     ∧ history ended = [] ++ [0%nat]
     ∧ ExecResult.killed <$> results ended !! 0%nat = Some true
     ∧ ExecResult.exitCode <$> results ended !! 0%nat = Some 0
     ∧ ChildProcess.signals <$> child_of 0 ended = Some []
     ∧ ChildProcess.killed <$> child_of 0 ended = Some false
     ∧ running ended !! 4242 = None).
Proof.
  assert (wf Sample.shell) as Hwf by (vm_compute; lia).
  split.
  - apply (exec_timeout_result Sample.shell (JsString.lit "node server.js")
             Sample.timeout_100 0 4242 false
             [(Stderr, JsString.lit "terminated")] None 130 Hwf);
      [reflexivity | discriminate].
  - apply (exec_timeout_result Sample.shell (JsString.lit "node server.js")
             Sample.timeout_100 0 4242 true
             [(Stderr, JsString.lit "terminated")] (Some 0) 130 Hwf);
      [reflexivity | discriminate].
Defined.

(** X16. A [stream] invocation hands every chunk, in arrival order, to the
    callback of its channel when the caller supplied one, and buffers
    nothing; at [close] it calls [onExit], if supplied, once with the exit
    code ([null] as 0) and resolves with exit code, duration, [killed],
    command and process id.  History and results are untouched. *)
Theorem stream_run (w : World) (command : jsstring) (options : ExecOptions.t)
    (now : Z) (pid : option Z) (chunks : list (Channel * jsstring))
    (exitCode : option Z) (closed : Z) :
  let fid := length (flows w) in
  let w' :=
    run (stream command options now pid w)
      (feed fid chunks ++ [Close fid exitCode closed]) in
  ∃ f,
    flows w' !! fid = Some f
    ∧ Flow.chunks f = delivered options chunks
    ∧ Flow.exits f
      = (if ExecOptions.onExit options then [default 0 exitCode] else [])
    ∧ Flow.stdout f = [] ∧ Flow.stderr f = []
    ∧ Flow.promise f
      = ResolvedStream
          (StreamResult.mk (default 0 exitCode) (closed - now) false command pid)
    ∧ hist_part w' = hist_part w.
Proof.
  intros fid w'.
  destruct (stream_spawn_state w command options now pid) as (Hs & Hh).
  fold fid in Hs. set (w1 := stream command options now pid w) in *.
  destruct (feed_stream_flow chunks w1 fid _ _ _ Hs eq_refl)
    as (Hs2 & Hh2 & _ & _).
  set (w2 := run w1 (feed fid chunks)) in *.
  assert (w' = on_close fid exitCode closed w2) as ->.
  { unfold w'. rewrite run_app. reflexivity. }
  destruct (spawned_flow _ _ _ _ _ Hs2) as (Hf2 & _ & _).
  pose proof (lookup_lt_Some _ _ _ Hf2) as Hlt.
  unfold on_close. rewrite Hs2. simpl.
  rewrite hist_part_set_flow, hist_part_unregister, Hh2, Hh.
  rewrite or_exitCode_default.
  destruct (ExecOptions.onExit options); simpl;
    rewrite unregister_flows, list_lookup_insert_eq by done;
    eexists; split_and!; done.
Qed.

(** ** The second timer *)

Section Escalation.

Implicit Types (w : World) (f : Flow.t) (c : ChildProcess.t).

Lemma kill_signalled sig c : signalled_or_gone (ChildProcess.kill sig c).
Proof.
  unfold signalled_or_gone, ChildProcess.kill.
  destruct (ChildProcess.exited c) eqn:He; simpl; auto.
Qed.

Lemma kill_sigterm_signals c :
  SIGKILL ∉ ChildProcess.signals c →
  SIGKILL ∉ ChildProcess.signals (ChildProcess.kill SIGTERM c).
Proof.
  unfold ChildProcess.kill. destruct (ChildProcess.exited c); simpl; [done|].
  intros Hn Hin. apply elem_of_app in Hin as [Hin|Hin]; [done|].
  by apply list_elem_of_singleton in Hin.
Qed.

Lemma escalation_ext w w' :
  children w' = children w → flows w' = flows w →
  escalation_idle w → escalation_idle w'.
Proof. unfold escalation_idle. by intros -> ->. Qed.

Lemma escalation_set_child w cref c c' :
  escalation_idle w → children w !! cref = Some c →
  SIGKILL ∉ ChildProcess.signals c' →
  (signalled_or_gone c → signalled_or_gone c') →
  escalation_idle (set_child cref c' w).
Proof.
  intros [HA HB] Hc Hs Hm. split; simpl.
  - by apply Forall_insert.
  - intros fid f Hf Hp. destruct (HB fid f Hf Hp) as (cr & c0 & Hch & Hc0 & Hsg).
    destruct (decide (cr = cref)) as [->|Hne].
    + exists cref, c'. split_and!; [done| |].
      * apply list_lookup_insert_eq. by eapply lookup_lt_Some.
      * apply Hm. congruence.
    + exists cr, c0. split_and!; [done| |done].
      by rewrite list_lookup_insert_ne.
Qed.

Lemma escalation_set_flow w fid f f' :
  escalation_idle w → flows w !! fid = Some f →
  (Flow.forceTimer f' = Pending →
   Flow.forceTimer f = Pending ∧ Flow.child f' = Flow.child f) →
  escalation_idle (set_flow fid f' w).
Proof.
  intros [HA HB] Hf Hm. split; simpl; [done|].
  intros fid0 f0 Hf0 Hp.
  apply list_lookup_insert_Some in Hf0 as [(<- & <- & _)|(Hne & Hf0)].
  - destruct (Hm Hp) as [Hp' Hc]. rewrite Hc. by apply (HB fid f).
  - by apply (HB fid0 f0).
Qed.

Lemma escalation_set_flow_signalled w fid f' cref c :
  escalation_idle w → Flow.child f' = Some cref →
  children w !! cref = Some c → signalled_or_gone c →
  escalation_idle (set_flow fid f' w).
Proof.
  intros [HA HB] Hch Hc Hs. split; simpl; [done|].
  intros fid0 f0 Hf0 Hp.
  apply list_lookup_insert_Some in Hf0 as [(<- & <- & _)|(Hne & Hf0)].
  - by exists cref, c.
  - by apply (HB fid0 f0).
Qed.

Lemma escalation_add_flow w f :
  escalation_idle w → Flow.forceTimer f ≠ Pending →
  escalation_idle (add_flow f w).
Proof.
  intros [HA HB] Hn. split; simpl; [done|]. intros fid0 f0 Hf0 Hp.
  apply lookup_app_Some in Hf0 as [Hf0|[_ Hf0]]; [by apply (HB fid0 f0)|].
  apply list_lookup_singleton_Some in Hf0 as [_ <-]. done.
Qed.

Lemma escalation_start w fid f cwd pid :
  escalation_idle w → is_Some (flows w !! fid) → Flow.forceTimer f ≠ Pending →
  escalation_idle (start fid f cwd pid w).
Proof.
  intros [HA HB] [f0 Hf0] Hn. unfold start. split; simpl.
  - rewrite register_children. simpl. apply Forall_app. split; [done|].
    constructor; [|done]. simpl. apply not_elem_of_nil.
  - rewrite register_flows, register_children. simpl.
    intros fid1 f1 Hf1 Hp.
    apply list_lookup_insert_Some in Hf1 as [(<- & <- & _)|(Hne & Hf1)];
      [done|].
    destruct (HB fid1 f1 Hf1 Hp) as (cr & c0 & Hch & Hc0 & Hsg).
    exists cr, c0. split_and!; [done| |done]. by apply lookup_app_l_Some.
Qed.

Lemma escalation_kill pid w :
  escalation_idle w → escalation_idle (snd (kill pid w)).
Proof.
  intros Hi. unfold kill, on_child. destruct (running w !! pid) as [cref|]; [|done].
  simpl. destruct (children w !! cref) as [c|] eqn:Hc.
  - apply (escalation_ext (set_child cref (ChildProcess.kill SIGTERM c) w));
      [done|done|].
    apply (escalation_set_child w cref c); [done|done| |].
    + apply kill_sigterm_signals.
      destruct Hi as [HA _]. by apply (Forall_lookup_1 _ _ _ _ HA Hc).
    + intros _. apply kill_signalled.
  - by apply (escalation_ext w).
Qed.

(** Every step keeps the second timer idle. *)
Lemma escalation_step w e : escalation_idle w → escalation_idle (step w e).
Proof.
  intros Hi. pose proof Hi as [HA HB]. destruct e; simpl.
  - by apply escalation_add_flow.
  - unfold exec_resume. destruct (flows w !! fid) as [f|] eqn:Hf; [|done].
    destruct (Flow.kind f); [|done].
    destruct (Flow.child f) eqn:Hc; [done|].
    destruct (Flow.promise f); try done.
    destruct (Flow.validation f) as [v|]; [|done].
    destruct (negb (ValidationResult.valid v)).
    + by apply (escalation_set_flow w fid f).
    + apply escalation_start; [done|eauto|].
      intros Hp. destruct (HB fid f Hf Hp) as (? & ? & Hch & _). congruence.
  - unfold stream. apply escalation_start.
    + by apply escalation_add_flow.
    + simpl. rewrite lookup_app_r, Nat.sub_diag by lia. eauto.
    + done.
  - unfold on_data. destruct (spawned fid w) as [[[f cref] c]|] eqn:Hs; [|done].
    destruct (spawned_flow _ _ _ _ _ Hs) as (Hf & _ & _).
    repeat case_match; try done; by apply (escalation_set_flow w fid f).
  - unfold on_timeout. destruct (spawned fid w) as [[[f cref] c]|] eqn:Hs; [|done].
    destruct (spawned_flow _ _ _ _ _ Hs) as (Hf & Hch & Hc).
    destruct (Flow.timeoutHandle f); try done.
    assert (escalation_idle (set_child cref (ChildProcess.kill SIGTERM c) w))
      as Hi'.
    { apply (escalation_set_child w cref c); [done|done| |].
      - apply kill_sigterm_signals. by apply (Forall_lookup_1 _ _ _ _ HA Hc).
      - intros _. apply kill_signalled. }
    apply (escalation_set_flow_signalled _ _ _ cref (ChildProcess.kill SIGTERM c));
      [done| | |apply kill_signalled].
    + by destruct (Flow.kind f).
    + simpl. apply list_lookup_insert_eq. by eapply lookup_lt_Some.
  - unfold on_force_kill.
    destruct (spawned fid w) as [[[f cref] c]|] eqn:Hs; [|done].
    destruct (spawned_flow _ _ _ _ _ Hs) as (Hf & Hch & Hc).
    destruct (Flow.forceTimer f) eqn:Hp; try done.
    destruct (ChildProcess.killed c) eqn:Hk; simpl.
    + by apply (escalation_set_flow w fid f).
    + destruct (HB fid f Hf Hp) as (cr & c0 & Hch0 & Hc0 & [Hsg|Hsg]);
        assert (cr = cref) as -> by congruence;
        assert (c0 = c) as -> by congruence; [congruence|].
      assert (ChildProcess.kill SIGKILL c = c) as ->
        by (unfold ChildProcess.kill; by rewrite Hsg).
      apply (escalation_set_flow _ fid f); [|done|done].
      apply (escalation_set_child w cref c); [done|done| |done].
      by apply (Forall_lookup_1 _ _ _ _ HA Hc).
  - unfold on_close. destruct (spawned fid w) as [[[f cref] c]|] eqn:Hs; [|done].
    destruct (spawned_flow _ _ _ _ _ Hs) as (Hf & _ & _).
    unfold push_result.
    assert (escalation_idle (unregister c w)) as Hu.
    { apply (escalation_ext w);
        [apply unregister_children | apply unregister_flows | done]. }
    destruct (Flow.kind f); [|destruct (ExecOptions.onExit (Flow.options f))].
    + apply (escalation_set_flow _ fid f); [|by rewrite unregister_flows|done].
      by apply (escalation_ext (unregister c w)).
    + apply (escalation_set_flow _ fid f); [done|by rewrite unregister_flows|done].
    + apply (escalation_set_flow _ fid f); [done|by rewrite unregister_flows|done].
  - unfold on_error. destruct (spawned fid w) as [[[f cref] c]|] eqn:Hs; [|done].
    destruct (spawned_flow _ _ _ _ _ Hs) as (Hf & _ & _).
    apply (escalation_set_flow _ fid f); [|by rewrite unregister_flows|done].
    apply (escalation_ext w);
      [apply unregister_children | apply unregister_flows | done].
  - by apply escalation_kill.
  - unfold killAll; simpl. generalize ((map_to_list (running w)).*1).
    intros pids. clear HA HB. revert w Hi.
    induction pids as [|p pids IH]; intros w Hi; simpl; [done|].
    apply IH. by apply escalation_kill.
  - by apply (escalation_ext w).
  - unfold process_exit, on_child. destruct (children w !! cref) as [c|] eqn:Hc;
      [|done].
    apply (escalation_set_child w cref c); [done|done| |].
    + simpl. by apply (Forall_lookup_1 _ _ _ _ HA Hc).
    + intros _. right. done.
Qed.

End Escalation.

(** X17. In no state of a unit has any spawned process received SIGKILL.
    When the second timer of [exec] runs, either SIGTERM was delivered, and
    then [child.killed] is true and the guard skips the kill, or the process
    had already exited, and then the kill has nothing to deliver to.  ([kill]
    and [killAll] send SIGTERM only; [stream] has no second timer.) *)
Theorem sigkill_never_sent (config : ShellExecConfig.t) (cwd : jsstring)
    (es : list Event) (cref : nat) (c : ChildProcess.t) :
  children (run (create config cwd) es) !! cref = Some c →
  SIGKILL ∉ ChildProcess.signals c.
Proof.
  assert (escalation_idle (run (create config cwd) es)) as [HA _].
  { assert (escalation_idle (create config cwd)) as H0.
    { split; [constructor|]. intros fid f Hf. simpl in Hf.
      by rewrite lookup_nil in Hf. }
    revert H0. generalize (create config cwd).
    induction es as [|e es IH]; intros w Hi; simpl; [done|].
    apply IH. by apply escalation_step. }
  intros Hc. by apply (Forall_lookup_1 _ _ _ _ HA Hc).
Qed.

Lemma sigkill_never_sent_witness :
  children Sample.stubborn !! 0%nat
  = Some (ChildProcess.kill SIGTERM
            (spawn (JsString.lit "node server.js") Sample.cwd true (Some 4242)))
  ∧ SIGKILL ∉ [SIGTERM].
Proof.
  assert (children Sample.stubborn !! 0%nat
          = Some (ChildProcess.kill SIGTERM
                    (spawn (JsString.lit "node server.js") Sample.cwd true
                       (Some 4242)))) as Hc by (vm_compute; reflexivity).
  split; [exact Hc|].
  apply (sigkill_never_sent ShellExecConfig.empty Sample.cwd
           [ExecCall (JsString.lit "node server.js") Sample.timeout_100 0;
            ExecResume 0 (Some 4242); WatchdogFire 0; ForceKillFire 0]
           0 _ Hc).
Defined.

(** ** The prototype's pattern analysis *)

Section PatternAnalysis.

Import Prototype.

Implicit Types (history : list ExecResult.t) (counts : list (jsstring * Z)).

Lemma eqb_refl_string (s : jsstring) : JsString.eqb s s = true.
Proof. by apply eqb_spec. Qed.

Lemma eqb_neq (s p : jsstring) : s ≠ p → JsString.eqb s p = false.
Proof. intros Hne. apply not_true_is_false. by rewrite eqb_spec. Qed.

Lemma or_number_succ n : or_number (Some n) 0 + 1 = n + 1.
Proof. simpl. destruct (Z.eqb_spec n 0); lia. Qed.

(** One more for the bumped key, nothing for the others. *)
Lemma get_count_bump k k' counts :
  get_count k (bump k' counts)
  = get_count k counts + (if JsString.eqb k' k then 1 else 0).
Proof.
  induction counts as [|[k0 n] counts IH].
  - simpl. destruct (JsString.eqb k' k); lia.
  - cbn [bump]. destruct (JsString.eqb k0 k') eqn:H0.
    + apply eqb_spec in H0 as ->. cbn [get_count]. rewrite or_number_succ.
      destruct (JsString.eqb k' k); lia.
    + cbn [get_count]. rewrite IH.
      destruct (JsString.eqb k0 k) eqn:H1; [|done].
      apply eqb_spec in H1 as ->.
      assert (k' ≠ k) as Hne by (intros ->; by rewrite eqb_refl_string in H0).
      rewrite (eqb_neq k' k Hne). lia.
Qed.

Lemma keys_bump k counts :
  (bump k counts).*1
  = if bool_decide (k ∈ counts.*1) then counts.*1 else counts.*1 ++ [k].
Proof.
  induction counts as [|[k0 n] counts IH]; [done|].
  cbn [bump]. destruct (JsString.eqb k0 k) eqn:H0.
  - apply eqb_spec in H0 as ->. simpl.
    rewrite bool_decide_eq_true_2; [done|left].
  - rewrite !fmap_cons, IH. cbn [fst].
    assert (k0 ≠ k) as Hne by (intros ->; by rewrite eqb_refl_string in H0).
    destruct (bool_decide (k ∈ counts.*1)) eqn:Hd.
    + apply bool_decide_eq_true_1 in Hd.
      rewrite bool_decide_eq_true_2; [done|by right].
    + apply bool_decide_eq_false_1 in Hd.
      rewrite bool_decide_eq_false_2; [done|].
      intros Hin. inversion Hin; subst; done.
Qed.

Lemma bump_invariant k counts :
  NoDup counts.*1 → Forall (λ p, 1 ≤ snd p) counts →
  NoDup (bump k counts).*1 ∧ Forall (λ p, 1 ≤ snd p) (bump k counts).
Proof.
  intros Hnd Hpos. split.
  - rewrite keys_bump. case_bool_decide; [done|].
    apply NoDup_app. split_and!; [done| |apply NoDup_singleton].
    intros x Hx Hk. apply list_elem_of_singleton in Hk as ->. done.
  - clear Hnd. induction counts as [|[k0 n] counts IH].
    + by repeat constructor.
    + apply Forall_cons in Hpos as [Hn Hpos]. cbn [bump].
      destruct (JsString.eqb k0 k).
      * constructor; [|done]. cbn [snd] in *. rewrite or_number_succ. lia.
      * constructor; [done|]. by apply IH.
Qed.

Lemma count_base_cons k r history :
  count_base k (r :: history)
  = count_base k history
    + (if JsString.eqb (commandBase (ExecResult.command r)) k then 1 else 0).
Proof.
  unfold count_base. simpl.
  destruct (JsString.eqb (commandBase (ExecResult.command r)) k); simpl; lia.
Qed.

(** The tally loop, started from any tally. *)
Lemma tally_from history : ∀ counts,
  NoDup counts.*1 → Forall (λ p, 1 ≤ snd p) counts →
  let final :=
    foldl (λ counts r, bump (commandBase (ExecResult.command r)) counts)
      counts history in
  (∀ k, get_count k final = get_count k counts + count_base k history)
  ∧ NoDup final.*1 ∧ Forall (λ p, 1 ≤ snd p) final.
Proof.
  induction history as [|r history IH]; intros counts Hnd Hpos; simpl.
  - split_and!; try done. intros k. unfold count_base. simpl. lia.
  - destruct (bump_invariant (commandBase (ExecResult.command r)) counts Hnd Hpos)
      as [Hnd' Hpos'].
    destruct (IH _ Hnd' Hpos') as (Hget & ? & ?). split_and!; try done.
    intros k. rewrite Hget, get_count_bump, count_base_cons. lia.
Qed.

Lemma insert_desc_perm x counts : insert_desc x counts ≡ₚ x :: counts.
Proof.
  induction counts as [|y counts IH]; simpl; [done|].
  destruct (snd x <? snd y); [|done].
  rewrite IH. apply Permutation_swap.
Qed.

Lemma insert_desc_sorted x counts :
  StronglySorted (λ a b, snd b ≤ snd a) counts →
  StronglySorted (λ a b, snd b ≤ snd a) (insert_desc x counts).
Proof.
  induction 1 as [|y counts Hs IH Hy]; simpl.
  - by repeat constructor.
  - destruct (Z.ltb_spec (snd x) (snd y)).
    + constructor; [done|].
      rewrite insert_desc_perm. constructor; [lia|done].
    + constructor; [by constructor|].
      constructor; [done|].
      eapply Forall_impl; [exact Hy|]. simpl. intros z Hz. lia.
Qed.

Lemma sort_desc_spec counts :
  sort_desc counts ≡ₚ counts
  ∧ StronglySorted (λ a b, snd b ≤ snd a) (sort_desc counts).
Proof.
  unfold sort_desc. induction counts as [|x counts [IHp IHs]]; simpl.
  - split; [done|constructor].
  - split.
    + by rewrite insert_desc_perm, IHp.
    + by apply insert_desc_sorted.
Qed.

Lemma foldl_duration history : ∀ acc,
  foldl (λ sum r, sum + ExecResult.duration r) acc history
  = acc + total_duration history.
Proof.
  induction history as [|r history IH]; intros acc; simpl; [lia|].
  rewrite IH. unfold total_duration. simpl. lia.
Qed.

Lemma filter_split history :
  (length (List.filter (λ r, (ExecResult.exitCode r =? 0)%Z) history)
   + length (failures history))%nat
  = length history.
Proof.
  unfold failures. induction history as [|r history IH]; simpl; [done|].
  destruct (ExecResult.exitCode r =? 0); simpl; lia.
Qed.

Lemma get_count_elem k n counts :
  NoDup counts.*1 → (k, n) ∈ counts → get_count k counts = n.
Proof.
  induction counts as [|[k0 n0] counts IH]; intros Hnd Hin; [by inversion Hin|].
  rewrite fmap_cons in Hnd. apply NoDup_cons in Hnd as [Hk0 Hnd]. simpl.
  inversion Hin; subst.
  - by rewrite eqb_refl_string.
  - rewrite eqb_neq; [by apply IH|]. intros ->. apply Hk0.
    apply list_elem_of_fmap. by exists (k, n).
Qed.

Lemma get_count_absent k counts : k ∉ counts.*1 → get_count k counts = 0.
Proof.
  induction counts as [|[k0 n0] counts IH]; intros Hk; [done|].
  rewrite fmap_cons in Hk. apply not_elem_of_cons in Hk as [Hne Hk]. simpl.
  rewrite eqb_neq by done. by apply IH.
Qed.

Lemma StronglySorted_lookup {A} (R : relation A) (l : list A) i j a b :
  StronglySorted R l → (i < j)%nat → l !! i = Some a → l !! j = Some b → R a b.
Proof.
  intros Hs. revert i j. induction Hs as [|x l Hs IH Hx]; intros i j Hij Ha Hb.
  - by rewrite lookup_nil in Ha.
  - destruct j as [|j]; [lia|]. destruct i as [|i]; simpl in *.
    + injection Ha as <-. rewrite Forall_forall in Hx. apply Hx.
      by eapply list_elem_of_lookup_2.
    + apply (IH i j); [lia|done|done].
Qed.

(** What the tally loop computes. *)
Lemma tally_spec (history : list ExecResult.t) :
  NoDup (Prototype.commandCounts history).*1
  ∧ Forall (λ p, 1 ≤ snd p) (Prototype.commandCounts history)
  ∧ (∀ k, get_count k (Prototype.commandCounts history) = count_base k history)
  ∧ (∀ k n, (k, n) ∈ Prototype.commandCounts history →
            n = count_base k history)
  ∧ (∀ k, k ∈ (Prototype.commandCounts history).*1 ↔ 0 < count_base k history).
Proof.
  destruct (tally_from history [] (NoDup_nil_2 : NoDup ([] : list (jsstring * Z)).*1)
              (Forall_nil_2 _)) as (Hget & Hnd & Hpos).
  fold (Prototype.commandCounts history) in Hget, Hnd, Hpos.
  assert (∀ k, get_count k (Prototype.commandCounts history)
               = count_base k history) as Hget'.
  { intros k. rewrite (Hget k). simpl. lia. }
  clear Hget. rename Hget' into Hget.
  assert (∀ k n, (k, n) ∈ Prototype.commandCounts history →
                 n = count_base k history) as Hmem.
  { intros k n Hin. rewrite <- Hget.
    by rewrite (get_count_elem k n _ Hnd Hin). }
  split_and!; try done.
  - intros k. split.
    + intros Hk. apply list_elem_of_fmap in Hk as ([k' n] & -> & Hin).
      cbn [fst]. rewrite <- (Hmem _ _ Hin). rewrite Forall_forall in Hpos.
      specialize (Hpos _ Hin). simpl in *. lia.
    + intros Hk. destruct (decide (k ∈ (Prototype.commandCounts history).*1))
        as [|Hn]; [done|].
      rewrite <- Hget in Hk.
      rewrite (get_count_absent _ _ Hn) in Hk. lia.
Qed.

End PatternAnalysis.

(** X18. The analysis counts every result, and its two quotients stay in
    range on every history, the empty one included.  The success rate is a
    number between 0 and 1: it is 1 when the history is not empty and no
    result failed, and 0 when every result failed.  The average duration is
    a number that lies between any two bounds of the recorded durations.
    (These are statements that rounding the quotient to a double keeps.) *)
Theorem analyzePatterns_rates (history : list ExecResult.t) :
  ∃ rate avg,
    Prototype.totalExecutions (Prototype.analyzePatterns history)
    = Z.of_nat (length history)
    ∧ Prototype.successRate (Prototype.analyzePatterns history)
      = Prototype.Finite rate
    ∧ Prototype.averageDuration (Prototype.analyzePatterns history)
      = Prototype.Finite avg
    ∧ (0 <= rate)%Q ∧ (rate <= 1)%Q
    ∧ (history ≠ [] → failures history = [] → (rate == 1)%Q)
    ∧ (failures history = history → (rate == 0)%Q)
    ∧ (∀ lo hi,
         history ≠ [] →
         Forall (λ r, lo ≤ ExecResult.duration r ≤ hi) history →
         (inject_Z lo <= avg)%Q ∧ (avg <= inject_Z hi)%Q).
Proof.
  set (total := Z.of_nat (length history)).
  set (successes := Z.of_nat (length history - length (failures history))).
  pose proof (filter_split history) as Hsplit.
  assert (Z.of_nat
            (length (List.filter (λ r, ExecResult.exitCode r =? 0) history))
          = successes) as Hsucc by (unfold successes; lia).
  assert (0 ≤ successes ≤ total) as Hrange by (unfold successes, total; lia).
  unfold Prototype.analyzePatterns. simpl. fold total. rewrite Hsucc.
  destruct (Z.ltb_spec 0 total) as [Hpos|Hzero].
  - assert (history ≠ []) as Hne.
    { intros ->. unfold total in Hpos. simpl in Hpos. lia. }
    unfold Prototype.divide. destruct (Z.eqb_spec total 0); [lia|].
    rewrite foldl_duration, Z.add_0_l.
    assert (0 < inject_Z total)%Q as HposQ by (unfold Qlt; simpl; lia).
    eexists _, _. split_and!; try reflexivity.
    + apply Qle_shift_div_l; [done|].
      rewrite Qmult_0_l. unfold Qle. simpl. lia.
    + apply Qle_shift_div_r; [done|].
      rewrite Qmult_1_l. unfold Qle. simpl. lia.
    + intros _ Hnone.
      assert (successes = total) as ->.
      { unfold successes, total. rewrite Hnone. simpl. lia. }
      unfold Qdiv. apply Qmult_inv_r. intros Hq.
      rewrite Hq in HposQ. by apply Qlt_irrefl in HposQ.
    + intros Hall.
      assert (successes = 0) as ->.
      { unfold successes. rewrite Hall. lia. }
      unfold Qdiv. apply Qmult_0_l.
    + intros lo hi _ Hbound.
      assert (lo * total ≤ total_duration history ≤ hi * total) as Hsum.
      { unfold total. clear -Hbound. unfold total_duration.
        induction Hbound as [|r history Hr _ IH]; simpl; [lia|].
        rewrite Nat2Z.inj_succ. lia. }
      split.
      * apply Qle_shift_div_l; [done|].
        rewrite <- inject_Z_mult. rewrite <- Zle_Qle. lia.
      * apply Qle_shift_div_r; [done|].
        rewrite <- inject_Z_mult. rewrite <- Zle_Qle. lia.
  - assert (history = []) as ->.
    { destruct history; [done|]. unfold total in Hzero. simpl in Hzero. lia. }
    exists 0%Q, 0%Q. split_and!; try done.
Qed.

(** X19. [recentFailures] holds at most five results, all with a non-zero
    exit code: the last ones of the failed results, in history order, and all
    of them when there are no more than five. *)
Theorem recentFailures_last_five (history : list ExecResult.t) :
  let recent := Prototype.recentFailures (Prototype.analyzePatterns history) in
  (length recent ≤ 5)%nat
  ∧ (∀ r, r ∈ recent → ExecResult.exitCode r ≠ 0)
  ∧ recent `suffix_of` failures history
  ∧ recent `sublist_of` history
  ∧ length recent = min 5 (length (failures history))
  ∧ ((length (failures history) ≤ 5)%nat → recent = failures history).
Proof.
  intros recent.
  assert (recent = drop (length (failures history) - 5) (failures history))
    as -> by done.
  assert (∀ l : list ExecResult.t,
            List.filter (λ r, negb (ExecResult.exitCode r =? 0)) l
              `sublist_of` l) as Hsub.
  { induction l as [|r l IH]; simpl; [done|].
    destruct (negb (ExecResult.exitCode r =? 0));
      [by apply sublist_skip | by apply sublist_cons]. }
  split_and!.
  - rewrite length_drop. lia.
  - intros r Hr.
    assert (r ∈ failures history) as Hin.
    { eapply elem_of_sublist; [exact Hr|]. apply sublist_drop. }
    apply list_elem_of_In, filter_In in Hin as [_ Hf].
    apply negb_true_iff in Hf. by destruct (Z.eqb_spec (ExecResult.exitCode r) 0).
  - apply suffix_drop.
  - etrans; [apply sublist_drop|]. apply Hsub.
  - rewrite length_drop. lia.
  - intros Hle. replace (length (failures history) - 5)%nat with 0%nat by lia.
    done.
Qed.

(** X20. The tally behind [mostUsedCommands] counts first words: each word is
    a key once, with a count of at least 1, and the count of a word is the
    number of recorded commands that start with it (0, that is absent, for a
    word that starts none). *)
Theorem commandCounts_tally (history : list ExecResult.t) :
  NoDup (Prototype.commandCounts history).*1
  ∧ Forall (λ p, 1 ≤ snd p) (Prototype.commandCounts history)
  ∧ (∀ k, get_count k (Prototype.commandCounts history) = count_base k history)
  ∧ (∀ k n, (k, n) ∈ Prototype.commandCounts history →
            n = count_base k history)
  ∧ (∀ k, k ∈ (Prototype.commandCounts history).*1 ↔ 0 < count_base k history).
Proof. apply tally_spec. Qed.

(** X21. [mostUsedCommands] lists at most five first words, each once and
    each the first word of a recorded command, in order of falling frequency;
    no word left out is more frequent than a listed one. *)
Theorem mostUsedCommands_ranked (history : list ExecResult.t) :
  let most := Prototype.mostUsedCommands (Prototype.analyzePatterns history) in
  (length most ≤ 5)%nat
  ∧ NoDup most
  ∧ (∀ k, k ∈ most → 0 < count_base k history)
  ∧ (∀ i j k k', (i < j)%nat → most !! i = Some k → most !! j = Some k' →
        count_base k' history ≤ count_base k history)
  ∧ (∀ k k', k ∈ most → k' ∉ most →
        count_base k' history ≤ count_base k history).
Proof.
  intros most.
  destruct (tally_spec history) as (Hnd & Hpos & _ & Hmem & _).
  destruct (sort_desc_spec (Prototype.commandCounts history)) as [Hperm Hsort].
  set (counts := Prototype.commandCounts history) in *.
  set (sorted := Prototype.sort_desc counts) in *.
  assert (most = (take 5 sorted).*1) as -> by done.
  assert (∀ k n, (k, n) ∈ sorted → n = count_base k history ∧ 1 ≤ n) as Hin.
  { intros k n Hk. rewrite Hperm in Hk. split; [by apply Hmem|].
    rewrite Forall_forall in Hpos. apply (Hpos _ Hk). }
  assert (StronglySorted (λ a b, snd b ≤ snd a) (take 5 sorted ++ drop 5 sorted))
    as Hsplit by by rewrite take_drop.
  split_and!.
  - rewrite length_fmap, length_take. lia.
  - rewrite fmap_take. apply (sublist_NoDup _ (sorted.*1)).
    + by rewrite Hperm.
    + apply sublist_take.
  - intros k Hk. apply list_elem_of_fmap in Hk as ([k0 n] & -> & Hk).
    apply (elem_of_sublist _ sorted) in Hk; [|apply sublist_take].
    cbn [fst]. destruct (Hin _ _ Hk) as [<- ?]. lia.
  - intros i j k k' Hij Hi Hj.
    apply list_lookup_fmap_Some in Hi as ([k0 n] & -> & Hi).
    apply list_lookup_fmap_Some in Hj as ([k1 n'] & -> & Hj).
    pose proof (StronglySorted_lookup _ _ i j _ _
                  (StronglySorted_app_1_l _ _ _ Hsplit) Hij Hi Hj) as Hle.
    apply list_elem_of_lookup_2 in Hi, Hj.
    apply (elem_of_sublist _ sorted) in Hi; [|apply sublist_take].
    apply (elem_of_sublist _ sorted) in Hj; [|apply sublist_take].
    cbn [fst].
    destruct (Hin _ _ Hi) as [<- _]. destruct (Hin _ _ Hj) as [<- _]. done.
  - intros k k' Hk Hk'.
    apply list_elem_of_fmap in Hk as ([k0 n] & -> & Hk).
    pose proof Hk as Hks.
    apply (elem_of_sublist _ sorted) in Hks; [|apply sublist_take].
    cbn [fst]. destruct (Hin _ _ Hks) as [<- Hn].
    destruct (decide (k' ∈ counts.*1)) as [Hc|Hc].
    + apply list_elem_of_fmap in Hc as ([k1 n'] & -> & Hc).
      pose proof Hc as Hc'. rewrite <- Hperm in Hc'.
      cbn [fst] in *. destruct (Hin _ _ Hc') as [<- _].
      rewrite <- (take_drop 5 sorted) in Hc'.
      apply elem_of_app in Hc' as [Hc'|Hc'].
      * exfalso. apply Hk'. apply list_elem_of_fmap. by exists (k1, n').
      * apply (StronglySorted_app_1_elem_of _ _ _ _ _ Hsplit Hk Hc').
    + destruct (tally_spec history) as (_ & _ & _ & _ & Hkeys).
      assert (¬ 0 < count_base k' history) by (by rewrite <- Hkeys).
      lia.
Qed.

(** ** A fresh unit, and a full one *)

(** X22. A unit fresh from [create] has an empty history and an empty
    registry.  Neither limit can be zero: a configured [maxConcurrent] of 0
    becomes 5.  A negative [maxConcurrent] is kept and makes the unit reject
    every command.  An explicitly empty allow-list is kept and switches the
    allow-list gate off: with a positive limit the fresh unit accepts exactly
    the commands in which no block-list pattern occurs. *)
Theorem create_fresh (config : ShellExecConfig.t) (cwd command : jsstring) :
  let w := create config cwd in
  wf w
  ∧ getHistory_contents w = []
  ∧ getRunningProcesses w = []
  ∧ Props.maxConcurrent (props w) ≠ 0
  ∧ Props.defaultTimeout (props w) ≠ 0
  ∧ (ShellExecConfig.maxConcurrent config = Some 0 →
     Props.maxConcurrent (props w) = 5)
  ∧ (∀ n, ShellExecConfig.maxConcurrent config = Some n → n < 0 →
          ValidationResult.valid (validate w command) = false)
  ∧ (ShellExecConfig.allowedCommands config = Some [] →
     0 < Props.maxConcurrent (props w) →
     (ValidationResult.valid (validate w command) = true
      ↔ ∀ b, b ∈ Props.blockedCommands (props w) → ¬ occurs_in b command)).
Proof.
  intros w.
  assert (running_size w = 0) as Hsize by done.
  destruct (validate_valid_spec w command) as [Hiff _].
  split_and!.
  - apply wf_create.
  - done.
  - unfold getRunningProcesses. change (running w) with (∅ : gmap Z nat).
    by rewrite map_to_list_empty.
  - simpl. destruct (ShellExecConfig.maxConcurrent config) as [n|]; simpl; [|done].
    by destruct (Z.eqb_spec n 0).
  - simpl. destruct (ShellExecConfig.defaultTimeout config) as [n|]; simpl; [|done].
    by destruct (Z.eqb_spec n 0).
  - simpl. by intros ->.
  - intros n Hn Hneg. apply not_true_is_false. rewrite Hiff.
    intros (_ & _ & Hlt). rewrite Hsize in Hlt. simpl in Hlt.
    rewrite Hn in Hlt. simpl in Hlt. destruct (Z.eqb_spec n 0); lia.
  - intros Ha Hpos. rewrite Hiff. simpl. rewrite Ha. simpl. split.
    + by intros (H & _).
    + intros H. split_and!; [done|by left|]. rewrite Hsize. exact Hpos.
Qed.

(** X23. When the registry is full, an [exec] of a command that passes the
    block-list and the allow-list is rejected with the concurrency reason;
    no process is spawned and registry, history and results stay as they
    were. *)
Theorem exec_rejected_when_full (w : World) (command : jsstring)
    (options : ExecOptions.t) (now : Z) (pid : option Z)
    (Hnb : ∀ b, b ∈ Props.blockedCommands (props w) → ¬ occurs_in b command)
    (Hal : Props.allowedCommands (props w) = []
           ∨ isAllowed command (Props.allowedCommands (props w)) = true)
    (Hfull : Props.maxConcurrent (props w) ≤ running_size w) :
  let w' := exec_now command options now pid w in
  promise_of (length (flows w)) w'
  = Some (Rejected
            (JsString.lit "[shell-exec] Command blocked: "
               ++ JsString.lit "Maximum concurrent processes reached: "
               ++ JsString.of_Z (Props.maxConcurrent (props w))))
  ∧ children w' = children w
  ∧ running w' = running w
  ∧ hist_part w' = hist_part w.
Proof.
  intros w'. pose proof (validate_busy_spec w command Hnb Hal Hfull) as Hv.
  unfold w', exec_now, exec_resume, exec_call. simpl.
  rewrite lookup_app_r, Nat.sub_diag by lia. simpl. rewrite Hv. simpl.
  split_and!; try done.
  unfold promise_of. simpl.
  rewrite list_lookup_insert_eq by (rewrite length_app; simpl; lia). done.
Qed.

Lemma exec_rejected_when_full_witness :
  promise_of 1
    (exec_now (JsString.lit "echo hi") ExecOptions.empty 3 (Some 4243)
       Scenario.busy)
  = Some (Rejected
            (JsString.lit "[shell-exec] Command blocked: "
               ++ JsString.lit "Maximum concurrent processes reached: "
               ++ JsString.of_Z 1))
  ∧ children (exec_now (JsString.lit "echo hi") ExecOptions.empty 3 (Some 4243)
                Scenario.busy)
    = children Scenario.busy
  ∧ running (exec_now (JsString.lit "echo hi") ExecOptions.empty 3 (Some 4243)
               Scenario.busy)
    = running Scenario.busy
  ∧ hist_part (exec_now (JsString.lit "echo hi") ExecOptions.empty 3 (Some 4243)
                 Scenario.busy)
    = hist_part Scenario.busy.
Proof.
  apply (exec_rejected_when_full Scenario.busy (JsString.lit "echo hi")
           ExecOptions.empty 3 (Some 4243)).
  - apply first_blocked_none. reflexivity.
  - right. reflexivity.
  - vm_compute. discriminate.
Defined.

(** ** [kill] during an [exec], and the watchdog of [stream] *)

Section KillDuringExec.

Implicit Types (w : World) (f : Flow.t).

Lemma kill_spawned w fid f cref c p :
  spawned fid w = Some (f, cref, c) → running w !! p = Some cref →
  spawned fid (snd (kill p w)) = Some (f, cref, ChildProcess.kill SIGTERM c).
Proof.
  intros Hs Hr. destruct (spawned_flow _ _ _ _ _ Hs) as (Hf & Hch & Hc).
  unfold spawned. rewrite kill_flows, kill_children, Hf, Hch, Hr, Hc.
  by rewrite list_lookup_insert_eq by (by eapply lookup_lt_Some).
Qed.

End KillDuringExec.

(** X24. [kill(pid)] of a running [exec] does not settle it: the result is
    produced when the process closes.  That result has [killed = false],
    because only the watchdog sets the flag, although the process received
    SIGTERM from the unit; the process id was already deregistered by
    [kill]. *)
Theorem kill_then_close (w : World) (command : jsstring)
    (options : ExecOptions.t) (now : Z) (p : Z)
    (chunks : list (Channel * jsstring)) (exitCode : option Z) (closed : Z)
    (Hwf : wf w)
    (Hvalid : ValidationResult.valid (validate w command) = true)
    (Hp : p ≠ 0) :
  let fid := length (flows w) in
  let w1 := exec_now command options now (Some p) w in
  let w' := run w1 ([Kill p] ++ feed fid chunks ++ [Close fid exitCode closed]) in
  fst (kill p w1) = true
  ∧ promise_of fid (snd (kill p w1)) = Some Waiting
  ∧ running (snd (kill p w1)) !! p = None
  ∧ promise_of fid w' = Some (Resolved (length (results w)))
  ∧ history w' = history w ++ [length (results w)]
  ∧ ExecResult.killed <$> results w' !! length (results w) = Some false
  ∧ ChildProcess.signals <$> child_of fid w' = Some [SIGTERM].
Proof.
  intros fid w1 w'.
  destruct (exec_now_state w command options now (Some p) Hvalid) as (Hs & Hh).
  destruct (exec_now_registry w command options now (Some p) Hvalid) as [Hr _].
  fold fid in Hs. fold w1 in Hs, Hh, Hr.
  destruct (Z.eqb_spec p 0) as [|_]; [done|].
  assert (running w1 !! p = Some (length (children w))) as Hrp
    by (rewrite Hr; apply lookup_insert_eq).
  pose proof (kill_spawned w1 fid _ _ _ p Hs Hrp) as Hs2.
  set (w2 := snd (kill p w1)) in *.
  assert (hist_part w2 = hist_part w1) as Hh2 by apply hist_part_kill.
  destruct (feed_exec_flow chunks w2 fid _ _ _ Hs2 eq_refl)
    as (Hs3 & Hh3 & _ & _).
  set (w3 := run w2 (feed fid chunks)) in *.
  assert (w' = on_close fid exitCode closed w3) as ->.
  { unfold w'. rewrite run_app, run_cons, run_app. reflexivity. }
  assert (wf w3) as Hwf3.
  { unfold w3, w2. apply wf_run. apply (wf_step _ (Kill p)).
    by apply wf_exec_now. }
  destruct (on_close_exec w3 fid _ _ _ exitCode closed Hwf3 Hs3 eq_refl)
    as (Hhist & Hres & _).
  destruct (on_close_exec_promise w3 fid _ _ _ exitCode closed Hs3 eq_refl)
    as (Hprom & _).
  rewrite Hh2, Hh in Hh3. unfold hist_part in Hh3. injection Hh3 as Hh4 Hh5 Hh6.
  destruct (spawned_flow _ _ _ _ _ Hs2) as (Hf2 & _ & _).
  split_and!.
  - unfold kill. by rewrite Hrp.
  - unfold promise_of. fold w2. by rewrite Hf2.
  - unfold w2. rewrite kill_running. apply lookup_delete_eq.
  - by rewrite Hprom, Hh6.
  - rewrite Hhist, Hh6. unfold history. by rewrite Hh4, Hh5.
  - rewrite Hres, Hh6. by rewrite lookup_app_r, Nat.sub_diag by lia.
  - unfold child_of, spawned, on_close. rewrite Hs3. unfold push_result. simpl.
    rewrite unregister_flows, unregister_children.
    destruct (spawned_flow _ _ _ _ _ Hs3) as (Hf3 & _ & Hc3).
    rewrite list_lookup_insert_eq by (by eapply lookup_lt_Some). simpl.
    by rewrite Hc3.
Qed.

Lemma kill_then_close_witness :
  let w' :=
    run Sample.echo_running
      ([Kill 4242] ++ feed 0 [] ++ [Close 0 None 1020]) in
  fst (kill 4242 Sample.echo_running) = true
  ∧ promise_of 0 (snd (kill 4242 Sample.echo_running)) = Some Waiting
  ∧ running (snd (kill 4242 Sample.echo_running)) !! 4242 = None
  ∧ promise_of 0 w' = Some (Resolved 0)
  ∧ history w' = [] ++ [0%nat]
  ∧ ExecResult.killed <$> results w' !! 0%nat = Some false
  ∧ ChildProcess.signals <$> child_of 0 w' = Some [SIGTERM].
Proof.
  assert (wf Sample.shell) as Hwf by (vm_compute; lia).
  apply (kill_then_close Sample.shell (JsString.lit "echo hi")
           ExecOptions.empty 1000 4242 [] None 1020 Hwf);
    [reflexivity | discriminate].
Defined.

(** X25. The watchdog of [stream] sends SIGTERM and sets [killed], which the
    resolved result then carries, but it starts no second timer: the second
    timer's callback, should it be invoked, finds nothing to do. *)
Theorem stream_timeout (w : World) (command : jsstring)
    (options : ExecOptions.t) (now : Z) (pid : option Z)
    (exitCode : option Z) (closed : Z) :
  let fid := length (flows w) in
  let w1 := on_timeout fid (stream command options now pid w) in
  Flow.forceTimer <$> flows w1 !! fid = Some Unset
  ∧ on_force_kill fid w1 = w1
  ∧ children w1 !! length (children w)
    = Some (ChildProcess.kill SIGTERM
              (spawn command
                 (or_string (ExecOptions.cwd options)
                    (Props.defaultCwd (props w)))
                 (shell_flag options) pid))
  ∧ promise_of fid (on_close fid exitCode closed w1)
    = Some (ResolvedStream
              (StreamResult.mk (default 0 exitCode) (closed - now) true
                 command pid)).
Proof.
  intros fid w1.
  destruct (stream_spawn_state w command options now pid) as (Hs & _).
  fold fid in Hs. set (w0 := stream command options now pid w) in *.
  destruct (spawned_flow _ _ _ _ _ Hs) as (Hf & _ & Hc).
  pose proof (lookup_lt_Some _ _ _ Hf) as Hlt.
  pose proof (lookup_lt_Some _ _ _ Hc) as Hlt'.
  assert (w1 = set_flow fid
                 (Flow.with_timeoutHandle Fired
                    (Flow.with_killed true
                       (Flow.mk Stream command now options
                          (or_number (ExecOptions.timeout options)
                             (Props.defaultTimeout (props w)))
                          None (Some (length (children w))) [] [] false Pending
                          Unset Waiting [] [])))
                 (set_child (length (children w))
                    (ChildProcess.kill SIGTERM
                       (spawn command
                          (or_string (ExecOptions.cwd options)
                             (Props.defaultCwd (props w)))
                          (shell_flag options) pid)) w0)) as Hw1.
  { unfold w1, on_timeout. by rewrite Hs. }
  assert (spawned fid w1
          = Some (Flow.with_timeoutHandle Fired
                    (Flow.with_killed true
                       (Flow.mk Stream command now options
                          (or_number (ExecOptions.timeout options)
                             (Props.defaultTimeout (props w)))
                          None (Some (length (children w))) [] [] false Pending
                          Unset Waiting [] [])),
                  length (children w),
                  ChildProcess.kill SIGTERM
                    (spawn command
                       (or_string (ExecOptions.cwd options)
                          (Props.defaultCwd (props w)))
                       (shell_flag options) pid))) as Hs1.
  { rewrite Hw1. unfold spawned. simpl.
    rewrite list_lookup_insert_eq by done. simpl.
    by rewrite list_lookup_insert_eq by done. }
  destruct (spawned_flow _ _ _ _ _ Hs1) as (Hf1 & _ & Hc1).
  pose proof (lookup_lt_Some _ _ _ Hf1) as Hlt1.
  clearbody w1. split_and!.
  - by rewrite Hf1.
  - unfold on_force_kill. by rewrite Hs1.
  - exact Hc1.
  - unfold on_close. rewrite Hs1. simpl. rewrite or_exitCode_default.
    unfold promise_of.
    destruct (ExecOptions.onExit options); simpl;
      rewrite unregister_flows, list_lookup_insert_eq by done;
      simpl; by rewrite kill_pid.
Qed.
